(** * CoNLL NER tag-frequency balancer ([app.py], class [NERBalancer])

    A shallow embedding of the corpus reader and writer ([read_conll],
    [write_conll]) and of the greedy balancing loop ([balance_dataset] with
    [should_remove_sentence], [get_current_counts] and
    [calculate_frequency_score]), followed by the properties proved about
    them.

    Modelling conventions.
    - A Python [str] is a [string]; each character stands for one code
      point below 256, and [isspace] is Python's [str.isspace] on that range.
      The text of the input file is taken as already decoded: the UTF-8
      decoding of the bytes, which can raise, is not modelled.
    - A Python [int] is a [Z]; sentence indices and [max_iterations] are [nat].
    - The float products [target * 0.8] and [target * 1.1] are IEEE 754
      binary64 products, computed with the Standard Library's executable
      specification [SpecFloat]; a comparison of an [int] with a [float] is
      exact, as in Python.
    - A dict that the code iterates ([sentence_tag_counts[idx].items()]) is an
      association list in insertion order; a dict that is only indexed or
      summed over ([current_counts], [target_frequencies]) is a [gmap].
    - A Python [set] of indices is a [gset nat]. The order in which
      [list(a_set)] enumerates it is not fixed by the program, so it is a
      parameter of the model ([set_order]).
    - Console output ([print], [print_current_stats]) is not modelled. *)

From Stdlib Require Import ZArith Lia Bool String Ascii List SpecFloat.
From stdpp Require Import gmap strings list sorting.

(* ================================================================== *)
(** * Part I: the program *)
(* ================================================================== *)

(** ** Python floats: the two constants and the two operations used *)

(** [float(t)] for a Python int [t], rounded to nearest-even. (For an int of
    magnitude 2^1024 or more Python raises [OverflowError]; the model yields
    an infinity there. No statement below reaches that range.) *)
Definition float_of_int (t : Z) : spec_float :=
  binary_normalize 53 1024 t 0 false.

(** The literal [0.8], i.e. 0x1.999999999999ap-1. *)
Definition float_0_8 : spec_float := S754_finite false 7205759403792794 (-53).

(** The literal [1.1], i.e. 0x1.199999999999ap+0. *)
Definition float_1_1 : spec_float := S754_finite false 4953959590107546 (-52).

(** [t * c] for an int [t] and a float [c]. *)
Definition int_mul_float (t : Z) (c : spec_float) : spec_float :=
  SFmul 53 1024 (float_of_int t) c.

(** Exact comparison of an int with a float. *)
Definition int_compare_float (k : Z) (f : spec_float) : option comparison :=
  match f with
  | S754_nan => None
  | S754_infinity s => Some (if s then Gt else Lt)
  | S754_zero _ => Some (k ?= 0)%Z
  | S754_finite s m e =>
      let v := cond_Zopp s (Zpos m) in
      Some (if (0 <=? e)%Z then (k ?= v * 2 ^ e)%Z else (k * 2 ^ (- e) ?= v)%Z)
  end.

(** [k < f] *)
Definition int_lt_float (k : Z) (f : spec_float) : bool :=
  match int_compare_float k f with Some Lt => true | _ => false end.

(** [k > f] *)
Definition int_gt_float (k : Z) (f : spec_float) : bool :=
  match int_compare_float k f with Some Gt => true | _ => false end.

(** Round-to-nearest-even of [X / 2^s]; used only to state what [SpecFloat]'s
    rounding computes. *)
Definition rne (X s : Z) : Z :=
  let q := (X / 2 ^ s)%Z in
  let r := (X mod 2 ^ s)%Z in
  if (2 * r <? 2 ^ s)%Z then q
  else if (2 * r =? 2 ^ s)%Z then (if Z.even q then q else q + 1)%Z
  else (q + 1)%Z.

(** ** Python strings: [strip], [split], line iteration *)

Definition LF : ascii := "010"%char.
Definition CR : ascii := "013"%char.

(** [str.isspace] on code points below 256: 9-13, 28-32, 133, 160. *)
Definition isspace (c : ascii) : bool :=
  let n := nat_of_ascii c in
  ((9 <=? n) && (n <=? 13)) || ((28 <=? n) && (n <=? 32))
  || (n =? 133) || (n =? 160).

Definition is_empty (s : string) : bool :=
  match s with EmptyString => true | String _ _ => false end.

Fixpoint lstrip (s : string) : string :=
  match s with
  | EmptyString => EmptyString
  | String c s' => if isspace c then lstrip s' else s
  end.

Fixpoint rstrip (s : string) : string :=
  match s with
  | EmptyString => EmptyString
  | String c s' =>
      let r := rstrip s' in
      if is_empty r && isspace c then EmptyString else String c r
  end.

(** [line.strip()] *)
Definition strip (s : string) : string := rstrip (lstrip s).

(** [line.split()]: maximal runs of non-whitespace characters; [field] is the
    run being read. *)
Fixpoint split_from (field : string) (s : string) : list string :=
  match s with
  | EmptyString => if is_empty field then [] else [field]
  | String c s' =>
      if isspace c then
        if is_empty field then split_from EmptyString s'
        else field :: split_from EmptyString s'
      else split_from (field ++ String c EmptyString)%string s'
  end.

Definition split (s : string) : list string := split_from EmptyString s.

(** Text-mode reading ([open(filename, 'r')], universal newlines): "\r\n" and
    a lone "\r" are read as "\n". *)
Fixpoint universal_newlines (s : string) : string :=
  match s with
  | EmptyString => EmptyString
  | String c rest =>
      if Ascii.eqb c CR then
        String LF
          match rest with
          | EmptyString => EmptyString
          | String c2 rest2 =>
              if Ascii.eqb c2 LF then universal_newlines rest2
              else universal_newlines rest
          end
      else String c (universal_newlines rest)
  end.

(** [for line in f]: the lines of the text, each with its terminating "\n";
    [cur] is the line being read. *)
Fixpoint lines_from (cur : string) (s : string) : list string :=
  match s with
  | EmptyString => if is_empty cur then [] else [cur]
  | String c s' =>
      if Ascii.eqb c LF then (cur ++ String LF EmptyString)%string :: lines_from EmptyString s'
      else lines_from (cur ++ String c EmptyString)%string s'
  end.

Definition file_lines (content : string) : list string :=
  lines_from EmptyString (universal_newlines content).

(** ** The corpus model *)

Definition token : Type := string * string.
Definition sentence : Type := list token.

Definition DOCSTART : string := "-DOCSTART-".

(** The state of the loop of [read_conll]: [sentences] and
    [current_sentence]. *)
Definition reader_state : Type := list sentence * sentence.

(** [if current_sentence: sentences.append(current_sentence);
     current_sentence = []] *)
Definition flush (st : reader_state) : reader_state :=
  match snd st with
  | [] => st
  | _ :: _ => (fst st ++ [snd st], [])
  end.

(** Lines 27-29: [parts = line.split(); word = parts[0]; tag = parts[-1]].
    [None] is the [IndexError] of [parts[0]] on an empty list. *)
Definition parse_fields (line : string) : option token :=
  match split line with
  | [] => None
  | word :: rest => Some (word, List.last rest word)
  end.

(** One turn of the loop over the lines of the file (lines 20-30). *)
Definition read_line (st : reader_state) (raw : string) : option reader_state :=
  let line := strip raw in
  if String.prefix DOCSTART line || is_empty line then Some (flush st)
  else
    match parse_fields line with
    | None => None
    | Some tok => Some (fst st, snd st ++ [tok])
    end.

Fixpoint read_lines (st : reader_state) (ls : list string) : option reader_state :=
  match ls with
  | [] => Some st
  | raw :: rest =>
      match read_line st raw with
      | None => None
      | Some st' => read_lines st' rest
      end
  end.

(** [read_conll], on the text of the file: what [open(filename, 'r',
    encoding='utf-8')] yields once the bytes have been decoded. A file that
    is not valid UTF-8 makes the decoding raise [UnicodeDecodeError]; that
    happens before any line is parsed and has no counterpart here. [None] is
    the [IndexError] of [parse_fields]. *)
Definition read_conll (content : string) : option (list sentence) :=
  match read_lines ([], []) (file_lines content) with
  | None => None
  | Some st => Some (fst (flush st))
  end.

(** [f.write(f"{word} -X- _ {tag}\n")] *)
Definition write_token (tok : token) : string :=
  (fst tok ++ " -X- _ " ++ snd tok ++ String LF EmptyString)%string.

Definition write_sentence (s : sentence) : string :=
  (fold_right (fun tok acc => write_token tok ++ acc) EmptyString s
   ++ String LF EmptyString)%string.

(** [write_conll]: the text written to the output file. *)
Definition write_conll (sentences : list sentence) : string :=
  ("-DOCSTART- -X- O O" ++ String LF (String LF EmptyString)
   ++ fold_right (fun s acc => write_sentence s ++ acc) EmptyString sentences)%string.

(** ** The balancer *)

(** [self]: the two fields set by [__init__]. *)
Record NERBalancer : Type := {
  target_frequencies : gmap string Z;
  max_iterations : nat
}.

(** The value of [sentence_tag_counts[idx]]: a dict in insertion order. *)
Definition tag_counts : Type := list (string * Z).

(** [counts[tag] += n] on an insertion-ordered [defaultdict(int)]. *)
Fixpoint dict_add (counts : tag_counts) (tag : string) (n : Z) : tag_counts :=
  match counts with
  | [] => [(tag, (0 + n)%Z)]
  | (t, c) :: rest =>
      if String.eqb t tag then (t, (c + n)%Z) :: rest
      else (t, c) :: dict_add rest tag n
  end.

(** [get_sentence_tag_counts] *)
Definition get_sentence_tag_counts (s : sentence) : tag_counts :=
  fold_left
    (fun counts (tok : token) =>
       if String.eqb (snd tok) "O" then counts else dict_add counts (snd tok) 1)
    s [].

(** [current_counts[tag]] and [current_counts.get(tag, 0)]: [current_counts]
    is the [defaultdict(int)] built by [get_current_counts], on which a
    missing key reads as 0. *)
Definition count_of (counts : gmap string Z) (tag : string) : Z :=
  default 0%Z (counts !! tag).

(** [for tag, count in sentence_counts.items(): current_counts[tag] += count] *)
Definition add_counts (sc : tag_counts) (counts : gmap string Z) : gmap string Z :=
  fold_left (fun m (e : string * Z) => <[fst e := (count_of m (fst e) + snd e)%Z]> m)
            sc counts.

(** [for tag, count in sentence_counts.items(): current_counts[tag] -= count] *)
Definition sub_counts (sc : tag_counts) (counts : gmap string Z) : gmap string Z :=
  fold_left (fun m (e : string * Z) => <[fst e := (count_of m (fst e) - snd e)%Z]> m)
            sc counts.

(** [sentence_tag_counts[idx]]. The program only uses indices below
    [len(sentences)]: the selections never leave [all_indices]
    ([iteration_body_in_step], [balance_loop_in_range]). *)
Definition counts_at (stc : list tag_counts) (idx : nat) : tag_counts :=
  nth idx stc [].

(** [get_current_counts] (its parameter [sentences] is unused). The loop
    [for idx in selected] is a fold over the indices in the order the set
    yields them; the counts do not depend on that order
    ([count_of_counts_of_indices], [selection_count_perm]), so
    [get_current_counts] takes the elements in the order of [elements]. *)
Definition counts_of_indices (indices : list nat) (stc : list tag_counts)
  : gmap string Z :=
  fold_left (fun m idx => add_counts (counts_at stc idx) m) indices ∅.

Definition get_current_counts (selected : gset nat) (stc : list tag_counts)
  : gmap string Z :=
  counts_of_indices (elements selected) stc.

(** [calculate_frequency_score] *)
Definition calculate_frequency_score (self : NERBalancer)
    (current_counts : gmap string Z) : Z :=
  fold_left
    (fun score (e : string * Z) =>
       (score - Z.abs (count_of current_counts (fst e) - snd e))%Z)
    (map_to_list (target_frequencies self)) 0%Z.

(** [should_remove_sentence]: the loop over [sentence_counts.items()], with
    its two early [return False]. *)
Fixpoint should_remove_sentence (self : NERBalancer) (idx : nat)
    (sentence_counts : tag_counts) (current_counts : gmap string Z) : bool :=
  match sentence_counts with
  | [] => true
  | (tag, count) :: rest =>
      match target_frequencies self !! tag with
      | Some target =>
          let current := count_of current_counts tag in
          if (current <? target)%Z then false
          else if int_lt_float (current - count) (int_mul_float target float_0_8)
               then false
          else should_remove_sentence self idx rest current_counts
      | None => should_remove_sentence self idx rest current_counts
      end
  end.

(** Lines 103-108: the loop that computes [can_add], with its [break]. *)
Fixpoint can_add (self : NERBalancer) (sentence_counts : tag_counts)
    (current_counts : gmap string Z) : bool :=
  match sentence_counts with
  | [] => true
  | (tag, count) :: rest =>
      match target_frequencies self !! tag with
      | Some target =>
          if int_gt_float (count_of current_counts tag + count)
                          (int_mul_float target float_1_1)
          then false
          else can_add self rest current_counts
      | None => can_add self rest current_counts
      end
  end.

(** Where the program enumerates a set. *)
Inductive iteration_site : Type :=
| RemovalPass (iteration : nat)     (* [list(selected)], line 91 *)
| AdditionPass (iteration : nat).   (* [list(available)], line 101 *)

(** The enumeration order of Python sets: some listing of the elements, each
    once. *)
Record set_order : Type := {
  list_of_set : iteration_site -> gset nat -> list nat;
  list_of_set_perm : forall site s, list_of_set site s ≡ₚ elements s
}.

(** The variables of [balance_dataset] that the passes update. *)
Record pass_state : Type := {
  selected : gset nat;
  current_counts : gmap string Z;
  improved : bool
}.

(** Lines 92-97, for one [idx] of the removal pass. ([selected.remove(idx)]
    raises [KeyError] when [idx] is absent; it never is, since the snapshot
    lists each selected index once: see [removal_steps_spec].) *)
Definition removal_step (self : NERBalancer) (stc : list tag_counts)
    (st : pass_state) (idx : nat) : pass_state :=
  let sentence_counts := counts_at stc idx in
  if should_remove_sentence self idx sentence_counts (current_counts st) then
    {| selected := selected st ∖ {[idx]};
       current_counts := sub_counts sentence_counts (current_counts st);
       improved := true |}
  else st.

(** Lines 102-114, for one [idx] of the addition pass. *)
Definition addition_step (self : NERBalancer) (stc : list tag_counts)
    (st : pass_state) (idx : nat) : pass_state :=
  let sentence_counts := counts_at stc idx in
  if can_add self sentence_counts (current_counts st) then
    {| selected := selected st ∪ {[idx]};
       current_counts := add_counts sentence_counts (current_counts st);
       improved := true |}
  else st.

(** [best_score]: [float('-inf')] or an int. *)
Inductive py_score : Type :=
| NegInf
| Score (z : Z).

(** [score > best_score] *)
Definition score_gt (score : Z) (best : py_score) : bool :=
  match best with
  | NegInf => true
  | Score b => (b <? score)%Z
  end.

(** [a <= b] on scores. *)
Definition score_le (a b : py_score) : Prop :=
  match a, b with
  | NegInf, _ => True
  | Score _, NegInf => False
  | Score x, Score y => (x <= y)%Z
  end.

(** The variables of [balance_dataset] that live across iterations. *)
Record balance_state : Type := {
  bs_selected : gset nat;
  bs_current_counts : gmap string Z;
  best_selected : gset nat;
  best_score : py_score
}.

(** [set(range(len(sentences)))] *)
Definition all_indices (n : nat) : gset nat := list_to_set (seq 0 n).

(** Lines 91-97: the removal pass of iteration number [iteration], over a
    snapshot [list(selected)]. *)
Definition removal_pass (self : NERBalancer) (order : set_order)
    (stc : list tag_counts) (iteration : nat) (st : pass_state) : pass_state :=
  fold_left (removal_step self stc)
            (list_of_set order (RemovalPass iteration) (selected st)) st.

(** Lines 100-114: the addition pass, over a snapshot [list(available)] of
    [set(range(len(sentences))) - selected]. *)
Definition addition_pass (self : NERBalancer) (order : set_order)
    (stc : list tag_counts) (n : nat) (iteration : nat) (st : pass_state)
  : pass_state :=
  let available := all_indices n ∖ selected st in
  fold_left (addition_step self stc)
            (list_of_set order (AdditionPass iteration) available) st.

(** The state of the passes at line 88, where [improved = False]. *)
Definition enter_passes (st : balance_state) : pass_state :=
  {| selected := bs_selected st;
     current_counts := bs_current_counts st;
     improved := false |}.

(** The body of the [for iteration in range(self.max_iterations)] loop up to
    line 120; the result carries [improved], tested at line 122. *)
Definition iteration_body (self : NERBalancer) (order : set_order)
    (stc : list tag_counts) (n : nat) (iteration : nat) (st : balance_state)
  : balance_state * bool :=
  let removed := removal_pass self order stc iteration (enter_passes st) in
  let added := addition_pass self order stc n iteration removed in
  let score := calculate_frequency_score self (current_counts added) in
  let better := score_gt score (best_score st) in
  ({| bs_selected := selected added;
      bs_current_counts := current_counts added;
      best_selected := if better then selected added else best_selected st;
      best_score := if better then Score score else best_score st |},
   improved added).

(** The states at the end of each executed iteration, in order: [fuel]
    iterations remain, the next one is number [iteration]. The loop stops
    when the range is exhausted or at the [break] of line 123. *)
Fixpoint balance_trace (self : NERBalancer) (order : set_order)
    (stc : list tag_counts) (n : nat) (fuel iteration : nat) (st : balance_state)
  : list balance_state :=
  match fuel with
  | O => []
  | S fuel' =>
      let '(st', improved) := iteration_body self order stc n iteration st in
      st' :: (if improved
              then balance_trace self order stc n fuel' (S iteration) st'
              else [])
  end.

(** The state when the loop is left. *)
Fixpoint balance_loop (self : NERBalancer) (order : set_order)
    (stc : list tag_counts) (n : nat) (fuel iteration : nat) (st : balance_state)
  : balance_state :=
  match fuel with
  | O => st
  | S fuel' =>
      let '(st', improved) := iteration_body self order stc n iteration st in
      if improved then balance_loop self order stc n fuel' (S iteration) st'
      else st'
  end.

(** Lines 79-85: the state before the first iteration. *)
Definition initial_state (stc : list tag_counts) (n : nat) : balance_state :=
  {| bs_selected := all_indices n;
     bs_current_counts := get_current_counts (all_indices n) stc;
     best_selected := ∅;
     best_score := NegInf |}.

Definition sentence_tag_counts (sentences : list sentence) : list tag_counts :=
  map get_sentence_tag_counts sentences.

(** The state in which [balance_dataset] leaves its loop. *)
Definition final_state (self : NERBalancer) (order : set_order)
    (sentences : list sentence) : balance_state :=
  let stc := sentence_tag_counts sentences in
  let n := length sentences in
  balance_loop self order stc n (max_iterations self) 0 (initial_state stc n).

(** The states at the end of the iterations [balance_dataset] executes. *)
Definition iteration_states (self : NERBalancer) (order : set_order)
    (sentences : list sentence) : list balance_state :=
  let stc := sentence_tag_counts sentences in
  let n := length sentences in
  balance_trace self order stc n (max_iterations self) 0 (initial_state stc n).

(** [sorted(best_selected)] *)
Definition sorted (s : gset nat) : list nat := merge_sort Nat.le (elements s).

(** [[sentences[idx] for idx in indices]] *)
Definition sentences_at (sentences : list sentence) (indices : list nat)
  : list sentence :=
  map (fun idx => nth idx sentences []) indices.

(** [balance_dataset] *)
Definition balance_dataset (self : NERBalancer) (order : set_order)
    (sentences : list sentence) : list sentence :=
  sentences_at sentences (sorted (best_selected (final_state self order sentences))).

(** Sets enumerated in ascending order. *)
Definition ascending_order : set_order :=
  {| list_of_set := fun _ s => merge_sort Nat.le (elements s);
     list_of_set_perm := fun _ s => merge_sort_Permutation Nat.le (elements s) |}.

(** ** The rest of the pipeline *)

(** [process_file], without its console output: from the decoded text of
    the input file to the text written to the output file. [None] is an
    exception raised by the loop of [read_conll]. *)
Definition process_file (self : NERBalancer) (order : set_order)
    (content : string) : option string :=
  match read_conll content with
  | None => None
  | Some sentences => Some (write_conll (balance_dataset self order sentences))
  end.

(** The loop [for _, tag in sentence: if tag != 'O': tag_counts[tag] += 1]
    of [get_tag_frequencies] and [process_file], on the counts so far. *)
Definition count_tags (counts : tag_counts) (s : sentence) : tag_counts :=
  fold_left
    (fun counts (tok : token) =>
       if String.eqb (snd tok) "O" then counts else dict_add counts (snd tok) 1)
    s counts.

(** [tag_counts[tag]] on the [defaultdict(int)]: the value stored for the
    key, 0 for a missing key. *)
Fixpoint dict_get (counts : tag_counts) (tag : string) : Z :=
  match counts with
  | [] => 0%Z
  | (t, c) :: rest => if String.eqb t tag then c else dict_get rest tag
  end.

(** The value [{'count': ..., 'target': ..., 'diff': ...}] of one label. *)
Record tag_stats : Type := {
  stat_count : Z;
  stat_target : Z;
  stat_diff : Z
}.

(** [get_tag_frequencies]: the dict it returns, as its items in insertion
    order, which is the order of [sorted(tag_counts.keys())]. *)
Definition get_tag_frequencies (sentences : list sentence)
    (target_frequencies : gmap string Z) : list (string * tag_stats) :=
  let tag_counts := fold_left count_tags sentences [] in
  map (fun tag =>
         let count := dict_get tag_counts tag in
         let target := default 0%Z (target_frequencies !! tag) in
         let diff := if (0 <? target)%Z then (count - target)%Z else count in
         (tag, {| stat_count := count; stat_target := target; stat_diff := diff |}))
      (merge_sort String.le (map fst tag_counts)).

(** [sum(stats['count'] for stats in frequencies.values())], the
    [total_tags] of the summary built by [balance_tags]. *)
Definition total_tags (frequencies : list (string * tag_stats)) : Z :=
  fold_left (fun acc (e : string * tag_stats) => (acc + stat_count (snd e))%Z)
            frequencies 0%Z.

(* ================================================================== *)
(** * Part II: properties *)
(* ================================================================== *)

(** ** Binary64 products against exact fractions

    [SpecFloat] rounds a mantissa by shifting it right while recording a
    round bit and a sticky bit. The lemmas below show that this yields the
    nearest multiple of the shifted-out power of two, and deduce that, for an
    int target of at most 2^48, comparing an int with [target * 0.8] or
    [target * 1.1] gives the same answer as comparing it with the exact
    fraction 4/5 or 11/10 of the target. *)

Section Binary64.
Local Open Scope Z_scope.

Lemma iter_pos_nat {A} (f : A -> A) p x :
  SpecFloat.iter_pos f p x = Nat.iter (Pos.to_nat p) f x.
Proof.
  revert x. induction p as [p IH|p IH|]; intros x; cbn [SpecFloat.iter_pos].
  - rewrite !IH, Pos2Nat.inj_xI.
    replace (S (2 * Pos.to_nat p)) with (Pos.to_nat p + S (Pos.to_nat p))%nat by lia.
    rewrite Nat.iter_add, Nat.iter_succ_r. reflexivity.
  - rewrite !IH, Pos2Nat.inj_xO.
    replace (2 * Pos.to_nat p)%nat with (Pos.to_nat p + Pos.to_nat p)%nat by lia.
    rewrite Nat.iter_add. reflexivity.
  - reflexivity.
Qed.

Lemma shr_1_nonneg m r s :
  0 <= m -> shr_1 (Build_shr_record m r s) = Build_shr_record (m / 2) (Z.odd m) (r || s).
Proof.
  intros Hm. destruct m as [|p|p]; [reflexivity| |lia].
  destruct p as [p|p|]; simpl shr_1; f_equal.
  - rewrite Pos2Z.inj_xI. apply Z.div_unique with (r:=1); lia. 
  - rewrite Pos2Z.inj_xO. apply Z.div_unique with (r:=0); lia. 
Qed.

Lemma iter_shr_1 X (n : nat) :
  0 <= X ->
  Nat.iter (S n) shr_1 (Build_shr_record X false false) =
  Build_shr_record (X / 2 ^ Z.of_nat (S n)) (Z.odd (X / 2 ^ Z.of_nat n))
                   (negb (X mod 2 ^ Z.of_nat n =? 0)).
Proof.
  intros HX. induction n as [|n IH].
  - unfold Nat.iter; cbn [nat_rect]. rewrite shr_1_nonneg by assumption.
    change (2 ^ Z.of_nat 1) with 2. change (2 ^ Z.of_nat 0) with 1.
    rewrite Z.div_1_r, Z.mod_1_r. reflexivity.
  - rewrite Nat.iter_succ, IH.
    assert (Hp : 0 < 2 ^ Z.of_nat n) by (apply Z.pow_pos_nonneg; lia).
    assert (Hs : 2 ^ Z.of_nat (S n) = 2 ^ Z.of_nat n * 2)
      by (rewrite Nat2Z.inj_succ, Z.pow_succ_r; lia).
    assert (Hs2 : 2 ^ Z.of_nat (S (S n)) = 2 ^ Z.of_nat (S n) * 2)
      by (rewrite (Nat2Z.inj_succ (S n)), Z.pow_succ_r; lia).
    rewrite shr_1_nonneg by (apply Z.div_pos; lia).
    f_equal.
    + rewrite Hs2, Z.div_div by lia. reflexivity.
    + rewrite Hs at 1. rewrite Z.rem_mul_r by lia.
      pose proof (Z.mod_pos_bound X (2 ^ Z.of_nat n) Hp) as Hb.
      rewrite Zodd_mod.
      pose proof (Z.mod_pos_bound (X / 2 ^ Z.of_nat n) 2 ltac:(lia)) as Hb2.
      destruct (Z.eqb_spec ((X / 2 ^ Z.of_nat n) mod 2) 1) as [E|E];
      destruct (Z.eqb_spec (X mod 2 ^ Z.of_nat n) 0) as [E'|E'];
      destruct (Z.eqb_spec (X mod 2 ^ Z.of_nat n
                            + 2 ^ Z.of_nat n * ((X / 2 ^ Z.of_nat n) mod 2)) 0) as [E''|E''];
      simpl; try reflexivity; exfalso; nia.
Qed.

Lemma round_shr X (n : nat) :
  0 <= X ->
  let R := Nat.iter (S n) shr_1 (Build_shr_record X false false) in
  round_nearest_even (shr_m R) (loc_of_shr_record R) = rne X (Z.of_nat (S n)).
Proof.
  intros HX R. subst R. rewrite iter_shr_1 by assumption.
  assert (Hp : 0 < 2 ^ Z.of_nat n) by (apply Z.pow_pos_nonneg; lia).
  assert (Hs : 2 ^ Z.of_nat (S n) = 2 ^ Z.of_nat n * 2)
    by (rewrite Nat2Z.inj_succ, Z.pow_succ_r; lia).
  assert (Hm : X mod 2 ^ Z.of_nat (S n)
               = X mod 2 ^ Z.of_nat n + 2 ^ Z.of_nat n * ((X / 2 ^ Z.of_nat n) mod 2))
    by (rewrite Hs; apply Z.rem_mul_r; lia).
  pose proof (Z.mod_pos_bound X (2 ^ Z.of_nat n) Hp) as Hb.
  pose proof (Z.mod_pos_bound (X / 2 ^ Z.of_nat n) 2 ltac:(lia)) as Hb2.
  unfold rne. cbv zeta. rewrite Zodd_mod. cbn [shr_m].
  destruct (Z.eqb_spec ((X / 2 ^ Z.of_nat n) mod 2) 1) as [E|E];
  destruct (Z.eqb_spec (X mod 2 ^ Z.of_nat n) 0) as [E'|E'];
  cbn [negb loc_of_shr_record round_nearest_even];
  destruct (Z.ltb_spec (2 * (X mod 2 ^ Z.of_nat (S n))) (2 ^ Z.of_nat (S n))) as [L|L];
  try (exfalso; nia);
  try reflexivity;
  destruct (Z.eqb_spec (2 * (X mod 2 ^ Z.of_nat (S n))) (2 ^ Z.of_nat (S n))) as [L'|L'];
  try (exfalso; nia); reflexivity.
Qed.

Lemma rne_near X s : 0 <= s -> 2 * Z.abs (rne X s * 2 ^ s - X) <= 2 ^ s.
Proof.
  intros Hs. assert (Hp : 0 < 2 ^ s) by (apply Z.pow_pos_nonneg; lia).
  pose proof (Z.div_mod X (2 ^ s) ltac:(lia)) as Hd.
  pose proof (Z.mod_pos_bound X (2 ^ s) Hp) as Hb.
  unfold rne. cbv zeta.
  destruct (Z.ltb_spec (2 * (X mod 2 ^ s)) (2 ^ s)); [nia|].
  destruct (Z.eqb_spec (2 * (X mod 2 ^ s)) (2 ^ s)); [destruct (Z.even _)|]; nia.
Qed.

Lemma digits2_pos_bounds p :
  2 ^ (Zpos (digits2_pos p) - 1) <= Zpos p < 2 ^ Zpos (digits2_pos p).
Proof.
  induction p as [p IH|p IH|]; cbn [digits2_pos]; [| |simpl; lia];
    rewrite Pos2Z.inj_succ;
    replace (Z.succ (Zpos (digits2_pos p)) - 1) with (Z.succ (Zpos (digits2_pos p) - 1)) by lia;
    rewrite !Z.pow_succ_r by lia; lia.
Qed.

Lemma digits2_pos_unique p d :
  2 ^ (d - 1) <= Zpos p < 2 ^ d -> Zpos (digits2_pos p) = d.
Proof.
  intros [H1 H2]. pose proof (digits2_pos_bounds p) as [B1 B2].
  assert (0 < d).
  { destruct (Z.ltb_spec 0 d); [assumption|exfalso].
    destruct (Z.eq_dec d 0) as [->|]; [change (2 ^ 0) with 1 in H2; lia|].
    rewrite Z.pow_neg_r in H2 by lia. lia. }
  assert (Zpos (digits2_pos p) - 1 < d)
    by (apply (Z.pow_lt_mono_r_iff 2); lia).
  assert (d - 1 < Zpos (digits2_pos p))
    by (apply (Z.pow_lt_mono_r_iff 2); lia).
  lia.
Qed.

Lemma binary_round_aux_exact s m e :
  Zpos (digits2_pos m) = 53 -> -1074 <= e <= 971 ->
  binary_round_aux 53 1024 s (Zpos m) e loc_Exact = S754_finite s m e.
Proof.
  intros Hd He. unfold binary_round_aux, shr_fexp, fexp, emin. cbn [Zdigits2].
  rewrite Hd. replace (Z.max (53 + e - 53) (3 - 1024 - 53) - e) with 0 by lia.
  cbn [shr shr_record_of_loc loc_of_shr_record round_nearest_even shr_m Zdigits2].
  rewrite Hd. replace (Z.max (53 + e - 53) (3 - 1024 - 53) - e) with 0 by lia.
  cbn [shr shr_record_of_loc shr_m].
  replace (e <=? 1024 - 53) with true by (symmetry; apply Z.leb_le; lia).
  reflexivity.
Qed.

Lemma binary_round_aux_round s m e :
  let D := Zpos (digits2_pos m) in
  53 < D -> -1074 <= D + e - 53 -> D + e - 53 < 971 ->
  exists m' e',
    binary_round_aux 53 1024 s (Zpos m) e loc_Exact = S754_finite s m' e' /\
    (e' = e + (D - 53) /\ Zpos m' = rne (Zpos m) (D - 53) \/
     e' = e + (D - 53) + 1 /\ 2 * Zpos m' = rne (Zpos m) (D - 53)).
Proof.
  intros D HD Hlo Hhi.
  pose proof (digits2_pos_bounds m) as [B1 B2]. fold D in B1, B2.
  unfold binary_round_aux, shr_fexp, fexp, emin. cbn [Zdigits2]. fold D.
  replace (Z.max (D + e - 53) (3 - 1024 - 53) - e) with (D - 53) by lia.
  destruct (D - 53) as [|pn|pn] eqn:En; [lia| |lia].
  cbn [shr shr_record_of_loc]. rewrite iter_pos_nat.
  destruct (Pos.to_nat pn) as [|n] eqn:Epn; [lia|].
  assert (Hn : Z.of_nat (S n) = Zpos pn) by lia.
  rewrite (round_shr (Zpos m) n) by lia. rewrite Hn.
  assert (Hp : 0 < 2 ^ Zpos pn) by (apply Z.pow_pos_nonneg; lia).
  assert (HDp : 2 ^ D = 2 ^ 53 * 2 ^ Zpos pn)
    by (rewrite <- Z.pow_add_r by lia; f_equal; lia).
  assert (HDp1 : 2 ^ (D - 1) = 2 ^ 52 * 2 ^ Zpos pn)
    by (rewrite <- Z.pow_add_r by lia; f_equal; lia).
  assert (Hq : 2 ^ 52 <= Zpos m / 2 ^ Zpos pn < 2 ^ 53).
  { split; [apply Z.div_le_lower_bound | apply Z.div_lt_upper_bound]; lia. }
  assert (Hr : 2 ^ 52 <= rne (Zpos m) (Zpos pn) <= 2 ^ 53).
  { unfold rne. cbv zeta. repeat destruct (_ : bool); lia. }
  destruct (Z.eq_dec (rne (Zpos m) (Zpos pn)) (2 ^ 53)) as [E53|N53].
  - rewrite E53. exists (4503599627370496%positive), (e + Zpos pn + 1).
    split; [|right; split; [lia|]].
    + vm_compute (Zdigits2 (2 ^ 53)).
      replace (Z.max (54 + (e + Zpos pn) - 53) (3 - 1024 - 53) - (e + Zpos pn)) with 1 by lia.
      cbn [shr SpecFloat.iter_pos]. 
      change (shr_m (shr_1 {| shr_m := 2 ^ 53; shr_r := false; shr_s := false |}))
        with (Zpos 4503599627370496).
      cbv iota beta.
      replace (e + Zpos pn + 1 <=? 1024 - 53) with true by (symmetry; apply Z.leb_le; lia).
      reflexivity.
    + reflexivity.
  - destruct (rne (Zpos m) (Zpos pn)) as [|p2|p2] eqn:Er; [lia| |lia].
    exists p2, (e + Zpos pn). split; [|left; split; [lia|]].
    + cbn [Zdigits2]. rewrite (digits2_pos_unique p2 53) by (simpl; lia).
      replace (Z.max (53 + (e + Zpos pn) - 53) (3 - 1024 - 53) - (e + Zpos pn)) with 0 by lia.
      cbn [shr shr_m].
      replace (e + Zpos pn <=? 1024 - 53) with true by (symmetry; apply Z.leb_le; lia).
      reflexivity.
    + reflexivity.
Qed.

Lemma pos_iter_xO m k : Zpos (Pos.iter xO m k) = Zpos m * 2 ^ Zpos k.
Proof.
  induction k as [|k IH] using Pos.peano_ind.
  - simpl. lia.
  - rewrite Pos.iter_succ, Pos2Z.inj_xO, IH, Pos2Z.inj_succ, Z.pow_succ_r by lia. lia.
Qed.

Lemma digits2_iter_xO m k :
  Zpos (digits2_pos (Pos.iter xO m k)) = Zpos (digits2_pos m) + Zpos k.
Proof.
  induction k as [|k IH] using Pos.peano_ind.
  - simpl. lia.
  - rewrite Pos.iter_succ. cbn [digits2_pos]. lia.
Qed.

Lemma float_of_int_pos t :
  let D := Zpos (digits2_pos t) in
  D <= 53 ->
  exists m1, float_of_int (Zpos t) = S754_finite false m1 (D - 53) /\
             Zpos m1 = Zpos t * 2 ^ (53 - D) /\
             Zpos (digits2_pos m1) = 53.
Proof.
  intros D HD. unfold float_of_int, binary_normalize, binary_round, fexp, emin. fold D.
  replace (Z.max (D + 0 - 53) (3 - 1024 - 53)) with (D - 53) by lia.
  unfold shl_align. rewrite Z.sub_0_r.
  destruct (D - 53) as [|pd|pd] eqn:Ed; [|lia|].
  - exists t. rewrite binary_round_aux_exact by (fold D; lia).
    replace (53 - D) with 0 by lia. split; [reflexivity|]. split; [lia|fold D; lia].
  - exists (Pos.iter xO t pd).
    assert (Hdig : Zpos (digits2_pos (Pos.iter xO t pd)) = 53)
      by (rewrite digits2_iter_xO; fold D; lia).
    rewrite binary_round_aux_exact by (try assumption; lia).
    split; [reflexivity|]. split; [|assumption].
    rewrite pos_iter_xO. f_equal. f_equal. lia.
Qed.

Lemma round_above a TB d et P R K' X q :
  2 ^ 4 <= a -> 2 ^ 52 <= TB -> 1 <= d -> 0 <= et ->
  0 < P <= 2 ^ 53 -> 1 <= q <= 10 ->
  2 * Z.abs (R * P - X) <= P ->
  q * (X - K' * P) = a * (TB * d + et) ->
  K' < R.
Proof.
  intros Ha HTB Hd Het HP Hq Hnear Hdiff.
  destruct (Z.lt_ge_cases K' R) as [|Hge]; [assumption|exfalso].
  assert (A1 : TB * 1 <= TB * d) by (apply Z.mul_le_mono_nonneg_l; lia).
  assert (A2 : 2 ^ 4 * 2 ^ 52 <= a * TB) by (apply Z.mul_le_mono_nonneg; lia).
  assert (A3 : a * TB <= a * (TB * d + et)) by (apply Z.mul_le_mono_nonneg_l; lia).
  assert (A4 : R * P <= K' * P) by (apply Z.mul_le_mono_nonneg_r; lia).
  assert (A5 : q * P <= 10 * 2 ^ 53) by (apply Z.mul_le_mono_nonneg; lia).
  assert (A6 : q * (2 * (X - K' * P)) <= q * P) by (apply Z.mul_le_mono_nonneg_l; lia).
  lia.
Qed.

Lemma round_below a TB d et P R K' X q :
  2 ^ 4 <= a -> 2 ^ 52 <= TB -> 1 <= d -> 0 <= et <= 2 ^ 50 ->
  0 < P <= 2 ^ 53 -> 1 <= q <= 10 ->
  2 * Z.abs (R * P - X) <= P ->
  q * (X - K' * P) = a * (- (TB * d) + et) ->
  R < K'.
Proof.
  intros Ha HTB Hd Het HP Hq Hnear Hdiff.
  destruct (Z.lt_ge_cases R K') as [|Hge]; [assumption|exfalso].
  assert (A1 : TB * 1 <= TB * d) by (apply Z.mul_le_mono_nonneg_l; lia).
  assert (A2 : 2 ^ 4 * (2 ^ 52 - 2 ^ 50) <= a * (TB * d - et))
    by (apply Z.mul_le_mono_nonneg; lia).
  assert (A4 : K' * P <= R * P) by (apply Z.mul_le_mono_nonneg_r; lia).
  assert (A5 : q * P <= 10 * 2 ^ 53) by (apply Z.mul_le_mono_nonneg; lia).
  assert (A6 : q * (2 * (K' * P - X)) <= q * P) by (apply Z.mul_le_mono_nonneg_l; lia).
  lia.
Qed.

Lemma round_not_below a et P R K' X q :
  0 <= a -> 0 <= et -> 0 < P -> 1 <= q ->
  2 * Z.abs (R * P - X) <= P ->
  q * (X - K' * P) = a * et ->
  K' <= R.
Proof.
  intros Ha Het HP Hq Hnear Hdiff.
  destruct (Z.le_gt_cases K' R) as [|Hgt]; [assumption|exfalso].
  assert (A1 : 0 <= a * et) by (apply Z.mul_nonneg_nonneg; lia).
  assert (A2 : (R + 1) * P <= K' * P) by (apply Z.mul_le_mono_nonneg_r; lia).
  assert (A3 : 0 <= X - K' * P).
  { destruct (Z.le_gt_cases 0 (X - K' * P)) as [|G]; [assumption|exfalso].
    assert (q * (X - K' * P) < 0) by (apply Z.mul_pos_neg; lia). lia. }
  lia.
Qed.

Lemma round_exact A eps Mz P R K' X q :
  0 <= A -> 0 <= eps -> 0 < P -> 1 <= q ->
  2 * Z.abs (R * P - X) <= P ->
  q * (X - K' * P) = A * eps ->
  X = A * Mz -> X < P * 2 ^ 53 ->
  2 * eps * 2 ^ 53 <= q * Mz ->
  R <= K'.
Proof.
  intros HA Heps HP Hq Hnear Hdiff HX HXP HM.
  destruct (Z.le_gt_cases R K') as [|Hgt]; [assumption|exfalso].
  assert (A2 : (K' + 1) * P <= R * P) by (apply Z.mul_le_mono_nonneg_r; lia).
  assert (A3 : q * P <= q * (2 * (X - K' * P))) by (apply Z.mul_le_mono_nonneg_l; lia).
  assert (A4 : 2 * eps * 2 ^ 53 * A <= q * Mz * A) by (apply Z.mul_le_mono_nonneg_r; lia).
  assert (A5 : q * X <= q * (P * 2 ^ 53 - 1)) by (apply Z.mul_le_mono_nonneg_l; lia).
  assert (A6 : q * X = q * Mz * A) by (rewrite HX; ring).
  assert (A7 : q * (2 * (X - K' * P)) = 2 * (A * eps)) by lia.
  assert (A8 : 2 * eps * 2 ^ 53 * A = 2 ^ 53 * (2 * (A * eps))) by ring.
  lia.
Qed.

Section ConstMul.
Variables (M : positive) (B p q eps : Z).
Hypothesis HM : Zpos (digits2_pos M) = 53.
Hypothesis HB : 52 <= B <= 53.
Hypothesis Hq : 1 <= q <= 10.
Hypothesis Heps : 0 <= eps <= 4.
Hypothesis HqM : q * Zpos M = p * 2 ^ B + eps.

Lemma int_compare_mul_const (t : positive) (k : Z) :
  Zpos t <= 2 ^ 48 ->
  exists c,
    int_compare_float k (int_mul_float (Zpos t) (S754_finite false M (- B))) = Some c /\
    (q * k < p * Zpos t -> c = Lt) /\
    (p * Zpos t < q * k -> c = Gt) /\
    (q * k = p * Zpos t -> c <> Gt /\ (2 * eps * 2 ^ 53 <= q * Zpos M -> c = Eq)).
Proof.
  intros Ht.
  pose proof (digits2_pos_bounds t) as [Bt1 Bt2].
  assert (HD : Zpos (digits2_pos t) <= 49).
  { destruct (Z.le_gt_cases (Zpos (digits2_pos t)) 49) as [|G]; [assumption|exfalso].
    assert (2 ^ 49 <= 2 ^ (Zpos (digits2_pos t) - 1)) by (apply Z.pow_le_mono_r; lia).
    lia. }
  destruct (float_of_int_pos t ltac:(lia)) as (m1 & Hf & Hm1 & Hd1).
  set (D := Zpos (digits2_pos t)) in *.
  set (a := 2 ^ (53 - D)) in *.
  assert (Ha : 2 ^ 4 <= a) by (apply Z.pow_le_mono_r; lia).
  pose proof (digits2_pos_bounds m1) as [Bm1 Bm2]. rewrite Hd1 in Bm1, Bm2.
  pose proof (digits2_pos_bounds M) as [BM1 BM2]. rewrite HM in BM1, BM2.
  unfold int_mul_float. rewrite Hf. cbn [SFmul xorb].
  set (X := (m1 * M)%positive).
  assert (HX : Zpos X = Zpos t * a * Zpos M) by (unfold X; rewrite Pos2Z.inj_mul; lia).
  assert (HXb : 2 ^ 104 <= Zpos X < 2 ^ 106) by (unfold X; rewrite Pos2Z.inj_mul; nia).
  pose proof (digits2_pos_bounds X) as [BX1 BX2].
  set (DX := Zpos (digits2_pos X)) in *.
  assert (HDX : 105 <= DX <= 106).
  { split.
    - destruct (Z.le_gt_cases 105 DX) as [|G]; [assumption|exfalso].
      assert (2 ^ DX <= 2 ^ 104) by (apply Z.pow_le_mono_r; lia). lia.
    - destruct (Z.le_gt_cases DX 106) as [|G]; [assumption|exfalso].
      assert (2 ^ 106 <= 2 ^ (DX - 1)) by (apply Z.pow_le_mono_r; lia). lia. }
  destruct (binary_round_aux_round false X (D - 53 + - B)) as (m' & e' & Hr & Hcase);
    fold DX; try lia.
  rewrite Hr. unfold int_compare_float. cbn [cond_Zopp]. fold DX in Hcase.
  set (n := DX - 53) in *. set (e := D - 53 + - B) in *.
  assert (He' : e' < 0) by (unfold e, n in *; lia).
  replace (0 <=? e') with false by (symmetry; apply Z.leb_gt; lia).
  eexists; split; [reflexivity|].
  set (P := 2 ^ n).
  assert (HP : 0 < P) by (apply Z.pow_pos_nonneg; unfold n; lia).
  assert (HP53 : P <= 2 ^ 53) by (apply Z.pow_le_mono_r; unfold n; lia).
  pose proof (rne_near (Zpos X) n ltac:(unfold n; lia)) as Hnear. fold P in Hnear.
  set (R := rne (Zpos X) n) in *.
  set (g := - (e + n)).
  assert (Hg : 0 < g) by (unfold g, e, n; lia).
  assert (Hcmp : (k * 2 ^ (- e') ?= Zpos m') = (k * 2 ^ g ?= R)).
  { destruct Hcase as [[Ee Em]|[Ee Em]]; rewrite Ee.
    - fold g. rewrite Em. reflexivity.
    - replace (k * 2 ^ g) with (2 * (k * 2 ^ (- (e + n + 1)))).
      + rewrite <- Em.
        destruct (Z.compare_spec (k * 2 ^ (- (e + n + 1))) (Zpos m')); symmetry;
          [apply Z.compare_eq_iff|apply Z.compare_lt_iff|apply Z.compare_gt_iff]; lia.
      + replace g with (Z.succ (- (e + n + 1))) by (unfold g; lia).
        rewrite Z.pow_succ_r by lia. lia. }
  rewrite Hcmp.
  assert (HXP : P * 2 ^ 52 <= Zpos X < P * 2 ^ 53).
  { unfold P. rewrite <- !Z.pow_add_r by (unfold n; lia).
    replace (n + 52) with (DX - 1) by (unfold n; lia).
    replace (n + 53) with DX by (unfold n; lia). lia. }
  assert (HK : k * 2 ^ g * P = k * 2 ^ B * a).
  { unfold P, a. rewrite <- !Z.mul_assoc, <- !Z.pow_add_r by (unfold n; lia).
    f_equal. f_equal. unfold g, e. lia. }
  assert (HTB : 2 ^ 52 <= 2 ^ B <= 2 ^ 53) by (split; apply Z.pow_le_mono_r; lia).
  set (TB := 2 ^ B) in *. set (K' := k * 2 ^ g) in *.
  assert (Hdiff : q * (Zpos X - K' * P) = a * (TB * (p * Zpos t - q * k) + eps * Zpos t)).
  { assert (HK2 : K' * P = k * TB * a) by exact HK.
    replace (q * (Zpos X - K' * P))
      with (Zpos t * a * (q * Zpos M) - q * (K' * P)) by (rewrite HX; ring).
    rewrite HK2, HqM. fold TB. ring. }
  assert (Het : 0 <= eps * Zpos t <= 2 ^ 50).
  { split; [apply Z.mul_nonneg_nonneg; lia|].
    change (2 ^ 50) with (4 * 2 ^ 48). apply Z.mul_le_mono_nonneg; lia. }
  clearbody TB K' R P a. clear Hcmp Hcase Hr.
  assert (Hzero : q * k = p * Zpos t -> q * (Zpos X - K' * P) = a * (eps * Zpos t)).
  { intros Hex. rewrite Hdiff. replace (p * Zpos t - q * k) with 0 by lia. ring. }
  assert (Hneg : q * (Zpos X - K' * P)
                 = a * (- (TB * (q * k - p * Zpos t)) + eps * Zpos t)).
  { rewrite Hdiff. ring. }
  repeat split.
  - intros Hlt. apply Z.compare_lt_iff.
    apply (round_above a TB (p * Zpos t - q * k) (eps * Zpos t) P R K' (Zpos X) q);
      try assumption; lia.
  - intros Hgt. apply Z.compare_gt_iff.
    apply (round_below a TB (q * k - p * Zpos t) (eps * Zpos t) P R K' (Zpos X) q);
      try assumption; lia.
  - intros Hgt. apply Z.compare_gt_iff in Hgt.
    assert (K' <= R); [|lia].
    apply (round_not_below a (eps * Zpos t) P R K' (Zpos X) q); auto; lia.
  - intros Hex. apply Z.compare_eq_iff.
    assert (K' <= R)
      by (apply (round_not_below a (eps * Zpos t) P R K' (Zpos X) q); auto; lia).
    assert (R <= K'); [|lia].
    apply (round_exact (Zpos t * a) eps (Zpos M) P R K' (Zpos X) q); lia.
Qed.
End ConstMul.

Lemma int_lt_float_0_8 t k :
  0 <= t <= 2 ^ 48 ->
  int_lt_float k (int_mul_float t float_0_8) = (5 * k <? 4 * t).
Proof.
  intros Ht. unfold int_lt_float. destruct t as [|t|t]; [| |lia].
  - cbn. destruct (Z.compare_spec k 0), (Z.ltb_spec (5 * k) 0); try reflexivity; lia.
  - destruct (int_compare_mul_const 7205759403792794 53 4 5 2) with (t := t) (k := k)
      as (c & Hc & Hlt & Hgt & Heq); try reflexivity; try lia.
    assert (Hc' : int_compare_float k (int_mul_float (Zpos t) float_0_8) = Some c)
      by exact Hc.
    rewrite Hc'.
    destruct (Z.lt_trichotomy (5 * k) (4 * Zpos t)) as [L|[E|G]].
    + rewrite (Hlt L). symmetry. apply Z.ltb_lt. assumption.
    + destruct (Heq E) as [_ Hex]. rewrite Hex by lia.
      symmetry. apply Z.ltb_ge. lia.
    + rewrite (Hgt G). symmetry. apply Z.ltb_ge. lia.
Qed.


End Binary64.

(** The products on a few inputs: 3 * 1.1 is 3.3000000000000003
    (0x1.a666666666667p+1), 10 * 1.1 is 11.0 and 10 * 0.8 is 8.0. *)
Example int_mul_float_values :
  int_mul_float 3 float_1_1 = S754_finite false 7430939385161319 (-51) /\
  int_mul_float 10 float_1_1 = float_of_int 11 /\
  int_mul_float 10 float_0_8 = float_of_int 8.
Proof. repeat split; vm_compute; reflexivity. Qed.

Example threshold_values :
  int_lt_float 7 (int_mul_float 10 float_0_8) = true /\
  int_lt_float 8 (int_mul_float 10 float_0_8) = false /\
  int_gt_float 11 (int_mul_float 10 float_1_1) = false /\
  int_gt_float 12 (int_mul_float 10 float_1_1) = true.
Proof. repeat split; vm_compute; reflexivity. Qed.

(** Beyond the range of the two lemmas the float product can decide
    otherwise than the exact fraction: [float(2^53 + 1)] is 2^53. *)
Example threshold_out_of_range :
  let target := (2 ^ 53 + 1)%Z in
  let k := 7205759403792794%Z in
  int_lt_float k (int_mul_float target float_0_8) = false /\
  (5 * k <? 4 * target)%Z = true.
Proof. split; vm_compute; reflexivity. Qed.

(** ** The admission rules *)

(** Every target is a count between 0 and 2^48: the range on which the
    binary64 products compare like the exact fractions. *)
Definition targets_in_range (self : NERBalancer) : Prop :=
  map_Forall (fun (_ : string) (target : Z) => (0 <= target <= 2 ^ 48)%Z)
             (target_frequencies self).

(** A target label of the sentence vetoes its removal. *)
Definition removal_veto (self : NERBalancer) (sc : tag_counts)
    (cur : gmap string Z) : Prop :=
  exists tag count target,
    (tag, count) ∈ sc /\ target_frequencies self !! tag = Some target /\
    ((count_of cur tag < target)%Z \/
     (5 * (count_of cur tag - count) < 4 * target)%Z).


Lemma should_remove_sentence_veto self idx sc cur :
  targets_in_range self ->
  should_remove_sentence self idx sc cur = false <-> removal_veto self sc cur.
Proof.
  intros Hrange. induction sc as [|[tag count] rest IH]; cbn [should_remove_sentence].
  - split; [discriminate|]. intros (t & c & g & Hin & _). inversion Hin.
  - destruct (target_frequencies self !! tag) as [target|] eqn:Etag.
    + rewrite int_lt_float_0_8 by exact (Hrange tag target Etag).
      destruct (Z.ltb_spec (count_of cur tag) target) as [L1|L1].
      * split; [intros _|reflexivity].
        exists tag, count, target. split; [left|]. auto.
      * destruct (Z.ltb_spec (5 * (count_of cur tag - count)) (4 * target)) as [L2|L2].
        -- split; [intros _|reflexivity].
           exists tag, count, target. split; [left|]. auto.
        -- rewrite IH. split.
           ++ intros (t & c & g & Hin & Ht & Hv). exists t, c, g.
              split; [right; exact Hin|auto].
           ++ intros (t & c & g & Hin & Ht & Hv).
              apply elem_of_cons in Hin as [Heq|Hin].
              ** inversion Heq; subst. rewrite Etag in Ht. inversion Ht; subst. lia.
              ** exists t, c, g. auto.
    + rewrite IH. split.
      * intros (t & c & g & Hin & Ht & Hv). exists t, c, g.
        split; [right; exact Hin|auto].
      * intros (t & c & g & Hin & Ht & Hv).
        apply elem_of_cons in Hin as [Heq|Hin].
        -- inversion Heq; subst. congruence.
        -- exists t, c, g. auto.
Qed.


(** C1. Removal admission rule. With targets in range, for the sentence at
    [idx]: if some label of its counts is a target label whose aggregate is
    strictly below its target, or whose aggregate minus the sentence's
    contribution is below 0.8 times its target, [should_remove_sentence]
    refuses and the removal step changes nothing; otherwise (no target label
    vetoes) it accepts, and the step takes [idx] out of the selection,
    subtracts its counts and marks the iteration improved; and a sentence
    none of whose labels is a target label is accepted. *)
Theorem removal_admission_rule self stc st idx :
  targets_in_range self ->
  let sc := counts_at stc idx in
  let cur := current_counts st in
  (removal_veto self sc cur ->
     should_remove_sentence self idx sc cur = false /\
     removal_step self stc st idx = st) /\
  (~ removal_veto self sc cur ->
     should_remove_sentence self idx sc cur = true /\
     removal_step self stc st idx =
       {| selected := selected st ∖ {[idx]};
          current_counts := sub_counts sc cur;
          improved := true |}) /\
  ((forall tag count, (tag, count) ∈ sc -> target_frequencies self !! tag = None) ->
     should_remove_sentence self idx sc cur = true).
Proof.
  intros Hrange sc cur.
  pose proof (should_remove_sentence_veto self idx sc cur Hrange) as Hv.
  assert (Hno : ~ removal_veto self sc cur ->
                should_remove_sentence self idx sc cur = true).
  { intros Hn. destruct (should_remove_sentence self idx sc cur) eqn:E; [reflexivity|].
    exfalso. apply Hn, Hv. reflexivity. }
  split; [|split].
  - intros Hveto. apply Hv in Hveto. split; [assumption|].
    unfold removal_step. fold sc cur. rewrite Hveto. reflexivity.
  - intros Hn. split; [auto|].
    unfold removal_step. fold sc cur. rewrite (Hno Hn). reflexivity.
  - intros Hnone. apply Hno. intros (t & c & g & Hin & Ht & _).
    rewrite (Hnone t c Hin) in Ht. discriminate.
Qed.


(** The addition steps only add, and only candidates of the list. *)
Lemma addition_steps_grow self stc l st :
  let st' := fold_left (addition_step self stc) l st in
  selected st ⊆ selected st' /\
  (forall i, i ∈ selected st' -> i ∈ selected st \/ i ∈ l).
Proof.
  revert st. induction l as [|j rest IH]; intros st; cbn [fold_left]; cbv zeta.
  - split; [reflexivity|]. intros i Hi. left. exact Hi.
  - destruct (IH (addition_step self stc st j)) as [H1 H2].
    assert (Hstep : selected st ⊆ selected (addition_step self stc st j) /\
                    forall i, i ∈ selected (addition_step self stc st j) ->
                              i ∈ selected st \/ i = j).
    { unfold addition_step.
      destruct (can_add self (counts_at stc j) (current_counts st));
        cbn [selected]; split.
      - apply union_subseteq_l.
      - intros i Hi. apply elem_of_union in Hi as [Hi|Hi]; [left; exact Hi|].
        right. apply elem_of_singleton in Hi. exact Hi.
      - reflexivity.
      - intros i Hi. left. exact Hi. }
    destruct Hstep as [S1 S2]. split.
    + etransitivity; [exact S1|exact H1].
    + intros i Hi. destruct (H2 i Hi) as [Hs|Hr].
      * destruct (S2 i Hs) as [Hs'| ->]; [left; exact Hs'|right; left].
      * right. right. exact Hr.
Qed.


(** A balancer, a corpus and a state on which the hypotheses of the two
    rules hold. *)
Definition rule_example_balancer : NERBalancer :=
  {| target_frequencies := {["A" := 10%Z]}; max_iterations := 50 |}.

Definition rule_example_state : pass_state :=
  {| selected := {[0]}; current_counts := {["A" := 13%Z]}; improved := false |}.

Lemma rule_example_in_range : targets_in_range rule_example_balancer.
Proof.
  unfold targets_in_range, rule_example_balancer. cbn [target_frequencies].
  apply map_Forall_singleton. lia.
Qed.

Lemma removal_admission_rule_witness :
  targets_in_range rule_example_balancer /\
  should_remove_sentence rule_example_balancer 0 [("A", 2%Z)]
    (current_counts rule_example_state) = true.
Proof.
  split; [exact rule_example_in_range|].
  destruct (removal_admission_rule rule_example_balancer [[("A", 2%Z)]]
              rule_example_state 0 rule_example_in_range) as (_ & Haccept & _).
  apply Haccept.
  intros (tag & count & target & Hin & Ht & Hv).
  apply list_elem_of_singleton in Hin. inversion Hin; subst.
  vm_compute in Ht. inversion Ht; subst. vm_compute in Hv.
  destruct Hv as [Hv|Hv]; discriminate Hv.
Defined.


(** ** Aggregate counts *)

(** What a sentence's counts contribute to a label. *)
Definition contribution (sc : tag_counts) (tag : string) : Z :=
  fold_right (fun (e : string * Z) acc =>
                if decide (fst e = tag) then (snd e + acc)%Z else acc) 0%Z sc.

(** The sum of a label's counts over the sentences with the given indices. *)
Definition selection_count (stc : list tag_counts) (indices : list nat)
    (tag : string) : Z :=
  fold_right (fun idx acc => (contribution (counts_at stc idx) tag + acc)%Z)
             0%Z indices.

(** The incrementally maintained counts agree with the selection. *)
Definition counts_match (stc : list tag_counts) (sel : gset nat)
    (cur : gmap string Z) : Prop :=
  forall tag, count_of cur tag = selection_count stc (elements sel) tag.

Lemma count_of_insert (m : gmap string Z) t v tag :
  count_of (<[t := v]> m) tag = if decide (t = tag) then v else count_of m tag.
Proof.
  unfold count_of. destruct (decide (t = tag)) as [->|Hne].
  - rewrite lookup_insert_eq. reflexivity.
  - rewrite lookup_insert_ne by assumption. reflexivity.
Qed.

Lemma contribution_cons t c rest tag :
  contribution ((t, c) :: rest) tag
  = if decide (t = tag) then (c + contribution rest tag)%Z else contribution rest tag.
Proof. reflexivity. Qed.

Lemma count_of_add_counts sc (m : gmap string Z) tag :
  count_of (add_counts sc m) tag = (count_of m tag + contribution sc tag)%Z.
Proof.
  unfold add_counts. revert m.
  induction sc as [|[t c] rest IH]; intros m.
  - cbn. lia.
  - cbn [fold_left fst snd]. rewrite IH, count_of_insert, contribution_cons.
    destruct (decide (t = tag)) as [->|Hne]; lia.
Qed.

Lemma count_of_sub_counts sc (m : gmap string Z) tag :
  count_of (sub_counts sc m) tag = (count_of m tag - contribution sc tag)%Z.
Proof.
  unfold sub_counts. revert m.
  induction sc as [|[t c] rest IH]; intros m.
  - cbn. lia.
  - cbn [fold_left fst snd]. rewrite IH, count_of_insert, contribution_cons.
    destruct (decide (t = tag)) as [->|Hne]; lia.
Qed.

Lemma count_of_fold_indices stc indices (m : gmap string Z) tag :
  count_of (fold_left (fun m idx => add_counts (counts_at stc idx) m) indices m) tag
  = (count_of m tag + selection_count stc indices tag)%Z.
Proof.
  revert m. induction indices as [|idx rest IH]; intros m.
  - cbn. lia.
  - cbn [fold_left]. rewrite IH, count_of_add_counts.
    change (selection_count stc (idx :: rest) tag)
      with (contribution (counts_at stc idx) tag + selection_count stc rest tag)%Z.
    lia.
Qed.

Lemma count_of_counts_of_indices stc indices tag :
  count_of (counts_of_indices indices stc) tag = selection_count stc indices tag.
Proof.
  unfold counts_of_indices. rewrite count_of_fold_indices.
  unfold count_of. rewrite lookup_empty. reflexivity.
Qed.

Lemma selection_count_perm stc l l' tag :
  l ≡ₚ l' -> selection_count stc l tag = selection_count stc l' tag.
Proof.
  induction 1 as [|x l l' _ IH|x y l|l l' l'' _ IH1 _ IH2];
    unfold selection_count in *; cbn [fold_right] in *; lia.
Qed.

Lemma selection_count_remove stc (sel : gset nat) idx tag :
  idx ∈ sel ->
  selection_count stc (elements (sel ∖ {[idx]})) tag
  = (selection_count stc (elements sel) tag
     - contribution (counts_at stc idx) tag)%Z.
Proof.
  intros Hin.
  assert (Hperm : elements sel ≡ₚ idx :: elements (sel ∖ {[idx]})).
  { rewrite (union_difference_singleton_L idx sel Hin) at 1.
    apply elements_union_singleton. set_solver. }
  rewrite (selection_count_perm stc _ _ tag Hperm).
  unfold selection_count. cbn [fold_right]. lia.
Qed.

Lemma selection_count_add stc (sel : gset nat) idx tag :
  idx ∉ sel ->
  selection_count stc (elements (sel ∪ {[idx]})) tag
  = (selection_count stc (elements sel) tag
     + contribution (counts_at stc idx) tag)%Z.
Proof.
  intros Hnin.
  assert (Hperm : elements (sel ∪ {[idx]}) ≡ₚ idx :: elements sel).
  { rewrite (union_comm_L sel). apply elements_union_singleton. assumption. }
  rewrite (selection_count_perm stc _ _ tag Hperm).
  unfold selection_count. cbn [fold_right]. lia.
Qed.

(** The passes keep the counts in step with the selection. *)

Lemma removal_step_spec self stc st idx :
  idx ∈ selected st ->
  counts_match stc (selected st) (current_counts st) ->
  let st' := removal_step self stc st idx in
  counts_match stc (selected st') (current_counts st') /\
  selected st' ⊆ selected st /\
  (forall i, i ∈ selected st -> i <> idx -> i ∈ selected st').
Proof.
  intros Hidx Hm. unfold removal_step.
  destruct (should_remove_sentence self idx (counts_at stc idx) (current_counts st));
    cbv zeta; cbn [selected current_counts].
  - split; [|split; [set_solver|set_solver]].
    intros tag.
    rewrite count_of_sub_counts, selection_count_remove, Hm by assumption.
    reflexivity.
  - split; [assumption|]. split; [set_solver|auto].
Qed.

Lemma addition_step_spec self stc st idx :
  idx ∉ selected st ->
  counts_match stc (selected st) (current_counts st) ->
  let st' := addition_step self stc st idx in
  counts_match stc (selected st') (current_counts st') /\
  selected st ⊆ selected st' /\
  (forall i, i ∈ selected st' -> i ∈ selected st \/ i = idx).
Proof.
  intros Hidx Hm. unfold addition_step.
  destruct (can_add self (counts_at stc idx) (current_counts st));
    cbv zeta; cbn [selected current_counts].
  - split; [|split; [set_solver|set_solver]].
    intros tag.
    rewrite count_of_add_counts, selection_count_add, Hm by assumption.
    reflexivity.
  - split; [assumption|]. split; [set_solver|auto].
Qed.

Lemma removal_steps_spec self stc l st :
  NoDup l -> (forall i, i ∈ l -> i ∈ selected st) ->
  counts_match stc (selected st) (current_counts st) ->
  let st' := fold_left (removal_step self stc) l st in
  counts_match stc (selected st') (current_counts st') /\
  selected st' ⊆ selected st /\
  (forall i, i ∈ selected st -> i ∉ l -> i ∈ selected st').
Proof.
  revert st. induction l as [|idx rest IH]; intros st Hnd Hin Hm;
    cbn [fold_left]; cbv zeta.
  - split; [assumption|]. split; [set_solver|auto].
  - apply NoDup_cons in Hnd as [Hfresh Hnd].
    destruct (removal_step_spec self stc st idx) as (S1 & S2 & S3);
      [apply Hin; left|assumption|].
    destruct (IH (removal_step self stc st idx)) as (H1 & H2 & H3);
      [assumption| |assumption|].
    + intros i Hi. apply S3; [apply Hin; right; exact Hi|].
      intros ->. contradiction.
    + split; [exact H1|]. split; [set_solver|].
      intros i Hi Hni. apply H3; [apply S3; set_solver|set_solver].
Qed.

Lemma addition_steps_spec self stc l st :
  NoDup l -> (forall i, i ∈ l -> i ∉ selected st) ->
  counts_match stc (selected st) (current_counts st) ->
  let st' := fold_left (addition_step self stc) l st in
  counts_match stc (selected st') (current_counts st') /\
  selected st ⊆ selected st' /\
  (forall i, i ∈ selected st' -> i ∈ selected st \/ i ∈ l).
Proof.
  revert st. induction l as [|idx rest IH]; intros st Hnd Hin Hm;
    cbn [fold_left]; cbv zeta.
  - split; [assumption|]. split; [set_solver|auto].
  - apply NoDup_cons in Hnd as [Hfresh Hnd].
    destruct (addition_step_spec self stc st idx) as (S1 & S2 & S3);
      [apply Hin; left|assumption|].
    destruct (IH (addition_step self stc st idx)) as (H1 & H2 & H3);
      [assumption| |assumption|].
    + intros i Hi Hsel. destruct (S3 i Hsel) as [Hs| ->]; [|contradiction].
      revert Hs. apply Hin. right. exact Hi.
    + split; [exact H1|]. split; [set_solver|].
      intros i Hi. destruct (H3 i Hi) as [Hs|Hr]; [|right; right; exact Hr].
      destruct (S3 i Hs) as [Hs'| ->]; [left; assumption|right; left].
Qed.

(** ** The balancing loop *)

(** What holds of the loop state at every iteration boundary. *)
Definition in_step (stc : list tag_counts) (n : nat) (st : balance_state) : Prop :=
  counts_match stc (bs_selected st) (bs_current_counts st) /\
  bs_selected st ⊆ all_indices n.

Lemma list_of_set_NoDup order site s : NoDup (list_of_set order site s).
Proof. rewrite (list_of_set_perm order site s). apply NoDup_elements. Qed.

Lemma list_of_set_elem order site s i : i ∈ list_of_set order site s <-> i ∈ s.
Proof. rewrite (list_of_set_perm order site s). apply elem_of_elements. Qed.

Lemma removal_pass_spec self order stc it st :
  counts_match stc (selected st) (current_counts st) ->
  let st' := removal_pass self order stc it st in
  counts_match stc (selected st') (current_counts st') /\
  selected st' ⊆ selected st.
Proof.
  intros Hm. unfold removal_pass. cbv zeta.
  destruct (removal_steps_spec self stc
              (list_of_set order (RemovalPass it) (selected st)) st)
    as (H1 & H2 & _); auto using list_of_set_NoDup.
  intros i Hi. apply list_of_set_elem in Hi. exact Hi.
Qed.

Lemma addition_pass_spec self order stc n it st :
  counts_match stc (selected st) (current_counts st) ->
  selected st ⊆ all_indices n ->
  let st' := addition_pass self order stc n it st in
  counts_match stc (selected st') (current_counts st') /\
  selected st ⊆ selected st' /\
  selected st' ⊆ all_indices n.
Proof.
  intros Hm Hsub. unfold addition_pass. cbv zeta.
  destruct (addition_steps_spec self stc
              (list_of_set order (AdditionPass it) (all_indices n ∖ selected st)) st)
    as (H1 & H2 & H3); auto using list_of_set_NoDup.
  - intros i Hi. apply list_of_set_elem in Hi. set_solver.
  - split; [exact H1|]. split; [exact H2|].
    intros i Hi. destruct (H3 i Hi) as [Hs|Hl]; [set_solver|].
    apply list_of_set_elem in Hl. set_solver.
Qed.

Lemma iteration_body_in_step self order stc n it st :
  in_step stc n st -> in_step stc n (fst (iteration_body self order stc n it st)).
Proof.
  intros [Hm Hsub]. unfold iteration_body, in_step. cbn [fst bs_selected bs_current_counts].
  destruct (removal_pass_spec self order stc it (enter_passes st) Hm) as (R1 & R2).
  destruct (addition_pass_spec self order stc n it
              (removal_pass self order stc it (enter_passes st)) R1)
    as (A1 & A2 & A3).
  - etransitivity; [exact R2|exact Hsub].
  - split; assumption.
Qed.

Lemma initial_state_in_step stc n : in_step stc n (initial_state stc n).
Proof.
  split; [|reflexivity]. intros tag. cbn [initial_state bs_current_counts bs_selected].
  apply count_of_counts_of_indices.
Qed.

Lemma balance_trace_in_step self order stc n fuel it st :
  in_step stc n st ->
  Forall (in_step stc n) (balance_trace self order stc n fuel it st).
Proof.
  revert it st. induction fuel as [|fuel IH]; intros it st Hst; cbn [balance_trace].
  - constructor.
  - pose proof (iteration_body_in_step self order stc n it st Hst) as Hnext.
    destruct (iteration_body self order stc n it st) as [st' imp]. cbn [fst] in Hnext.
    constructor; [exact Hnext|]. destruct imp; [apply IH; exact Hnext|constructor].
Qed.

Lemma last_cons_default {A} (x d : A) l : List.last (x :: l) d = List.last l x.
Proof.
  revert x d. induction l as [|y l IH]; intros x d; [reflexivity|].
  change (List.last (x :: y :: l) d) with (List.last (y :: l) d).
  rewrite !IH. reflexivity.
Qed.

Lemma last_elem_of {A} (x : A) l : List.last l x ∈ x :: l.
Proof.
  revert x. induction l as [|y l IH]; intros x; [left|].
  rewrite last_cons_default. right. apply IH.
Qed.

Lemma balance_loop_last self order stc n fuel it st :
  balance_loop self order stc n fuel it st
  = List.last (balance_trace self order stc n fuel it st) st.
Proof.
  revert it st. induction fuel as [|fuel IH]; intros it st;
    cbn [balance_loop balance_trace]; [reflexivity|].
  destruct (iteration_body self order stc n it st) as [st' imp].
  destruct imp.
  - rewrite IH, last_cons_default. reflexivity.
  - reflexivity.
Qed.

Lemma balance_trace_length self order stc n fuel it st :
  length (balance_trace self order stc n fuel it st) <= fuel.
Proof.
  revert it st. induction fuel as [|fuel IH]; intros it st; cbn [balance_trace];
    [reflexivity|].
  destruct (iteration_body self order stc n it st) as [st' imp].
  destruct imp; cbn [length]; [specialize (IH (S it) st'); lia|lia].
Qed.

(** Every index the program reads [sentence_tag_counts] or [sentences] at is
    in range. *)
Lemma balance_loop_in_range self order sentences idx :
  idx ∈ best_selected (final_state self order sentences) \/
  idx ∈ bs_selected (final_state self order sentences) ->
  idx < length sentences.
Proof.
  unfold final_state.
  set (stc := sentence_tag_counts sentences). set (n := length sentences).
  assert (Hgen : forall fuel it st,
             in_step stc n st -> best_selected st ⊆ all_indices n ->
             let st' := balance_loop self order stc n fuel it st in
             in_step stc n st' /\ best_selected st' ⊆ all_indices n).
  { induction fuel as [|fuel IH]; intros it st Hst Hbest; cbn [balance_loop];
      [split; assumption|].
    pose proof (iteration_body_in_step self order stc n it st Hst) as Hnext.
    assert (Hb : best_selected (fst (iteration_body self order stc n it st))
                 ⊆ all_indices n).
    { unfold iteration_body in *. cbn [fst best_selected bs_selected] in *.
      destruct (score_gt _ _); [apply Hnext|exact Hbest]. }
    destruct (iteration_body self order stc n it st) as [st' imp].
    cbn [fst] in Hnext, Hb. destruct imp; [apply IH; assumption|split; assumption]. }
  destruct (Hgen (max_iterations self) 0 (initial_state stc n)) as ([_ Hsel] & Hbest).
  - apply initial_state_in_step.
  - cbn. set_solver.
  - intros [Hi|Hi]; [apply Hbest in Hi|apply Hsel in Hi];
      unfold all_indices in Hi; apply elem_of_list_to_set, elem_of_seq in Hi; lia.
Qed.

(** C3. Count invariant. At every iteration boundary of [balance_dataset]
    (before the first iteration and at the end of each executed one), for
    every label, the incrementally maintained count equals the sum of that
    label's counts over the sentences currently selected, which is also what
    [get_current_counts] computes from scratch over the current selection. *)
Theorem count_invariant self order sentences :
  let stc := sentence_tag_counts sentences in
  Forall (fun st =>
            forall tag,
              count_of (bs_current_counts st) tag
              = selection_count stc (elements (bs_selected st)) tag /\
              count_of (bs_current_counts st) tag
              = count_of (get_current_counts (bs_selected st) stc) tag)
         (initial_state stc (length sentences)
          :: iteration_states self order sentences).
Proof.
  intros stc.
  assert (H : Forall (in_step stc (length sentences))
                (initial_state stc (length sentences)
                 :: iteration_states self order sentences)).
  { constructor; [apply initial_state_in_step|].
    apply balance_trace_in_step, initial_state_in_step. }
  eapply Forall_impl; [exact H|].
  intros st [Hm _] tag. split; [apply Hm|].
  unfold get_current_counts. rewrite count_of_counts_of_indices. apply Hm.
Qed.

(** *** Best score *)

Lemma score_le_refl a : score_le a a.
Proof. destruct a; cbn; [exact I|lia]. Qed.

Lemma iteration_body_best_le self order stc n it st :
  score_le (best_score st) (best_score (fst (iteration_body self order stc n it st))).
Proof.
  unfold iteration_body. cbn [fst best_score].
  destruct (score_gt _ (best_score st)) eqn:E; [|apply score_le_refl].
  destruct (best_score st) as [|b]; cbn in *; [exact I|].
  apply Z.ltb_lt in E. lia.
Qed.

Lemma balance_trace_sorted self order stc n fuel it st :
  Sorted score_le
         (map best_score (st :: balance_trace self order stc n fuel it st)).
Proof.
  revert it st. induction fuel as [|fuel IH]; intros it st; cbn [balance_trace].
  - repeat constructor.
  - pose proof (iteration_body_best_le self order stc n it st) as Hle.
    destruct (iteration_body self order stc n it st) as [st' imp]. cbn [fst] in Hle.
    destruct imp.
    + specialize (IH (S it) st'). cbn [map] in *.
      constructor; [exact IH|]. constructor. exact Hle.
    + cbn [map]. repeat constructor. exact Hle.
Qed.

(** [st] holds a recording made at the end of one of the iterations [tr]. *)
Definition recorded_in (self : NERBalancer) (tr : list balance_state)
    (st : balance_state) : Prop :=
  exists s, s ∈ tr /\ best_selected st = bs_selected s /\
            best_score st = Score (calculate_frequency_score self (bs_current_counts s)).

Lemma iteration_body_recorded self order stc n it st :
  let st' := fst (iteration_body self order stc n it st) in
  (best_selected st' = bs_selected st' /\
   best_score st' = Score (calculate_frequency_score self (bs_current_counts st'))) \/
  (best_selected st' = best_selected st /\ best_score st' = best_score st /\
   best_score st <> NegInf).
Proof.
  unfold iteration_body. cbn [fst best_selected best_score bs_selected bs_current_counts].
  destruct (score_gt _ (best_score st)) eqn:E; [left; split; reflexivity|right].
  split; [reflexivity|]. split; [reflexivity|].
  intros Hneg. rewrite Hneg in E. discriminate.
Qed.

Lemma balance_trace_recorded self order stc n fuel it st :
  let tr := balance_trace self order stc n fuel it st in
  Forall (fun s =>
            recorded_in self tr s \/
            (best_selected s = best_selected st /\ best_score s = best_score st /\
             best_score st <> NegInf)) tr.
Proof.
  revert it st. induction fuel as [|fuel IH]; intros it st; cbn [balance_trace];
    cbv zeta; [constructor|].
  pose proof (iteration_body_recorded self order stc n it st) as Hfirst.
  destruct (iteration_body self order stc n it st) as [st' imp].
  cbn [fst] in Hfirst. cbv zeta in Hfirst.
  assert (Hst' : forall rest,
             recorded_in self (st' :: rest) st' \/
             (best_selected st' = best_selected st /\ best_score st' = best_score st /\
              best_score st <> NegInf)).
  { intros rest. destruct Hfirst as [[H1 H2]|H]; [left|right; exact H].
    exists st'. split; [left|]. split; assumption. }
  destruct imp; [|constructor; [apply Hst'|constructor]].
  constructor; [apply Hst'|].
  specialize (IH (S it) st'). cbv zeta in IH.
  eapply Forall_impl; [exact IH|]. cbv beta.
  intros s [(s0 & Hin & H1 & H2)|(H1 & H2 & H3)].
  - left. exists s0. split; [right; exact Hin|]. split; assumption.
  - destruct (Hst' (balance_trace self order stc n fuel (S it) st'))
      as [(s0 & Hin & H4 & H5)|(H4 & H5 & H6)].
    + left. exists s0. split; [exact Hin|]. split; congruence.
    + right. split; [congruence|]. split; [congruence|assumption].
Qed.

(** The score only reads the counts through [count_of]. *)
Lemma calculate_frequency_score_ext self (c1 c2 : gmap string Z) :
  (forall tag, count_of c1 tag = count_of c2 tag) ->
  calculate_frequency_score self c1 = calculate_frequency_score self c2.
Proof.
  intros Hext. unfold calculate_frequency_score.
  generalize 0%Z. induction (map_to_list (target_frequencies self)) as [|e l IH];
    intros acc; cbn [fold_left]; [reflexivity|].
  rewrite Hext. apply IH.
Qed.

(** The state in which the loop is left: the last iteration boundary, with
    either nothing recorded (no iteration executed) or the selection and the
    score of one of the executed iterations. *)
Lemma final_state_summary self order sentences :
  let stc := sentence_tag_counts sentences in
  let states := iteration_states self order sentences in
  let final := final_state self order sentences in
  final = List.last states (initial_state stc (length sentences)) /\
  balance_dataset self order sentences
  = sentences_at sentences (sorted (best_selected final)) /\
  ((max_iterations self = 0 /\ best_selected final = ∅ /\ best_score final = NegInf) \/
   (exists st,
      st ∈ states /\ best_selected final = bs_selected st /\
      best_score final
      = Score (calculate_frequency_score self (bs_current_counts st)) /\
      best_score final
      = Score (calculate_frequency_score self
                 (get_current_counts (best_selected final) stc)))).
Proof.
  intros stc states final.
  set (n := length sentences).
  assert (Hlast : final = List.last states (initial_state stc n))
    by apply balance_loop_last.
  split; [exact Hlast|]. split; [reflexivity|].
  assert (Hrec : Forall (fun s =>
                    recorded_in self states s \/
                    (best_selected s = best_selected (initial_state stc n) /\
                     best_score s = best_score (initial_state stc n) /\
                     best_score (initial_state stc n) <> NegInf)) states)
    by apply balance_trace_recorded.
  assert (Hstep : Forall (in_step stc n) states)
    by apply balance_trace_in_step, initial_state_in_step.
  assert (Hzero : max_iterations self = 0 -> final = initial_state stc n).
  { intros E. unfold final, final_state. rewrite E. reflexivity. }
  assert (Hne : max_iterations self <> 0 -> states <> []).
  { intros E. unfold states, iteration_states.
    destruct (max_iterations self) as [|m]; [congruence|]. cbn [balance_trace].
    destruct (iteration_body _ _ _ _ _ _). discriminate. }
  clearbody states final.
  destruct (decide (max_iterations self = 0)) as [E|E].
  - left. split; [exact E|]. rewrite (Hzero E). split; reflexivity.
  - right.
    assert (Hin : final ∈ states).
    { rewrite Hlast. destruct states as [|s0 rest]; [contradiction (Hne E); reflexivity|].
      rewrite last_cons_default. apply last_elem_of. }
    rewrite Forall_forall in Hrec. destruct (Hrec final Hin)
      as [(s & Hs & H1 & H2)|(_ & _ & Habs)]; [|contradiction Habs; reflexivity].
    exists s. split; [exact Hs|]. split; [exact H1|]. split; [exact H2|].
    rewrite H2, H1. f_equal. apply calculate_frequency_score_ext. intros tag.
    rewrite Forall_forall in Hstep. destruct (Hstep s Hs) as [Hm _].
    unfold get_current_counts. rewrite count_of_counts_of_indices. apply Hm.
Qed.

(** *** The score of the returned sentences *)

Lemma counts_at_sentence sentences idx :
  counts_at (sentence_tag_counts sentences) idx
  = get_sentence_tag_counts (nth idx sentences []).
Proof.
  unfold counts_at, sentence_tag_counts.
  change (@nil (string * Z)) with (get_sentence_tag_counts []).
  apply map_nth.
Qed.

Lemma selection_count_shift c cs l tag :
  selection_count (c :: cs) (map S l) tag = selection_count cs l tag.
Proof.
  induction l as [|i l IH]; [reflexivity|].
  cbn [map]. unfold selection_count in *. cbn [fold_right]. rewrite IH.
  reflexivity.
Qed.

Lemma selection_count_whole cs tag :
  selection_count cs (seq 0 (length cs)) tag
  = fold_right (fun sc acc => (contribution sc tag + acc)%Z) 0%Z cs.
Proof.
  induction cs as [|c cs IH]; [reflexivity|].
  cbn [length seq fold_right]. rewrite <- seq_shift.
  change (selection_count (c :: cs) (0 :: map S (seq 0 (length cs))) tag)
    with (contribution c tag
          + selection_count (c :: cs) (map S (seq 0 (length cs))) tag)%Z.
  rewrite selection_count_shift, IH. reflexivity.
Qed.

(** The counts of the listed sentences taken as a corpus of their own, all
    of it selected, are the counts of the listed indices in the corpus. *)
Lemma counts_of_sentences_at sentences l tag :
  count_of (get_current_counts (all_indices (length (sentences_at sentences l)))
                               (sentence_tag_counts (sentences_at sentences l))) tag
  = selection_count (sentence_tag_counts sentences) l tag.
Proof.
  unfold get_current_counts. rewrite count_of_counts_of_indices.
  assert (Hperm : elements (all_indices (length (sentences_at sentences l)))
                  ≡ₚ seq 0 (length (sentence_tag_counts (sentences_at sentences l)))).
  { unfold all_indices, sentence_tag_counts. rewrite length_map.
    apply elements_list_to_set, NoDup_seq. }
  rewrite (selection_count_perm _ _ _ tag Hperm), selection_count_whole.
  clear Hperm. unfold sentences_at, sentence_tag_counts at 1. rewrite map_map.
  induction l as [|i l IH]; [reflexivity|].
  cbn [map fold_right]. rewrite IH, <- counts_at_sentence. reflexivity.
Qed.

(** C4, as amended. Along the iterations of one run of [balance_dataset] the
    best score never decreases (it starts at minus infinity); and when
    [max_iterations] is not 0, the best selection held when the loop is left
    is the selection at the end of one of the executed iterations, the best
    score is the score computed there, the sentences returned are the
    sentences of that selection in ascending index order, and the score
    formula applied to the counts of the returned sentences, recomputed from
    scratch, gives the best score again. *)
Theorem best_score_monotone self order sentences :
  let stc := sentence_tag_counts sentences in
  let states := iteration_states self order sentences in
  let final := final_state self order sentences in
  let result := balance_dataset self order sentences in
  Sorted score_le
         (map best_score (initial_state stc (length sentences) :: states)) /\
  final = List.last states (initial_state stc (length sentences)) /\
  (max_iterations self <> 0 ->
   exists st,
     st ∈ states /\
     best_selected final = bs_selected st /\
     best_score final
     = Score (calculate_frequency_score self (bs_current_counts st)) /\
     result = sentences_at sentences (sorted (bs_selected st)) /\
     best_score final
     = Score (calculate_frequency_score self
                (get_current_counts (all_indices (length result))
                                    (sentence_tag_counts result)))).
Proof.
  intros stc states final result.
  split; [apply balance_trace_sorted|].
  destruct (final_state_summary self order sentences) as (Hlast & Hres & Hrec).
  split; [exact Hlast|]. intros Hpos.
  destruct Hrec as [(Hzero & _)|(st & Hst & Hsel & Hscore & Hagain)];
    [contradiction|].
  exists st. split; [exact Hst|]. split; [exact Hsel|]. split; [exact Hscore|].
  fold final in Hsel, Hres, Hagain. fold result in Hres.
  split; [rewrite Hres, Hsel; reflexivity|].
  rewrite Hagain. f_equal. apply calculate_frequency_score_ext. intros tag.
  rewrite Hres, counts_of_sentences_at.
  unfold get_current_counts. rewrite count_of_counts_of_indices.
  apply selection_count_perm. unfold sorted.
  symmetry. apply merge_sort_Permutation.
Qed.

(** A corpus of one sentence with 13 tokens tagged A, target 10, up to 50
    iterations. *)
Lemma best_score_monotone_witness :
  best_score (final_state {| target_frequencies := {["A" := 10%Z]};
                             max_iterations := 50 |}
                          ascending_order [repeat ("a", "A")%string 13])
  = Score (calculate_frequency_score
             {| target_frequencies := {["A" := 10%Z]}; max_iterations := 50 |}
             (get_current_counts
                (all_indices
                   (length (balance_dataset
                              {| target_frequencies := {["A" := 10%Z]};
                                 max_iterations := 50 |}
                              ascending_order [repeat ("a", "A")%string 13])))
                (sentence_tag_counts
                   (balance_dataset
                      {| target_frequencies := {["A" := 10%Z]};
                         max_iterations := 50 |}
                      ascending_order [repeat ("a", "A")%string 13])))).
Proof.
  destruct (best_score_monotone
              {| target_frequencies := {["A" := 10%Z]}; max_iterations := 50 |}
              ascending_order [repeat ("a", "A")%string 13])
    as (_ & _ & Hrec).
  destruct (Hrec ltac:(discriminate)) as (st & _ & _ & _ & _ & Hscore).
  exact Hscore.
Defined.

(** C4 as stated fails for [max_iterations = 0]: no iteration records a
    selection, so the returned selection is the empty one, whose score under
    the formula is -1, while the best score is still minus infinity. *)
Lemma best_score_monotone_counterexample :
  let self := {| target_frequencies := {["B-PER" := 1%Z]};
                 max_iterations := 0 |} in
  let corpus := [[("Tom", "B-PER")]%string] in
  let final := final_state self ascending_order corpus in
  let result := balance_dataset self ascending_order corpus in
  result = [] /\
  best_selected final = ∅ /\
  best_score final = NegInf /\
  calculate_frequency_score self
    (get_current_counts (best_selected final) (sentence_tag_counts corpus))
  = (-1)%Z /\
  calculate_frequency_score self
    (get_current_counts (all_indices (length result)) (sentence_tag_counts result))
  = (-1)%Z /\
  best_score final <> Score (-1).
Proof.
  cbv zeta. split; [reflexivity|]. split; [reflexivity|].
  split; [reflexivity|]. split; [vm_compute; reflexivity|].
  split; [vm_compute; reflexivity|]. discriminate.
Qed.

(** C5. Termination and the case [max_iterations = 0]. [balance_dataset] is
    a total function; the number of iterations it executes is at most
    [max_iterations]; and with [max_iterations = 0] no iteration is executed
    and the result is the empty selection (the best selection is never
    recorded, so this is the policy the program implements). *)
Theorem balance_terminates self order sentences :
  length (iteration_states self order sentences) <= max_iterations self /\
  (exists result, balance_dataset self order sentences = result) /\
  iteration_states {| target_frequencies := target_frequencies self;
                      max_iterations := 0 |} order sentences = [] /\
  balance_dataset {| target_frequencies := target_frequencies self;
                     max_iterations := 0 |} order sentences = [].
Proof.
  split; [apply balance_trace_length|]. split; [eexists; reflexivity|].
  split; reflexivity.
Qed.

(** *** The end-to-end example *)

Lemma removal_steps_refused self stc l st :
  (forall i, i ∈ l ->
     should_remove_sentence self i (counts_at stc i) (current_counts st) = false) ->
  fold_left (removal_step self stc) l st = st.
Proof.
  induction l as [|i rest IH]; intros Href; cbn [fold_left]; [reflexivity|].
  unfold removal_step at 2. rewrite (Href i) by left.
  apply IH. intros j Hj. apply Href. right. exact Hj.
Qed.

Definition example_targets : gmap string Z :=
  <["B-PER" := 1%Z]> (<["B-LOC" := 1%Z]> (<["I-LOC" := 1%Z]> ∅)).

(** C8. End-to-end example. For the corpus of two sentences with labels
    [B-PER, O, O] and [B-LOC, I-LOC, O] (any tokens) and the targets
    B-PER: 1, B-LOC: 1, I-LOC: 1, with at least one iteration allowed (the
    default is 50) and whatever order sets are enumerated in,
    [balance_dataset] returns both sentences in their original order, the
    best score is 0, and the score of the returned selection, recomputed from
    scratch, is 0. *)
Theorem end_to_end_example order (m : nat) (w1 w2 w3 w4 w5 w6 : string) :
  let s1 : sentence := [(w1, "B-PER"); (w2, "O"); (w3, "O")] in
  let s2 : sentence := [(w4, "B-LOC"); (w5, "I-LOC"); (w6, "O")] in
  let self := {| target_frequencies := example_targets; max_iterations := S m |} in
  balance_dataset self order [s1; s2] = [s1; s2] /\
  best_score (final_state self order [s1; s2]) = Score 0 /\
  calculate_frequency_score self
    (get_current_counts (best_selected (final_state self order [s1; s2]))
                        (sentence_tag_counts [s1; s2])) = 0%Z.
Proof.
  intros s1 s2 self.
  set (stc := sentence_tag_counts [s1; s2]).
  set (st0 := initial_state stc 2).
  assert (Hrem : removal_pass self order stc 0 (enter_passes st0) = enter_passes st0).
  { unfold removal_pass. apply removal_steps_refused. intros i Hi.
    apply list_of_set_elem in Hi. cbn [enter_passes selected st0 initial_state bs_selected] in Hi.
    unfold all_indices in Hi. apply elem_of_list_to_set in Hi.
    cbn [seq] in Hi. apply elem_of_cons in Hi as [->|Hi];
      [vm_compute; reflexivity|].
    apply list_elem_of_singleton in Hi as ->. vm_compute. reflexivity. }
  assert (Hadd : addition_pass self order stc 2 0 (enter_passes st0) = enter_passes st0).
  { unfold addition_pass.
    replace (all_indices 2 ∖ selected (enter_passes st0)) with (∅ : gset nat)
      by (cbn [enter_passes selected st0 initial_state bs_selected]; set_solver).
    pose proof (list_of_set_perm order (AdditionPass 0) ∅) as Hp.
    rewrite elements_empty in Hp. apply Permutation_nil_r in Hp. rewrite Hp.
    reflexivity. }
  assert (Hbody : iteration_body self order stc 2 0 st0
                  = ({| bs_selected := all_indices 2;
                        bs_current_counts := get_current_counts (all_indices 2) stc;
                        best_selected := all_indices 2;
                        best_score := Score 0 |}, false)).
  { unfold iteration_body. rewrite Hrem, Hadd.
    cbn [enter_passes selected current_counts improved st0 initial_state
         bs_selected bs_current_counts best_score best_selected score_gt].
    replace (calculate_frequency_score self (get_current_counts (all_indices 2) stc))
      with 0%Z by (vm_compute; reflexivity).
    reflexivity. }
  assert (Hfinal : final_state self order [s1; s2]
                   = {| bs_selected := all_indices 2;
                        bs_current_counts := get_current_counts (all_indices 2) stc;
                        best_selected := all_indices 2;
                        best_score := Score 0 |}).
  { unfold final_state. cbn [max_iterations self length balance_loop].
    fold stc. fold st0. rewrite Hbody. reflexivity. }
  unfold balance_dataset. rewrite Hfinal. cbn [best_selected best_score].
  split; [vm_compute; reflexivity|]. split; [reflexivity|].
  fold stc. vm_compute. reflexivity.
Qed.

(** *** Sentences without target labels *)

(** No label of the counts is a target label. *)
Definition no_target_label (self : NERBalancer) (sc : tag_counts) : Prop :=
  forall tag count, (tag, count) ∈ sc -> target_frequencies self !! tag = None.

Lemma should_remove_no_target self idx sc cur :
  no_target_label self sc -> should_remove_sentence self idx sc cur = true.
Proof.
  induction sc as [|[tag count] rest IH]; intros Hno; cbn [should_remove_sentence];
    [reflexivity|].
  rewrite (Hno tag count) by left. apply IH.
  intros t c Hin. apply (Hno t c). right. exact Hin.
Qed.

Lemma can_add_no_target self sc cur :
  no_target_label self sc -> can_add self sc cur = true.
Proof.
  induction sc as [|[tag count] rest IH]; intros Hno; cbn [can_add]; [reflexivity|].
  rewrite (Hno tag count) by left. apply IH.
  intros t c Hin. apply (Hno t c). right. exact Hin.
Qed.

Lemma removal_steps_mono self stc l st :
  let st' := fold_left (removal_step self stc) l st in
  selected st' ⊆ selected st /\ (improved st = true -> improved st' = true).
Proof.
  revert st. induction l as [|i rest IH]; intros st; cbn [fold_left]; cbv zeta;
    [split; [reflexivity|auto]|].
  destruct (IH (removal_step self stc st i)) as [H1 H2].
  unfold removal_step in H1, H2 |- *.
  destruct (should_remove_sentence self i (counts_at stc i) (current_counts st));
    cbn [selected improved] in *; split; auto; set_solver.
Qed.

Lemma addition_steps_mono self stc l st :
  let st' := fold_left (addition_step self stc) l st in
  selected st ⊆ selected st' /\ (improved st = true -> improved st' = true).
Proof.
  revert st. induction l as [|i rest IH]; intros st; cbn [fold_left]; cbv zeta;
    [split; [reflexivity|auto]|].
  destruct (IH (addition_step self stc st i)) as [H1 H2].
  unfold addition_step in H1, H2 |- *.
  destruct (can_add self (counts_at stc i) (current_counts st));
    cbn [selected improved] in *; split; auto; set_solver.
Qed.

Lemma removal_steps_churn self stc l st idx :
  no_target_label self (counts_at stc idx) -> idx ∈ l ->
  let st' := fold_left (removal_step self stc) l st in
  (idx ∉ selected st') /\ improved st' = true.
Proof.
  intros Hno. revert st. induction l as [|i rest IH]; intros st Hin; cbv zeta.
  - inversion Hin.
  - cbn [fold_left]. apply elem_of_cons in Hin as [<-|Hin]; [|apply IH; exact Hin].
    destruct (removal_steps_mono self stc rest (removal_step self stc st idx))
      as [H1 H2].
    unfold removal_step in H1, H2 |- *.
    rewrite (should_remove_no_target self idx _ _ Hno) in *.
    cbn [selected improved] in *. split; [set_solver|auto].
Qed.

Lemma addition_steps_churn self stc l st idx :
  no_target_label self (counts_at stc idx) -> idx ∈ l ->
  let st' := fold_left (addition_step self stc) l st in
  idx ∈ selected st' /\ improved st' = true.
Proof.
  intros Hno. revert st. induction l as [|i rest IH]; intros st Hin; cbv zeta.
  - inversion Hin.
  - cbn [fold_left]. apply elem_of_cons in Hin as [<-|Hin]; [|apply IH; exact Hin].
    destruct (addition_steps_mono self stc rest (addition_step self stc st idx))
      as [H1 H2].
    unfold addition_step in H1, H2 |- *.
    rewrite (can_add_no_target self _ _ Hno) in *.
    cbn [selected improved] in *. split; [set_solver|auto].
Qed.

(** One iteration on a selection that holds such a sentence. *)
Lemma iteration_churn self order stc n it st idx :
  no_target_label self (counts_at stc idx) -> idx < n -> idx ∈ bs_selected st ->
  let removed := removal_pass self order stc it (enter_passes st) in
  let added := addition_pass self order stc n it removed in
  (idx ∉ selected removed) /\ idx ∈ selected added /\ improved added = true /\
  idx ∈ bs_selected (fst (iteration_body self order stc n it st)) /\
  snd (iteration_body self order stc n it st) = true.
Proof.
  intros Hno Hlt Hin removed added.
  assert (Hrem : (idx ∉ selected removed) /\ improved removed = true).
  { apply removal_steps_churn; [exact Hno|].
    apply list_of_set_elem. exact Hin. }
  assert (Hadd : idx ∈ selected added /\ improved added = true).
  { apply addition_steps_churn; [exact Hno|].
    apply list_of_set_elem. apply elem_of_difference. split; [|apply Hrem].
    unfold all_indices. apply elem_of_list_to_set, elem_of_seq. lia. }
  destruct Hrem as [Hr _]. destruct Hadd as [Ha Hi].
  repeat split; assumption.
Qed.

Lemma balance_trace_churn self order stc n idx fuel it st :
  no_target_label self (counts_at stc idx) -> idx < n -> idx ∈ bs_selected st ->
  let tr := balance_trace self order stc n fuel it st in
  length tr = fuel /\
  Forall (fun s => idx ∈ bs_selected s) tr /\
  (forall k s, (st :: tr) !! k = Some s -> k < fuel ->
     let removed := removal_pass self order stc (it + k) (enter_passes s) in
     let added := addition_pass self order stc n (it + k) removed in
     idx ∈ bs_selected s /\ (idx ∉ selected removed) /\ idx ∈ selected added /\
     improved added = true).
Proof.
  intros Hno Hlt. revert it st.
  induction fuel as [|fuel IH]; intros it st Hin; cbn [balance_trace]; cbv zeta.
  - split; [reflexivity|]. split; [constructor|]. intros k s _ Hk. lia.
  - destruct (iteration_churn self order stc n it st idx Hno Hlt Hin)
      as (C1 & C2 & C3 & C4 & C5).
    destruct (iteration_body self order stc n it st) as [st' imp].
    cbn [fst snd] in C4, C5. subst imp.
    destruct (IH (S it) st' C4) as (L & F & K).
    split; [cbn [length]; f_equal; exact L|].
    split; [constructor; assumption|].
    intros k s Hk Hkl. destruct k as [|k].
    + cbn in Hk. inversion Hk; subst s. rewrite Nat.add_0_r.
      repeat split; assumption.
    + cbn [lookup list_lookup] in Hk.
      replace (it + S k) with (S it + k) by lia.
      apply K; [exact Hk|lia].
Qed.

(** C10, as amended. For a corpus with a sentence (index [idx]) none of whose
    counted labels is a target label: every one of the [max_iterations]
    iterations is executed (the early exit is never taken); each of them
    starts with the sentence selected, removes it in the removal pass, adds
    it back in the addition pass and is marked improved; and when
    [max_iterations] is at least 1 the sentence is in the best selection and
    among the sentences returned. *)
Theorem no_target_churn self order sentences idx :
  idx < length sentences ->
  no_target_label self (counts_at (sentence_tag_counts sentences) idx) ->
  let stc := sentence_tag_counts sentences in
  let n := length sentences in
  let states := iteration_states self order sentences in
  length states = max_iterations self /\
  (forall k st,
     (initial_state stc n :: states) !! k = Some st -> k < max_iterations self ->
     let removed := removal_pass self order stc k (enter_passes st) in
     let added := addition_pass self order stc n k removed in
     idx ∈ bs_selected st /\ (idx ∉ selected removed) /\ idx ∈ selected added /\
     improved added = true) /\
  (0 < max_iterations self ->
     idx ∈ best_selected (final_state self order sentences) /\
     nth idx sentences [] ∈ balance_dataset self order sentences).
Proof.
  intros Hlt Hno stc n states.
  assert (Hinit : idx ∈ bs_selected (initial_state stc n)).
  { cbn [initial_state bs_selected]. unfold all_indices.
    apply elem_of_list_to_set, elem_of_seq. unfold n. lia. }
  destruct (balance_trace_churn self order stc n idx (max_iterations self) 0
              (initial_state stc n) Hno Hlt Hinit) as (L & F & K).
  fold states in L, F, K.
  split; [exact L|]. split; [exact K|].
  intros Hpos.
  destruct (final_state_summary self order sentences)
    as (_ & Hres & [(Hzero & _)|(s & Hs & Hsel & _)]); [lia|].
  fold states in Hs.
  assert (Hbest : idx ∈ best_selected (final_state self order sentences)).
  { rewrite Hsel. rewrite Forall_forall in F. apply F. exact Hs. }
  split; [exact Hbest|].
  rewrite Hres. unfold sentences_at.
  apply list_elem_of_fmap. exists idx. split; [reflexivity|].
  unfold sorted. rewrite merge_sort_Permutation. apply elem_of_elements. exact Hbest.
Qed.

Definition churn_example_targets : gmap string Z := {["B-PER" := 1%Z]}.
Definition churn_example_corpus : list sentence := [[("word", "O")]].

Lemma churn_example_no_target max :
  no_target_label {| target_frequencies := churn_example_targets;
                     max_iterations := max |}
                  (counts_at (sentence_tag_counts churn_example_corpus) 0).
Proof. intros tag count Hin. vm_compute in Hin. inversion Hin. Qed.

Lemma no_target_churn_witness :
  length (iteration_states
            {| target_frequencies := churn_example_targets; max_iterations := 2 |}
            ascending_order churn_example_corpus) = 2.
Proof.
  apply (no_target_churn
           {| target_frequencies := churn_example_targets; max_iterations := 2 |}
           ascending_order churn_example_corpus 0).
  - cbn. lia.
  - apply churn_example_no_target.
Defined.

(** C10 as stated fails for [max_iterations = 0]: the sentence has no target
    label, the loop runs exactly [max_iterations] (zero) iterations, and the
    returned selection is empty, so the sentence is not in it. *)
Lemma no_target_churn_counterexample :
  let self := {| target_frequencies := churn_example_targets;
                 max_iterations := 0 |} in
  0 < length churn_example_corpus /\
  no_target_label self (counts_at (sentence_tag_counts churn_example_corpus) 0) /\
  length (iteration_states self ascending_order churn_example_corpus)
  = max_iterations self /\
  balance_dataset self ascending_order churn_example_corpus = [] /\
  ~ (nth 0 churn_example_corpus [] ∈
       balance_dataset self ascending_order churn_example_corpus).
Proof.
  cbv zeta. split; [cbn; lia|]. split; [apply churn_example_no_target|].
  split; [reflexivity|]. split; [reflexivity|].
  intros Hin. inversion Hin.
Qed.

(** *** Evaluation order and determinism *)

(** A set order that lists [selected] in ascending order and lists
    [available] by hash slot in a table of eight slots (index modulo 8), as a
    freshly built small set of ints is laid out. *)
Definition slot_le (i j : nat) : Prop :=
  (i mod 8 <? j mod 8) || ((i mod 8 =? j mod 8) && (i <=? j)) = true.

#[local] Instance slot_le_dec : RelDecision slot_le.
Proof. intros i j. unfold slot_le. apply _. Defined.

Definition slot_order : set_order :=
  {| list_of_set := fun site s =>
       match site with
       | RemovalPass _ => merge_sort Nat.le (elements s)
       | AdditionPass _ => merge_sort slot_le (elements s)
       end;
     list_of_set_perm := fun site s =>
       match site with
       | RemovalPass _ => merge_sort_Permutation Nat.le (elements s)
       | AdditionPass _ => merge_sort_Permutation slot_le (elements s)
       end |}.

(** Nine sentences: 8, 2 and 3 tokens tagged A at indices 0, 1 and 8, and one
    token tagged B at each of the indices 2 to 7. *)
Definition order_example_corpus : list sentence :=
  [repeat ("a", "A") 8; repeat ("a", "A") 2;
   [("b", "B")]; [("b", "B")]; [("b", "B")]; [("b", "B")]; [("b", "B")]; [("b", "B")];
   repeat ("a", "A") 3].

Definition order_example_balancer : NERBalancer :=
  {| target_frequencies := <["A" := 10%Z]> {["B" := 100%Z]}; max_iterations := 1 |}.

(** C6 as stated fails: the passes take their candidates in the order the
    sets yield them. In the example the removal pass drops the sentences 1
    and 8; the addition pass then sees the set {1, 8}. Taken as 8, 1 it
    re-adds sentence 8 and refuses sentence 1; taken in ascending order it
    re-adds sentence 1 and refuses sentence 8. The two outputs differ. *)
Lemma evaluation_order_counterexample :
  list_of_set slot_order (AdditionPass 0) {[1; 8]} = [8; 1] /\
  map length (balance_dataset order_example_balancer slot_order order_example_corpus)
  = [8; 1; 1; 1; 1; 1; 1; 3] /\
  map length (balance_dataset order_example_balancer ascending_order order_example_corpus)
  = [8; 2; 1; 1; 1; 1; 1; 1] /\
  write_conll (balance_dataset order_example_balancer slot_order order_example_corpus)
  <> write_conll (balance_dataset order_example_balancer ascending_order
                    order_example_corpus).
Proof.
  split; [vm_compute; reflexivity|]. split; [vm_compute; reflexivity|].
  split; [vm_compute; reflexivity|]. vm_compute. discriminate.
Qed.

(** Ascending lists without repetition are strictly ascending. *)
Lemma StronglySorted_lt l :
  StronglySorted Nat.le l -> NoDup l -> StronglySorted lt l.
Proof.
  induction 1 as [|x l Hs IH Hall]; intros Hnd; [constructor|].
  apply NoDup_cons in Hnd as [Hx Hnd]. constructor; [apply IH, Hnd|].
  rewrite Forall_forall in *. intros y Hy. specialize (Hall y Hy).
  destruct (decide (x = y)) as [->|Hne]; [contradiction|]. unfold Nat.le in Hall. lia.
Qed.

Lemma sorted_StronglySorted (s : gset nat) : StronglySorted lt (sorted s).
Proof.
  unfold sorted. apply StronglySorted_lt.
  - apply StronglySorted_merge_sort.
    + intros x y z. apply Nat.le_trans.
    + intros x y. apply Nat.le_ge_cases.
  - rewrite merge_sort_Permutation. apply NoDup_elements.
Qed.

(** What one pass leaves of its list of candidates. *)

Lemma removal_steps_untouched self stc l st i :
  i ∈ selected st -> i ∉ l ->
  i ∈ selected (fold_left (removal_step self stc) l st).
Proof.
  revert st. induction l as [|j l IH]; intros st Hin Hnl; cbn [fold_left];
    [exact Hin|].
  apply IH.
  - unfold removal_step.
    destruct (should_remove_sentence self j (counts_at stc j) (current_counts st));
      cbn [selected]; [|exact Hin].
    apply elem_of_difference. split; [exact Hin|].
    intros Heq. apply elem_of_singleton in Heq. subst j. apply Hnl. left.
  - intros H. apply Hnl. right. exact H.
Qed.

Lemma removal_steps_counts self stc l st (final_selected : gset nat) tag :
  NoDup l -> (forall j, j ∈ l -> j ∈ selected st) ->
  (forall j, j ∈ l ->
     (j ∈ final_selected <-> j ∈ selected (fold_left (removal_step self stc) l st))) ->
  count_of (current_counts (fold_left (removal_step self stc) l st)) tag
  = (count_of (current_counts st) tag
     - selection_count stc (filter (fun j => j ∉ final_selected) l) tag)%Z.
Proof.
  revert st. induction l as [|j l IH]; intros st Hnd Hin Hagree; cbn [fold_left].
  - change (selection_count stc (filter (fun j => j ∉ final_selected) []) tag)
      with 0%Z. lia.
  - apply NoDup_cons in Hnd as [Hj Hnd].
    assert (Hjsel : j ∈ selected st) by (apply Hin; left).
    assert (Hrest : forall j', j' ∈ l -> j' ∈ selected (removal_step self stc st j)).
    { intros j' Hj'. unfold removal_step.
      destruct (should_remove_sentence self j (counts_at stc j) (current_counts st));
        cbn [selected]; [|apply Hin; right; exact Hj'].
      apply elem_of_difference. split; [apply Hin; right; exact Hj'|].
      intros Heq. apply elem_of_singleton in Heq. subst j'. contradiction. }
    rewrite (IH (removal_step self stc st j) Hnd Hrest)
      by (intros j' Hj'; apply Hagree; right; exact Hj').
    pose proof (Hagree j ltac:(left)) as Hjj. cbn [fold_left] in Hjj.
    pose proof (removal_steps_mono self stc l (removal_step self stc st j)) as [Hsub _].
    pose proof (removal_steps_untouched self stc l (removal_step self stc st j) j)
      as Hkeep.
    unfold removal_step in Hjj, Hsub, Hkeep |- *.
    destruct (should_remove_sentence self j (counts_at stc j) (current_counts st));
      cbn [selected current_counts] in *.
    + assert (Hout : j ∉ final_selected).
      { intros H. apply Hjj, Hsub, elem_of_difference in H as [_ H].
        apply H, elem_of_singleton. reflexivity. }
      rewrite filter_cons, count_of_sub_counts.
      destruct (decide (j ∉ final_selected)) as [_|Hn]; [|contradiction].
      change (selection_count stc (j :: filter (fun j0 => j0 ∉ final_selected) l) tag)
        with (contribution (counts_at stc j) tag
              + selection_count stc (filter (fun j0 => j0 ∉ final_selected) l) tag)%Z.
      lia.
    + assert (Hinf : ~ (j ∉ final_selected)).
      { intros H. apply H, Hjj, Hkeep; assumption. }
      rewrite filter_cons.
      destruct (decide (j ∉ final_selected)) as [Hy|_]; [contradiction|].
      reflexivity.
Qed.

Lemma addition_steps_counts self stc l st (final_selected : gset nat) tag :
  NoDup l -> (forall j, j ∈ l -> j ∉ selected st) ->
  (forall j, j ∈ l ->
     (j ∈ final_selected <-> j ∈ selected (fold_left (addition_step self stc) l st))) ->
  count_of (current_counts (fold_left (addition_step self stc) l st)) tag
  = (count_of (current_counts st) tag
     + selection_count stc (filter (fun j => j ∈ final_selected) l) tag)%Z.
Proof.
  revert st. induction l as [|j l IH]; intros st Hnd Hout Hagree; cbn [fold_left].
  - change (selection_count stc (filter (fun j => j ∈ final_selected) []) tag)
      with 0%Z. lia.
  - apply NoDup_cons in Hnd as [Hj Hnd].
    assert (Hjout : j ∉ selected st) by (apply Hout; left).
    assert (Hrest : forall j', j' ∈ l -> j' ∉ selected (addition_step self stc st j)).
    { intros j' Hj' Hsel. unfold addition_step in Hsel.
      destruct (can_add self (counts_at stc j) (current_counts st));
        cbn [selected] in Hsel; [|revert Hsel; apply Hout; right; exact Hj'].
      apply elem_of_union in Hsel as [Hsel|Hsel];
        [revert Hsel; apply Hout; right; exact Hj'|].
      apply elem_of_singleton in Hsel. subst j'. contradiction. }
    rewrite (IH (addition_step self stc st j) Hnd Hrest)
      by (intros j' Hj'; apply Hagree; right; exact Hj').
    pose proof (Hagree j ltac:(left)) as Hjj. cbn [fold_left] in Hjj.
    pose proof (addition_steps_grow self stc l (addition_step self stc st j))
      as [Hsub Hfrom].
    unfold addition_step in Hjj, Hsub, Hfrom |- *.
    destruct (can_add self (counts_at stc j) (current_counts st));
      cbn [selected current_counts] in *.
    + assert (Hinf : j ∈ final_selected).
      { apply Hjj, Hsub, elem_of_union_r, elem_of_singleton. reflexivity. }
      rewrite filter_cons, count_of_add_counts.
      destruct (decide (j ∈ final_selected)) as [_|Hn]; [|contradiction].
      change (selection_count stc (j :: filter (fun j0 => j0 ∈ final_selected) l) tag)
        with (contribution (counts_at stc j) tag
              + selection_count stc (filter (fun j0 => j0 ∈ final_selected) l) tag)%Z.
      lia.
    + assert (Hnot : ~ j ∈ final_selected).
      { intros H. apply Hjj, Hfrom in H as [H|H]; contradiction. }
      rewrite filter_cons.
      destruct (decide (j ∈ final_selected)) as [Hy|_]; [contradiction|].
      reflexivity.
Qed.

(** In the removal pass, the candidate [idx] is decided on the counts at the
    start of the pass less the counts of the candidates listed before it
    that the pass removed. *)
Lemma removal_pass_in_order self order stc it st before idx after :
  list_of_set order (RemovalPass it) (selected st) = before ++ idx :: after ->
  let final := removal_pass self order stc it st in
  let mid := fold_left (removal_step self stc) before st in
  (forall tag,
     count_of (current_counts mid) tag
     = (count_of (current_counts st) tag
        - selection_count stc (filter (fun j => j ∉ selected final) before) tag)%Z) /\
  (idx ∈ selected final <->
   should_remove_sentence self idx (counts_at stc idx) (current_counts mid) = false).
Proof.
  intros Hsplit final mid.
  pose proof (list_of_set_NoDup order (RemovalPass it) (selected st)) as Hnd.
  assert (Hin : forall j, j ∈ before ++ idx :: after -> j ∈ selected st).
  { intros j Hj. rewrite <- Hsplit in Hj. apply list_of_set_elem in Hj. exact Hj. }
  rewrite Hsplit in Hnd. apply NoDup_app in Hnd as (Hndb & Hsep & Hnda).
  apply NoDup_cons in Hnda as [Hia _].
  assert (Hib : idx ∉ before).
  { intros H. apply (Hsep idx H). left. }
  assert (Hfinal : final = fold_left (removal_step self stc) after
                                     (removal_step self stc mid idx)).
  { unfold final, removal_pass. rewrite Hsplit, fold_left_app. reflexivity. }
  assert (Hmid : idx ∈ selected mid).
  { apply removal_steps_untouched; [|exact Hib].
    apply Hin, elem_of_app. right. left. }
  pose proof (removal_steps_mono self stc after (removal_step self stc mid idx))
    as [Hsub _].
  pose proof (removal_steps_untouched self stc after (removal_step self stc mid idx))
    as Hkeep.
  rewrite <- Hfinal in Hsub, Hkeep.
  split.
  - intros tag. apply removal_steps_counts; [exact Hndb| |].
    + intros j Hj. apply Hin, elem_of_app. left. exact Hj.
    + intros j Hj. fold mid.
      assert (Hne : j <> idx) by (intros ->; contradiction).
      assert (Hja : j ∉ after).
      { intros H. apply (Hsep j Hj). right. exact H. }
      unfold removal_step in Hsub, Hkeep.
      destruct (should_remove_sentence self idx (counts_at stc idx) (current_counts mid));
        cbn [selected] in Hsub, Hkeep.
      * split.
        -- intros H. apply Hsub, elem_of_difference in H as [H _]. exact H.
        -- intros H. apply Hkeep; [|exact Hja]. apply elem_of_difference.
           split; [exact H|]. intros Heq. apply elem_of_singleton in Heq.
           contradiction.
      * split; [apply Hsub|]. intros H. apply Hkeep; assumption.
  - unfold removal_step in Hsub, Hkeep.
    destruct (should_remove_sentence self idx (counts_at stc idx) (current_counts mid));
      cbn [selected] in Hsub, Hkeep.
    + split; [|discriminate]. intros H.
      apply Hsub, elem_of_difference in H as [_ H].
      contradiction H. apply elem_of_singleton. reflexivity.
    + split; [reflexivity|]. intros _. apply Hkeep; assumption.
Qed.

(** In the addition pass, the candidate [idx] is decided on the counts at
    the start of the pass plus the counts of the candidates listed before it
    that the pass added. *)
Lemma addition_pass_in_order self order stc n it st before idx after :
  list_of_set order (AdditionPass it) (all_indices n ∖ selected st)
  = before ++ idx :: after ->
  let final := addition_pass self order stc n it st in
  let mid := fold_left (addition_step self stc) before st in
  (forall tag,
     count_of (current_counts mid) tag
     = (count_of (current_counts st) tag
        + selection_count stc (filter (fun j => j ∈ selected final) before) tag)%Z) /\
  (idx ∈ selected final <->
   can_add self (counts_at stc idx) (current_counts mid) = true).
Proof.
  intros Hsplit final mid.
  pose proof (list_of_set_NoDup order (AdditionPass it) (all_indices n ∖ selected st))
    as Hnd.
  assert (Hout : forall j, j ∈ before ++ idx :: after -> j ∉ selected st).
  { intros j Hj. rewrite <- Hsplit in Hj. apply list_of_set_elem in Hj.
    apply elem_of_difference in Hj as [_ Hj]. exact Hj. }
  rewrite Hsplit in Hnd. apply NoDup_app in Hnd as (Hndb & Hsep & Hnda).
  apply NoDup_cons in Hnda as [Hia _].
  assert (Hib : idx ∉ before).
  { intros H. apply (Hsep idx H). left. }
  assert (Hfinal : final = fold_left (addition_step self stc) after
                                     (addition_step self stc mid idx)).
  { unfold final, addition_pass. cbv zeta. rewrite Hsplit, fold_left_app.
    reflexivity. }
  pose proof (addition_steps_grow self stc before st) as [_ Hfromb].
  fold mid in Hfromb.
  assert (Hmid : idx ∉ selected mid).
  { intros H. apply Hfromb in H as [H|H]; [|contradiction].
    revert H. apply Hout, elem_of_app. right. left. }
  pose proof (addition_steps_grow self stc after (addition_step self stc mid idx))
    as [Hsub Hfrom].
  rewrite <- Hfinal in Hsub, Hfrom.
  split.
  - intros tag. apply addition_steps_counts; [exact Hndb| |].
    + intros j Hj. apply Hout, elem_of_app. left. exact Hj.
    + intros j Hj. fold mid.
      assert (Hne : j <> idx) by (intros ->; contradiction).
      assert (Hja : j ∉ after).
      { intros H. apply (Hsep j Hj). right. exact H. }
      unfold addition_step in Hsub, Hfrom.
      destruct (can_add self (counts_at stc idx) (current_counts mid));
        cbn [selected] in Hsub, Hfrom.
      * split.
        -- intros H. apply Hfrom in H as [H|H]; [|contradiction].
           apply elem_of_union in H as [H|H]; [exact H|].
           apply elem_of_singleton in H. contradiction.
        -- intros H. apply Hsub, elem_of_union_l, H.
      * split; [|apply Hsub]. intros H.
        apply Hfrom in H as [H|H]; [exact H|contradiction].
  - unfold addition_step in Hsub, Hfrom.
    destruct (can_add self (counts_at stc idx) (current_counts mid));
      cbn [selected] in Hsub, Hfrom.
    + split; [reflexivity|]. intros _.
      apply Hsub, elem_of_union_r, elem_of_singleton. reflexivity.
    + split; [|discriminate]. intros H.
      apply Hfrom in H as [H|H]; contradiction.
Qed.

(** The state at the end of an executed iteration is what the body of the
    loop makes of the state at its start. *)
Lemma balance_trace_step self order stc n fuel it st k s s' :
  (st :: balance_trace self order stc n fuel it st) !! k = Some s ->
  balance_trace self order stc n fuel it st !! k = Some s' ->
  s' = fst (iteration_body self order stc n (it + k) s).
Proof.
  revert it st k. induction fuel as [|fuel IH]; intros it st k Hs Hs';
    cbn [balance_trace] in Hs, Hs'; [destruct k; discriminate Hs'|].
  destruct (iteration_body self order stc n it st) as [st1 imp] eqn:E.
  destruct k as [|k].
  - cbn in Hs, Hs'. inversion Hs; inversion Hs'; subst.
    rewrite Nat.add_0_r, E. reflexivity.
  - cbn [lookup list_lookup] in Hs, Hs'.
    replace (it + S k) with (S it + k) by lia.
    destruct imp; [|destruct k; discriminate Hs'].
    apply (IH (S it) st1 k Hs Hs').
Qed.

(** The sets that the iterations enumerate, each with the place of its
    enumeration, in the order of the run ([fuel] iterations remain, the next
    one is number [iteration]). *)
Fixpoint trace_snapshots (self : NERBalancer) (order : set_order)
    (stc : list tag_counts) (n : nat) (fuel iteration : nat) (st : balance_state)
  : list (iteration_site * gset nat) :=
  match fuel with
  | O => []
  | S fuel' =>
      let removed := removal_pass self order stc iteration (enter_passes st) in
      let '(st', improved) := iteration_body self order stc n iteration st in
      (RemovalPass iteration, bs_selected st)
      :: (AdditionPass iteration, all_indices n ∖ selected removed)
      :: (if improved
          then trace_snapshots self order stc n fuel' (S iteration) st'
          else [])
  end.

(** The sets that a run of [balance_dataset] enumerates. *)
Definition run_snapshots (self : NERBalancer) (order : set_order)
    (sentences : list sentence) : list (iteration_site * gset nat) :=
  let stc := sentence_tag_counts sentences in
  let n := length sentences in
  trace_snapshots self order stc n (max_iterations self) 0 (initial_state stc n).

(** Two set orders list each of the given sets alike. *)
Definition enumerate_alike (o1 o2 : set_order)
    (sets : list (iteration_site * gset nat)) : Prop :=
  Forall (fun e => list_of_set o1 (fst e) (snd e) = list_of_set o2 (fst e) (snd e))
         sets.

Lemma iteration_body_alike self o1 o2 stc n it st :
  list_of_set o1 (RemovalPass it) (bs_selected st)
  = list_of_set o2 (RemovalPass it) (bs_selected st) ->
  list_of_set o1 (AdditionPass it)
    (all_indices n ∖ selected (removal_pass self o1 stc it (enter_passes st)))
  = list_of_set o2 (AdditionPass it)
      (all_indices n ∖ selected (removal_pass self o1 stc it (enter_passes st))) ->
  iteration_body self o1 stc n it st = iteration_body self o2 stc n it st.
Proof.
  intros Hrem Hadd.
  assert (Hr : removal_pass self o2 stc it (enter_passes st)
               = removal_pass self o1 stc it (enter_passes st)).
  { unfold removal_pass. cbn [enter_passes selected]. rewrite Hrem. reflexivity. }
  unfold iteration_body. rewrite Hr. unfold addition_pass. cbv zeta.
  rewrite Hadd. reflexivity.
Qed.

Lemma balance_alike self o1 o2 stc n fuel it st :
  enumerate_alike o1 o2 (trace_snapshots self o1 stc n fuel it st) ->
  balance_trace self o1 stc n fuel it st = balance_trace self o2 stc n fuel it st /\
  balance_loop self o1 stc n fuel it st = balance_loop self o2 stc n fuel it st.
Proof.
  unfold enumerate_alike. revert it st.
  induction fuel as [|fuel IH]; intros it st Halike;
    cbn [trace_snapshots balance_trace balance_loop] in *; [split; reflexivity|].
  destruct (iteration_body self o1 stc n it st) as [st1 imp] eqn:E.
  apply Forall_cons in Halike as [Hrem Halike].
  apply Forall_cons in Halike as [Hadd Halike].
  cbn [fst snd] in Hrem, Hadd.
  rewrite <- (iteration_body_alike self o1 o2 stc n it st Hrem Hadd), E.
  destruct imp; [|split; reflexivity].
  destruct (IH (S it) st1 Halike) as [Ht Hl]. rewrite Ht, Hl. split; reflexivity.
Qed.

(** C6, as amended. The passes take their candidates in the order in which
    the sets [selected] and [available] are enumerated, which the program
    does not sort: in every executed iteration, the removal pass decides each
    candidate on the counts at the start of the pass less the counts of the
    candidates enumerated before it that the pass removed, and the addition
    pass decides each candidate on the counts at its start plus the counts of
    the candidates enumerated before it that the pass added. When a set is
    enumerated in ascending order, the candidates before a given one are
    those of smaller index and the candidates after it those of larger index.
    Two runs on the same balancer and corpus whose
    set orders list alike the sets that the first run enumerates go through
    the same iterations, return the same sentences and write the same
    file. *)
Theorem determinism_given_set_order self o1 o2 sentences :
  let stc := sentence_tag_counts sentences in
  let n := length sentences in
  let states := iteration_states self o1 sentences in
  (forall k s s',
     (initial_state stc n :: states) !! k = Some s -> states !! k = Some s' ->
     let removed := removal_pass self o1 stc k (enter_passes s) in
     let added := addition_pass self o1 stc n k removed in
     bs_selected s' = selected added /\
     (forall before idx after,
        list_of_set o1 (RemovalPass k) (bs_selected s) = before ++ idx :: after ->
        let mid := fold_left (removal_step self stc) before (enter_passes s) in
        (forall tag,
           count_of (current_counts mid) tag
           = (count_of (bs_current_counts s) tag
              - selection_count stc
                  (filter (fun j => j ∉ selected removed) before) tag)%Z) /\
        (idx ∈ selected removed <->
         should_remove_sentence self idx (counts_at stc idx) (current_counts mid)
         = false)) /\
     (forall before idx after,
        list_of_set o1 (AdditionPass k) (all_indices n ∖ selected removed)
        = before ++ idx :: after ->
        let mid := fold_left (addition_step self stc) before removed in
        (forall tag,
           count_of (current_counts mid) tag
           = (count_of (current_counts removed) tag
              + selection_count stc
                  (filter (fun j => j ∈ selected added) before) tag)%Z) /\
        (idx ∈ selected added <->
         can_add self (counts_at stc idx) (current_counts mid) = true))) /\
  (forall site s before idx after,
     Sorted Nat.le (list_of_set o1 site s) ->
     list_of_set o1 site s = before ++ idx :: after ->
     Forall (fun j => j < idx) before /\ Forall (fun j => idx < j) after) /\
  (enumerate_alike o1 o2 (run_snapshots self o1 sentences) ->
   iteration_states self o1 sentences = iteration_states self o2 sentences /\
   balance_dataset self o1 sentences = balance_dataset self o2 sentences /\
   write_conll (balance_dataset self o1 sentences)
   = write_conll (balance_dataset self o2 sentences)).
Proof.
  intros stc n states. split; [|split].
  - intros k s s' Hs Hs' removed added.
    pose proof (balance_trace_step self o1 stc n _ _ _ k s s' Hs Hs') as Hnext.
    cbn [Nat.add] in Hnext. split; [rewrite Hnext; reflexivity|]. split.
    + intros before idx after Hsplit.
      apply (removal_pass_in_order self o1 stc k (enter_passes s) before idx after).
      exact Hsplit.
    + intros before idx after Hsplit.
      apply (addition_pass_in_order self o1 stc n k removed before idx after).
      exact Hsplit.
  - intros site s before idx after Hasc Hsplit.
    assert (Hsorted : StronglySorted lt (list_of_set o1 site s)).
    { apply StronglySorted_lt; [|apply list_of_set_NoDup].
      apply Sorted_StronglySorted; [|exact Hasc].
      intros x y z. apply Nat.le_trans. }
    rewrite Hsplit in Hsorted.
    apply StronglySorted_app in Hsorted as (Hlt & _ & Hafter).
    apply StronglySorted_cons in Hafter as [Hafter _].
    split; [|exact Hafter].
    apply Forall_forall. intros j Hj. apply (Hlt j idx Hj). left.
  - intros Halike.
    destruct (balance_alike self o1 o2 stc n (max_iterations self) 0
                (initial_state stc n) Halike) as [Htrace Hloop].
    assert (Heq : balance_dataset self o1 sentences = balance_dataset self o2 sentences).
    { unfold balance_dataset, final_state. fold stc n. rewrite Hloop. reflexivity. }
    split; [exact Htrace|]. split; [exact Heq|]. rewrite Heq. reflexivity.
Qed.

(** A corpus on which the two set orders of the counterexample list alike
    every set the run enumerates: the second sentence, which has no target
    label, is removed and added back. *)
Definition alike_example_corpus : list sentence :=
  [[("a", "A")]; [("w", "O")]]%string.

Lemma determinism_given_set_order_witness :
  write_conll (balance_dataset order_example_balancer ascending_order
                 alike_example_corpus)
  = write_conll (balance_dataset order_example_balancer slot_order
                   alike_example_corpus).
Proof.
  apply (determinism_given_set_order order_example_balancer
           ascending_order slot_order alike_example_corpus).
  unfold enumerate_alike. apply (bool_decide_unpack _). vm_compute. exact I.
Defined.

(** ** Strings, fields and lines *)

Lemma append_cons c s t : (String c s ++ t)%string = String c (s ++ t)%string.
Proof. reflexivity. Qed.

Lemma append_nil_r s : (s ++ EmptyString)%string = s.
Proof. induction s as [|c s IH]; [reflexivity|]. rewrite append_cons, IH. reflexivity. Qed.

Lemma append_assoc s t u : ((s ++ t) ++ u)%string = (s ++ (t ++ u))%string.
Proof.
  induction s as [|c s IH]; [reflexivity|]. rewrite !append_cons, IH. reflexivity.
Qed.

Lemma is_empty_app s t : is_empty s = false -> is_empty (s ++ t)%string = false.
Proof. destruct s; [discriminate|reflexivity]. Qed.

Lemma is_empty_app_r s t : is_empty t = false -> is_empty (s ++ t)%string = false.
Proof. intros Ht. destruct s; [exact Ht|reflexivity]. Qed.

(** No character of the string is whitespace. *)
Fixpoint no_space (s : string) : bool :=
  match s with
  | EmptyString => true
  | String c s' => negb (isspace c) && no_space s'
  end.

(** No character of the string ends a line. *)
Fixpoint no_newline (s : string) : bool :=
  match s with
  | EmptyString => true
  | String c s' => negb (Ascii.eqb c LF) && negb (Ascii.eqb c CR) && no_newline s'
  end.

(** A field as [split] yields it: non-empty and free of whitespace. *)
Definition is_field (s : string) : Prop :=
  is_empty s = false /\ no_space s = true.

Lemma is_field_head s :
  is_field s -> exists c s', s = String c s' /\ isspace c = false /\ no_space s' = true.
Proof.
  intros [Hne Hns]. destruct s as [|c s']; [discriminate|].
  cbn [no_space] in Hns. apply andb_true_iff in Hns as [Hc Hs'].
  exists c, s'. split; [reflexivity|]. split; [|exact Hs'].
  destruct (isspace c); [discriminate|reflexivity].
Qed.

Lemma no_space_no_newline s : no_space s = true -> no_newline s = true.
Proof.
  induction s as [|c s IH]; [reflexivity|]. cbn [no_space no_newline].
  intros [Hc Hs]%andb_true_iff. rewrite (IH Hs), andb_true_r.
  destruct (Ascii.eqb_spec c LF) as [->|_]; [discriminate Hc|].
  destruct (Ascii.eqb_spec c CR) as [->|_]; [discriminate Hc|reflexivity].
Qed.

Lemma no_newline_app s t :
  no_newline (s ++ t)%string = no_newline s && no_newline t.
Proof.
  induction s as [|c s IH]; [reflexivity|].
  rewrite append_cons. cbn [no_newline]. rewrite IH, andb_assoc. reflexivity.
Qed.

(** *** [split] *)

Lemma split_from_nonempty field s :
  is_empty field = false -> split_from field s <> [].
Proof.
  revert field. induction s as [|c s IH]; intros field Hf; cbn [split_from].
  - rewrite Hf. discriminate.
  - destruct (isspace c); [rewrite Hf; discriminate|].
    apply IH, is_empty_app, Hf.
Qed.

Lemma split_from_word field w s :
  no_space w = true ->
  split_from field (w ++ s)%string = split_from (field ++ w)%string s.
Proof.
  revert field. induction w as [|c w IH]; intros field Hw.
  - rewrite append_nil_r. reflexivity.
  - cbn [no_space] in Hw. apply andb_true_iff in Hw as [Hc Hw].
    rewrite append_cons. cbn [split_from].
    destruct (isspace c); [discriminate Hc|].
    rewrite (IH _ Hw), append_assoc. reflexivity.
Qed.

Lemma split_from_space field c s :
  isspace c = true -> is_empty field = false ->
  split_from field (String c s) = field :: split_from EmptyString s.
Proof. intros Hc Hf. cbn [split_from]. rewrite Hc, Hf. reflexivity. Qed.

Lemma split_field w : is_field w -> split w = [w].
Proof.
  intros [Hne Hns]. unfold split.
  rewrite <- (append_nil_r w) at 1. rewrite (split_from_word _ _ _ Hns).
  cbn [split_from]. change (EmptyString ++ w)%string with w. rewrite Hne. reflexivity.
Qed.

(** *** [strip] *)

Lemma rstrip_no_space s : no_space s = true -> rstrip s = s.
Proof.
  induction s as [|c s IH]; [reflexivity|]. cbn [no_space rstrip].
  intros [Hc Hs]%andb_true_iff. rewrite (IH Hs).
  destruct (isspace c); [discriminate Hc|]. rewrite andb_false_r. reflexivity.
Qed.

Lemma rstrip_app_field s t : is_field t -> rstrip (s ++ t)%string = (s ++ t)%string.
Proof.
  intros [Hne Hns]. induction s as [|c s IH].
  - apply rstrip_no_space, Hns.
  - rewrite append_cons. cbn [rstrip]. rewrite IH.
    rewrite (is_empty_app_r s t Hne). reflexivity.
Qed.

Lemma rstrip_app_space s c :
  isspace c = true -> rstrip (s ++ String c EmptyString)%string = rstrip s.
Proof.
  intros Hc. induction s as [|a s IH].
  - change (EmptyString ++ String c EmptyString)%string with (String c EmptyString).
    cbn [rstrip is_empty]. rewrite Hc. reflexivity.
  - rewrite append_cons. cbn [rstrip]. rewrite IH. reflexivity.
Qed.

Lemma lstrip_head c s : isspace c = false -> lstrip (String c s) = String c s.
Proof. intros Hc. cbn [lstrip]. rewrite Hc. reflexivity. Qed.

Lemma lstrip_shape s :
  lstrip s = EmptyString \/
  exists c r, lstrip s = String c r /\ isspace c = false.
Proof.
  induction s as [|c s IH]; [left; reflexivity|]. cbn [lstrip].
  destruct (isspace c) eqn:Hc; [exact IH|]. right. exists c, s. auto.
Qed.

Lemma strip_shape s :
  strip s = EmptyString \/
  exists c r, strip s = String c r /\ isspace c = false.
Proof.
  unfold strip. destruct (lstrip_shape s) as [->|(c & r & -> & Hc)];
    [left; reflexivity|].
  right. cbn [rstrip]. rewrite Hc, andb_false_r. exists c, (rstrip r). auto.
Qed.

(** *** The document-boundary test *)

Lemma prefix_app_space m w c r :
  no_space m = true -> String.prefix m w = false -> isspace c = true ->
  String.prefix m (w ++ String c r)%string = false.
Proof.
  revert w. induction m as [|a m IH]; intros w Hm Hp Hc.
  - destruct w; discriminate Hp.
  - cbn [no_space] in Hm. apply andb_true_iff in Hm as [Ha Hm].
    destruct w as [|b w].
    + change (EmptyString ++ String c r)%string with (String c r).
      cbn [String.prefix]. destruct (ascii_dec a c) as [->|_]; [|reflexivity].
      rewrite Hc in Ha. discriminate Ha.
    + rewrite append_cons. cbn [String.prefix] in Hp |- *.
      destruct (ascii_dec a b); [apply IH; assumption|reflexivity].
Qed.

(** *** Lines *)

(** The text whose lines are the given ones, each ended by "\n". *)
Definition unlines (bodies : list string) : string :=
  fold_right (fun b acc => (b ++ String LF acc)%string) EmptyString bodies.

Lemma unlines_app l1 l2 : unlines (l1 ++ l2) = (unlines l1 ++ unlines l2)%string.
Proof.
  induction l1 as [|b l1 IH]; [reflexivity|].
  cbn [unlines fold_right app] in *. fold (unlines (l1 ++ l2)). fold (unlines l1).
  rewrite IH, append_assoc, append_cons. reflexivity.
Qed.

Lemma universal_newlines_line body rest :
  no_newline body = true ->
  universal_newlines (body ++ String LF rest)%string
  = (body ++ String LF (universal_newlines rest))%string.
Proof.
  induction body as [|c body IH]; intros Hb.
  - reflexivity.
  - cbn [no_newline] in Hb. apply andb_true_iff in Hb as [Hc Hb].
    apply andb_true_iff in Hc as [_ Hcr].
    rewrite !append_cons. cbn [universal_newlines].
    destruct (Ascii.eqb c CR); [discriminate Hcr|]. rewrite (IH Hb). reflexivity.
Qed.

Lemma lines_from_line cur body rest :
  no_newline body = true ->
  lines_from cur (body ++ String LF rest)%string
  = (cur ++ body ++ String LF EmptyString)%string :: lines_from EmptyString rest.
Proof.
  revert cur. induction body as [|c body IH]; intros cur Hb.
  - change (EmptyString ++ String LF rest)%string with (String LF rest).
    cbn [lines_from]. rewrite Ascii.eqb_refl. reflexivity.
  - cbn [no_newline] in Hb. apply andb_true_iff in Hb as [Hc Hb].
    apply andb_true_iff in Hc as [Hlf _].
    rewrite append_cons. cbn [lines_from].
    destruct (Ascii.eqb c LF); [discriminate Hlf|].
    rewrite (IH _ Hb), append_assoc. reflexivity.
Qed.

Lemma file_lines_unlines bodies :
  Forall (fun b => no_newline b = true) bodies ->
  file_lines (unlines bodies)
  = map (fun b => (b ++ String LF EmptyString)%string) bodies.
Proof.
  unfold file_lines. induction 1 as [|b bodies Hb _ IH]; [reflexivity|].
  cbn [unlines fold_right map]. fold (unlines bodies).
  rewrite (universal_newlines_line _ _ Hb), (lines_from_line _ _ _ Hb), IH.
  reflexivity.
Qed.

(** *** Reading what was written *)

(** The line written for a token, without its "\n". *)
Definition token_line (tok : token) : string :=
  (fst tok ++ " -X- _ " ++ snd tok)%string.

(** A token as [read_conll] yields it: both parts are fields, and the word
    does not begin with the document-boundary marker. *)
Definition token_ok (tok : token) : Prop :=
  is_field (fst tok) /\ String.prefix DOCSTART (fst tok) = false /\
  is_field (snd tok).

Definition sentence_ok (s : sentence) : Prop := s <> [] /\ Forall token_ok s.

(** The lines written for the sentences. *)
Definition sentence_lines (s : sentence) : list string :=
  map token_line s ++ [EmptyString].

Definition corpus_lines (sentences : list sentence) : list string :=
  "-DOCSTART- -X- O O"%string :: EmptyString :: concat (map sentence_lines sentences).

Lemma write_sentence_unlines s : write_sentence s = unlines (sentence_lines s).
Proof.
  unfold write_sentence, sentence_lines. rewrite unlines_app.
  f_equal. induction s as [|tok s IH]; [reflexivity|].
  cbn [fold_right map unlines]. fold (unlines (map token_line s)).
  rewrite IH. unfold write_token, token_line. rewrite !append_assoc. reflexivity.
Qed.

Lemma write_conll_unlines sentences :
  write_conll sentences = unlines (corpus_lines sentences).
Proof.
  assert (Hbody : fold_right (fun s acc => (write_sentence s ++ acc)%string)
                    EmptyString sentences
                  = unlines (concat (map sentence_lines sentences))).
  { induction sentences as [|s sentences IH]; [reflexivity|].
    cbn [fold_right map concat]. rewrite unlines_app, IH, write_sentence_unlines.
    reflexivity. }
  unfold write_conll. rewrite Hbody. reflexivity.
Qed.

Lemma token_line_no_newline tok : token_ok tok -> no_newline (token_line tok) = true.
Proof.
  intros ([_ Hw] & _ & [_ Ht]). unfold token_line.
  rewrite !no_newline_app, (no_space_no_newline _ Hw), (no_space_no_newline _ Ht).
  reflexivity.
Qed.

Lemma strip_token_line tok :
  token_ok tok -> strip (token_line tok ++ String LF EmptyString)%string = token_line tok.
Proof.
  intros (Hw & _ & Ht). unfold strip.
  destruct (is_field_head _ Hw) as (c & w' & Ew & Hc & _).
  assert (Hl : lstrip (token_line tok ++ String LF EmptyString)%string
               = (token_line tok ++ String LF EmptyString)%string).
  { unfold token_line. rewrite Ew, !append_cons. apply lstrip_head, Hc. }
  rewrite Hl, rstrip_app_space by reflexivity.
  unfold token_line. rewrite <- append_assoc. apply rstrip_app_field, Ht.
Qed.

Lemma split_token_line tok :
  token_ok tok -> split (token_line tok) = [fst tok; "-X-"; "_"; snd tok]%string.
Proof.
  intros ([Hwe Hw] & _ & [Hte Ht]). unfold split, token_line.
  rewrite (split_from_word _ _ _ Hw).
  change (EmptyString ++ fst tok)%string with (fst tok).
  change (" -X- _ " ++ snd tok)%string
    with (String " " ("-X-" ++ String " " ("_" ++ String " " (snd tok))))%string.
  rewrite split_from_space by (reflexivity || assumption). f_equal.
  rewrite split_from_word by reflexivity.
  rewrite split_from_space by reflexivity. f_equal.
  rewrite split_from_word by reflexivity.
  rewrite split_from_space by reflexivity. f_equal.
  apply split_field. split; assumption.
Qed.

Lemma read_line_token st tok :
  token_ok tok ->
  read_line st (token_line tok ++ String LF EmptyString)%string
  = Some (fst st, snd st ++ [tok]).
Proof.
  intros Hok. unfold read_line. rewrite (strip_token_line _ Hok).
  pose proof (split_token_line tok Hok) as Hsplit.
  destruct Hok as (Hw & Hp & Ht).
  assert (Hpre : String.prefix DOCSTART (token_line tok) = false).
  { unfold token_line.
    change (" -X- _ " ++ snd tok)%string with (String " " ("-X- _ " ++ snd tok))%string.
    apply prefix_app_space; [reflexivity|exact Hp|reflexivity]. }
  assert (Hne : is_empty (token_line tok) = false)
    by (apply is_empty_app, Hw).
  rewrite Hpre, Hne. cbn [orb].
  unfold parse_fields. rewrite Hsplit.
  cbn [List.last]. destruct tok; reflexivity.
Qed.

Lemma read_line_boundary st raw :
  String.prefix DOCSTART (strip raw) || is_empty (strip raw) = true ->
  read_line st raw = Some (flush st).
Proof. intros H. unfold read_line. rewrite H. reflexivity. Qed.

Lemma read_lines_app st l1 l2 :
  read_lines st (l1 ++ l2)
  = match read_lines st l1 with
    | Some st' => read_lines st' l2
    | None => None
    end.
Proof.
  revert st. induction l1 as [|raw l1 IH]; intros st; [reflexivity|].
  cbn [app read_lines]. destruct (read_line st raw); [apply IH|reflexivity].
Qed.

Lemma read_lines_tokens acc cur s :
  Forall token_ok s ->
  read_lines (acc, cur)
    (map (fun b => (b ++ String LF EmptyString)%string) (map token_line s))
  = Some (acc, cur ++ s).
Proof.
  intros Hs. revert cur. induction Hs as [|tok s Htok _ IH]; intros cur.
  - rewrite List.app_nil_r. reflexivity.
  - cbn [map read_lines]. rewrite (read_line_token _ _ Htok). cbn [fst snd].
    rewrite IH, <- List.app_assoc. reflexivity.
Qed.

Lemma read_lines_sentence acc s :
  sentence_ok s ->
  read_lines (acc, [])
    (map (fun b => (b ++ String LF EmptyString)%string) (sentence_lines s))
  = Some (acc ++ [s], []).
Proof.
  intros [Hne Hs]. unfold sentence_lines.
  rewrite map_app, read_lines_app, (read_lines_tokens _ _ _ Hs).
  cbn [map read_lines app]. rewrite read_line_boundary by reflexivity.
  destruct s; [contradiction|reflexivity].
Qed.

Lemma read_lines_corpus acc sentences :
  Forall sentence_ok sentences ->
  read_lines (acc, [])
    (map (fun b => (b ++ String LF EmptyString)%string)
         (concat (map sentence_lines sentences)))
  = Some (acc ++ sentences, []).
Proof.
  intros Hs. revert acc. induction Hs as [|s sentences Hok _ IH]; intros acc.
  - rewrite List.app_nil_r. reflexivity.
  - cbn [map concat]. rewrite map_app, read_lines_app, (read_lines_sentence _ _ Hok).
    rewrite IH, <- List.app_assoc. reflexivity.
Qed.

Lemma corpus_lines_no_newline sentences :
  Forall sentence_ok sentences ->
  Forall (fun b => no_newline b = true) (corpus_lines sentences).
Proof.
  intros Hs. unfold corpus_lines. constructor; [reflexivity|].
  constructor; [reflexivity|].
  induction Hs as [|s sentences [_ Hok] _ IH]; [constructor|].
  cbn [map concat]. apply Forall_app. split; [|exact IH].
  unfold sentence_lines. apply Forall_app. split; [|repeat constructor].
  apply Forall_map. eapply Forall_impl; [exact Hok|].
  intros tok. apply token_line_no_newline.
Qed.

(** [read_conll] never raises: a line that is not a boundary has a first
    field. *)
Lemma read_line_total st raw : read_line st raw <> None.
Proof.
  unfold read_line.
  destruct (String.prefix DOCSTART (strip raw) || is_empty (strip raw)) eqn:Hb;
    [discriminate|].
  apply orb_false_iff in Hb as [_ Hne].
  destruct (strip_shape raw) as [E|(c & r & E & Hc)]; rewrite E in *;
    [discriminate Hne|].
  unfold parse_fields, split. cbn [split_from]. rewrite Hc.
  pose proof (split_from_nonempty (EmptyString ++ String c EmptyString)%string r
                eq_refl) as Hs.
  destruct (split_from _ r); [contradiction|discriminate].
Qed.

Lemma read_conll_total content : read_conll content <> None.
Proof.
  unfold read_conll.
  assert (H : forall ls st, read_lines st ls <> None).
  { induction ls as [|raw ls IH]; intros st; cbn [read_lines]; [discriminate|].
    pose proof (read_line_total st raw) as Hl.
    destruct (read_line st raw); [apply IH|contradiction]. }
  specialize (H (file_lines content) ([], [])).
  destruct (read_lines _ _); [discriminate|contradiction].
Qed.

(** C9. Single-field data line. For a line that, once stripped, is not
    empty, does not begin with the document-boundary marker and has exactly
    one whitespace-delimited field, the loop of [read_conll] does not fail
    and appends to the current sentence the pair whose token and label are
    both that field. *)
Theorem single_field_line st raw field :
  is_empty (strip raw) = false ->
  String.prefix DOCSTART (strip raw) = false ->
  split (strip raw) = [field] ->
  parse_fields (strip raw) = Some (field, field) /\
  read_line st raw = Some (fst st, snd st ++ [(field, field)]).
Proof.
  intros Hne Hpre Hsplit.
  assert (Hp : parse_fields (strip raw) = Some (field, field))
    by (unfold parse_fields; rewrite Hsplit; reflexivity).
  split; [exact Hp|].
  unfold read_line. rewrite Hpre, Hne, Hp. reflexivity.
Qed.

Lemma single_field_line_witness :
  read_line ([], []) ("single" ++ String LF EmptyString)%string
  = Some ([], [("single", "single")]%string).
Proof.
  apply (single_field_line ([], []) ("single" ++ String LF EmptyString)%string
           "single"%string); reflexivity.
Defined.

(** The sentences for which C7 is stated: non-empty, with tokens that contain
    no whitespace and do not begin with the document-boundary marker. *)
Definition sentence_as_claimed (s : sentence) : Prop :=
  s <> [] /\
  Forall (fun tok : token =>
            no_space (fst tok) = true /\ String.prefix DOCSTART (fst tok) = false) s.

(** C7 as stated fails: a label with a space in it, an empty label and an
    empty token are not read back as they were written. *)
Lemma round_trip_counterexample :
  (sentence_as_claimed [("Paris", "B LOC")]%string /\
   read_conll (write_conll [[("Paris", "B LOC")]%string])
   = Some [[("Paris", "LOC")]%string]) /\
  (sentence_as_claimed [("Paris", "")]%string /\
   read_conll (write_conll [[("Paris", "")]%string])
   = Some [[("Paris", "_")]%string]) /\
  (sentence_as_claimed [("", "O")]%string /\
   read_conll (write_conll [[("", "O")]%string])
   = Some [[("-X-", "O")]%string]).
Proof.
  repeat split; try discriminate; try reflexivity;
    repeat constructor.
Qed.

(** C7, as amended. Format round trip. For sentences that are non-empty
    sequences of (token, label) pairs in which tokens and labels are
    non-empty and contain no whitespace and no token begins with the
    document-boundary marker, reading what [write_conll] wrote does not fail
    and yields the same sentences, with the same pairs in the same order. *)
Theorem write_read_round_trip sentences :
  Forall sentence_ok sentences ->
  read_conll (write_conll sentences) = Some sentences.
Proof.
  intros Hok. unfold read_conll.
  rewrite write_conll_unlines,
    (file_lines_unlines _ (corpus_lines_no_newline _ Hok)).
  unfold corpus_lines. cbn [map read_lines].
  rewrite !read_line_boundary by reflexivity.
  change (flush (flush ([], []))) with (([], []) : reader_state).
  rewrite (read_lines_corpus _ _ Hok). reflexivity.
Qed.

Lemma write_read_round_trip_witness :
  read_conll (write_conll [[("EU", "B-ORG"); ("rejects", "O")]%string])
  = Some [[("EU", "B-ORG"); ("rejects", "O")]%string].
Proof.
  apply write_read_round_trip.
  repeat constructor; discriminate.
Defined.

(* ================================================================== *)
(** * Part III: further properties of the program *)
(* ================================================================== *)

(** ** What [read_conll] returns *)

Lemma no_space_app s t : no_space (s ++ t)%string = no_space s && no_space t.
Proof.
  induction s as [|c s IH]; [reflexivity|].
  rewrite append_cons. cbn [no_space]. rewrite IH, andb_assoc. reflexivity.
Qed.

Lemma split_from_fields field s :
  no_space field = true -> Forall is_field (split_from field s).
Proof.
  revert field. induction s as [|c s IH]; intros field Hf; cbn [split_from].
  - destruct (is_empty field) eqn:E; repeat constructor; assumption.
  - destruct (isspace c) eqn:Hc.
    + destruct (is_empty field) eqn:E; [apply IH; reflexivity|].
      constructor; [split; assumption|apply IH; reflexivity].
    + apply IH. rewrite no_space_app, Hf. cbn [no_space]. rewrite Hc. reflexivity.
Qed.

Lemma split_from_head field s :
  is_empty field = false ->
  exists w ws rest,
    split_from field s = w :: ws /\ (field ++ s)%string = (w ++ rest)%string.
Proof.
  revert field. induction s as [|c s IH]; intros field Hf; cbn [split_from].
  - rewrite Hf. exists field, [], EmptyString. split; reflexivity.
  - destruct (isspace c).
    + rewrite Hf. exists field, (split_from EmptyString s), (String c s).
      split; reflexivity.
    + destruct (IH (field ++ String c EmptyString)%string (is_empty_app _ _ Hf))
        as (w & ws & rest & Hs & Happ).
      exists w, ws, rest. split; [exact Hs|].
      rewrite <- Happ, append_assoc. reflexivity.
Qed.

Lemma split_app_space field a c b :
  isspace c = true ->
  split_from field (a ++ String c b)%string = split_from field a ++ split b.
Proof.
  intros Hc. revert field. induction a as [|x a IH]; intros field.
  - change (EmptyString ++ String c b)%string with (String c b).
    cbn [split_from]. rewrite Hc. destruct (is_empty field); reflexivity.
  - rewrite append_cons. cbn [split_from].
    destruct (isspace x); [|apply IH].
    destruct (is_empty field); rewrite IH; reflexivity.
Qed.

Lemma prefix_app_true m w r :
  String.prefix m w = true -> String.prefix m (w ++ r)%string = true.
Proof.
  revert w. induction m as [|a m IH]; intros w Hp.
  - destruct (w ++ r)%string; reflexivity.
  - destruct w as [|b w]; [discriminate Hp|].
    rewrite append_cons. cbn [String.prefix] in Hp |- *.
    destruct (ascii_dec a b); [apply IH; exact Hp|discriminate Hp].
Qed.

Lemma last_Forall {A} (P : A -> Prop) l d : Forall P l -> P d -> P (List.last l d).
Proof.
  intros Hl Hd. induction Hl as [|x l Hx Hl IH]; [exact Hd|].
  rewrite last_cons_default. clear IH Hd.
  revert x Hx. induction Hl as [|y l Hy Hl IH]; intros x Hx; [exact Hx|].
  rewrite last_cons_default. apply IH. exact Hy.
Qed.

(** A data line yields a token whose two parts are fields and whose word
    does not begin with the marker. *)
Lemma parse_fields_token_ok line :
  is_empty line = false ->
  (exists c r, line = String c r /\ isspace c = false) ->
  String.prefix DOCSTART line = false ->
  exists tok, parse_fields line = Some tok /\ token_ok tok.
Proof.
  intros _ (c & r & -> & Hc) Hpre. unfold parse_fields, split.
  cbn [split_from]. rewrite Hc.
  change (EmptyString ++ String c EmptyString)%string with (String c EmptyString).
  assert (Hns : no_space (String c EmptyString) = true)
    by (cbn [no_space]; rewrite Hc; reflexivity).
  pose proof (split_from_fields _ r Hns) as Hfields.
  destruct (split_from_head (String c EmptyString) r eq_refl)
    as (w & ws & rest & Hs & Happ).
  rewrite Hs in Hfields |- *. apply Forall_cons in Hfields as [Hw Hws].
  exists (w, List.last ws w). split; [reflexivity|].
  split; [exact Hw|]. split; [|apply last_Forall; assumption].
  cbn [fst]. destruct (String.prefix DOCSTART w) eqn:Hp; [|reflexivity].
  change (String c EmptyString ++ r)%string with (String c r) in Happ.
  rewrite Happ, (prefix_app_true _ _ rest Hp) in Hpre. discriminate Hpre.
Qed.

(** What the loop of [read_conll] keeps true of [sentences] and
    [current_sentence]. *)
Definition reader_ok (st : reader_state) : Prop :=
  Forall sentence_ok (fst st) /\ Forall token_ok (snd st).

Lemma flush_ok st : reader_ok st -> reader_ok (flush st).
Proof.
  intros [Hs Hc]. unfold flush. destruct (snd st) as [|tok cur] eqn:E.
  - split; [exact Hs|rewrite E; constructor].
  - split; [|constructor]. cbn [fst]. apply Forall_app. split; [exact Hs|].
    constructor; [|constructor]. split; [discriminate|exact Hc].
Qed.

Lemma read_line_ok st raw st' :
  read_line st raw = Some st' -> reader_ok st -> reader_ok st'.
Proof.
  unfold read_line. intros Hr Hok.
  destruct (String.prefix DOCSTART (strip raw) || is_empty (strip raw)) eqn:Hb.
  - inversion Hr; subst. apply flush_ok, Hok.
  - apply orb_false_iff in Hb as [Hpre Hne].
    destruct (strip_shape raw) as [E|Hshape]; [rewrite E in Hne; discriminate Hne|].
    destruct (parse_fields_token_ok _ Hne Hshape Hpre) as (tok & Hp & Htok).
    rewrite Hp in Hr. inversion Hr; subst. destruct Hok as [Hs Hc].
    split; [exact Hs|]. cbn [snd]. apply Forall_app. split; [exact Hc|].
    constructor; [exact Htok|constructor].
Qed.

Lemma read_lines_ok ls st st' :
  read_lines st ls = Some st' -> reader_ok st -> reader_ok st'.
Proof.
  revert st. induction ls as [|raw ls IH]; intros st Hr Hok; cbn [read_lines] in Hr.
  - inversion Hr; subst. exact Hok.
  - destruct (read_line st raw) as [st1|] eqn:E; [|discriminate Hr].
    apply (IH st1 Hr). apply (read_line_ok st raw st1 E Hok).
Qed.

Lemma read_conll_sentences_ok content sentences :
  read_conll content = Some sentences -> Forall sentence_ok sentences.
Proof.
  unfold read_conll. intros Hr.
  destruct (read_lines ([], []) (file_lines content)) as [st|] eqn:E;
    [|discriminate Hr].
  inversion Hr; subst. apply flush_ok.
  apply (read_lines_ok _ _ _ E). split; constructor.
Qed.

(** Reading back what [write_conll] wrote, for sentences as [read_conll]
    yields them. *)
Lemma read_conll_write_conll sentences :
  Forall sentence_ok sentences ->
  read_conll (write_conll sentences) = Some sentences.
Proof.
  intros Hok. unfold read_conll.
  rewrite write_conll_unlines,
    (file_lines_unlines _ (corpus_lines_no_newline _ Hok)).
  unfold corpus_lines. cbn [map read_lines].
  rewrite !read_line_boundary by reflexivity.
  change (flush (flush ([], []))) with (([], []) : reader_state).
  rewrite (read_lines_corpus _ _ Hok). reflexivity.
Qed.

(** X1. When [read_conll] returns the sentences of a text, every one of
    them is non-empty, with tokens and labels that are non-empty and free of
    whitespace and tokens that do not begin with "-DOCSTART-": blank lines
    and marker lines, however many in a row, never yield an empty sentence. *)
Theorem read_conll_well_formed content sentences :
  read_conll content = Some sentences ->
  Forall (fun s : sentence =>
            s <> [] /\
            Forall (fun tok : token =>
                      is_field (fst tok) /\ is_field (snd tok) /\
                      String.prefix DOCSTART (fst tok) = false) s)
         sentences.
Proof.
  intros E.
  eapply Forall_impl; [exact (read_conll_sentences_ok _ _ E)|].
  intros s [Hne Htoks]. split; [exact Hne|].
  eapply Forall_impl; [exact Htoks|].
  intros tok (Hw & Hp & Ht). auto.
Qed.

(** X2. When [read_conll] returns the sentences of a text, writing them
    with [write_conll] and parsing the result gives the same sentences again:
    whatever the extra columns, blank lines and marker lines of the input,
    the written form is a normal form of it. *)
Theorem read_write_read content sentences :
  read_conll content = Some sentences ->
  read_conll (write_conll sentences) = Some sentences.
Proof.
  intros E. apply read_conll_write_conll, (read_conll_sentences_ok _ _ E).
Qed.

(** X3. Extra columns are ignored. A line made of a token field, any text
    between two whitespace characters, and a label field (followed by its
    newline), whose token does not begin with the marker, appends the pair
    (token, label) to the current sentence, whatever the middle text is. *)
Theorem middle_columns_ignored st w c1 mid c2 t :
  is_field w -> is_field t -> String.prefix DOCSTART w = false ->
  isspace c1 = true -> isspace c2 = true ->
  read_line st (w ++ String c1 (mid ++ String c2 (t ++ String LF EmptyString)))%string
  = Some (fst st, snd st ++ [(w, t)]).
Proof.
  intros Hw Ht Hpre Hc1 Hc2.
  set (body := (w ++ String c1 (mid ++ String c2 t))%string).
  assert (Hraw : (w ++ String c1 (mid ++ String c2 (t ++ String LF EmptyString)))%string
                 = (body ++ String LF EmptyString)%string).
  { unfold body. rewrite append_assoc, append_cons, append_assoc, append_cons.
    reflexivity. }
  rewrite Hraw.
  destruct (is_field_head _ Hw) as (c & w' & Ew & Hc & _).
  assert (Hstrip : strip (body ++ String LF EmptyString)%string = body).
  { unfold strip.
    assert (Hl : lstrip (body ++ String LF EmptyString)%string
                 = (body ++ String LF EmptyString)%string).
    { unfold body. rewrite Ew, !append_cons. apply lstrip_head, Hc. }
    rewrite Hl, rstrip_app_space by reflexivity.
    unfold body.
    replace (w ++ String c1 (mid ++ String c2 t))%string
      with ((w ++ String c1 (mid ++ String c2 EmptyString)) ++ t)%string.
    - apply rstrip_app_field, Ht.
    - rewrite append_assoc, append_cons, append_assoc, append_cons. reflexivity. }
  unfold read_line. rewrite Hstrip.
  assert (Hp : String.prefix DOCSTART body = false)
    by (apply prefix_app_space; [reflexivity|exact Hpre|exact Hc1]).
  assert (Hne : is_empty body = false) by (apply is_empty_app, Hw).
  rewrite Hp, Hne. cbn [orb].
  assert (Hsplit : split body = w :: split mid ++ [t]).
  { unfold body. unfold split at 1. rewrite (split_app_space _ _ _ _ Hc1).
    change (split_from EmptyString w) with (split w). rewrite (split_field _ Hw).
    unfold split at 1. rewrite (split_app_space _ _ _ _ Hc2), (split_field _ Ht).
    reflexivity. }
  unfold parse_fields. rewrite Hsplit, last_last. reflexivity.
Qed.

(** ** Counting labels *)

(** The number of tokens of the sentence that carry the label. *)
Fixpoint occurrences (s : sentence) (tag : string) : Z :=
  match s with
  | [] => 0%Z
  | tok :: rest =>
      ((if decide (snd tok = tag) then 1 else 0) + occurrences rest tag)%Z
  end.

Lemma occurrences_nonneg s tag : (0 <= occurrences s tag)%Z.
Proof.
  induction s as [|tok s IH]; cbn [occurrences]; [lia|].
  destruct (decide (snd tok = tag)); lia.
Qed.

Lemma occurrences_pos s tag : (0 < occurrences s tag)%Z <-> tag ∈ map snd s.
Proof.
  induction s as [|tok s IH]; cbn [occurrences map].
  - split; [lia|]. intros H. inversion H.
  - pose proof (occurrences_nonneg s tag).
    rewrite elem_of_cons. destruct (decide (snd tok = tag)) as [->|Hne].
    + split; [auto|lia].
    + rewrite <- IH. split; [intros; right; lia|].
      intros [Heq|Hpos]; [congruence|lia].
Qed.

Lemma occurrences_app s1 s2 tag :
  occurrences (s1 ++ s2) tag = (occurrences s1 tag + occurrences s2 tag)%Z.
Proof.
  induction s1 as [|tok s1 IH]; cbn [occurrences app]; [lia|]. rewrite IH. lia.
Qed.

Lemma contribution_dict_add counts t n tag :
  contribution (dict_add counts t n) tag
  = (contribution counts tag + if decide (t = tag) then n else 0)%Z.
Proof.
  induction counts as [|[k c] rest IH]; cbn [dict_add].
  - rewrite contribution_cons. cbn. destruct (decide (t = tag)); lia.
  - destruct (String.eqb_spec k t) as [->|Hne].
    + rewrite !contribution_cons. destruct (decide (t = tag)); lia.
    + rewrite !contribution_cons, IH. destruct (decide (k = tag)); lia.
Qed.

Lemma keys_dict_add counts t n k :
  k ∈ map fst (dict_add counts t n) <-> k ∈ map fst counts \/ k = t.
Proof.
  induction counts as [|[k' c] rest IH]; cbn [dict_add map fst].
  - rewrite list_elem_of_singleton. split; [auto|]. intros [H|H]; [inversion H|exact H].
  - destruct (String.eqb_spec k' t) as [->|Hne]; cbn [map fst];
      rewrite !elem_of_cons; [|rewrite IH]; tauto.
Qed.

Lemma NoDup_dict_add counts t n :
  NoDup (map fst counts) -> NoDup (map fst (dict_add counts t n)).
Proof.
  induction counts as [|[k c] rest IH]; cbn [dict_add map fst]; intros Hnd.
  - repeat constructor. intros H. inversion H.
  - apply NoDup_cons in Hnd as [Hk Hnd].
    destruct (String.eqb_spec k t) as [->|Hne]; cbn [map fst];
      apply NoDup_cons; split; auto.
    rewrite keys_dict_add. intros [H|H]; [contradiction|congruence].
Qed.

Lemma positive_dict_add counts t :
  Forall (fun e : string * Z => (0 < snd e)%Z) counts ->
  Forall (fun e : string * Z => (0 < snd e)%Z) (dict_add counts t 1).
Proof.
  induction 1 as [|[k c] rest Hc Hrest IH]; cbn [dict_add].
  - repeat constructor.
  - cbn [snd] in Hc. destruct (String.eqb k t); constructor; cbn [snd]; auto; lia.
Qed.

(** In a dict, the entry of a key is its whole contribution. *)
Lemma contribution_entry counts tag c :
  NoDup (map fst counts) -> (tag, c) ∈ counts -> contribution counts tag = c.
Proof.
  induction counts as [|[k c'] rest IH]; intros Hnd Hin; [inversion Hin|].
  cbn [map fst] in Hnd. apply NoDup_cons in Hnd as [Hk Hnd].
  rewrite contribution_cons. apply elem_of_cons in Hin as [Heq|Hin].
  - inversion Heq; subst. rewrite decide_True by reflexivity.
    assert (contribution rest k = 0%Z); [|lia].
    clear -Hk. induction rest as [|[k2 c2] rest IH]; [reflexivity|].
    rewrite contribution_cons. cbn [map fst] in Hk.
    rewrite decide_False by (intros ->; apply Hk; left).
    apply IH. intros H. apply Hk. right. exact H.
  - rewrite decide_False; [apply IH; assumption|].
    intros ->. apply Hk. apply list_elem_of_fmap. exists (tag, c). auto.
Qed.

Lemma contribution_absent counts tag :
  tag ∉ map fst counts -> contribution counts tag = 0%Z.
Proof.
  induction counts as [|[k c] rest IH]; intros Hk; [reflexivity|].
  rewrite contribution_cons. cbn [map fst] in Hk.
  rewrite decide_False by (intros ->; apply Hk; left).
  apply IH. intros H. apply Hk. right. exact H.
Qed.

Lemma dict_get_contribution counts tag :
  NoDup (map fst counts) -> dict_get counts tag = contribution counts tag.
Proof.
  induction counts as [|[k c] rest IH]; intros Hnd; [reflexivity|].
  cbn [map fst] in Hnd. apply NoDup_cons in Hnd as [Hk Hnd].
  cbn [dict_get]. rewrite contribution_cons.
  destruct (String.eqb_spec k tag) as [->|Hne].
  - rewrite decide_True by reflexivity.
    rewrite (contribution_absent rest tag Hk). lia.
  - rewrite decide_False by assumption. apply IH, Hnd.
Qed.

(** What the counting loop does to the counts so far. *)
Lemma count_tags_spec counts s :
  NoDup (map fst counts) ->
  Forall (fun e : string * Z => (0 < snd e)%Z) counts ->
  let counts' := count_tags counts s in
  NoDup (map fst counts') /\
  Forall (fun e : string * Z => (0 < snd e)%Z) counts' /\
  (forall tag,
     contribution counts' tag
     = (contribution counts tag
        + if decide (tag = "O"%string) then 0 else occurrences s tag)%Z) /\
  (forall tag,
     tag ∈ map fst counts' <->
     tag ∈ map fst counts \/ (tag <> "O"%string /\ tag ∈ map snd s)).
Proof.
  unfold count_tags. revert counts.
  induction s as [|tok s IH]; intros counts Hnd Hpos; cbn [fold_left]; cbv zeta.
  - split; [exact Hnd|]. split; [exact Hpos|]. split.
    + intros tag. cbn [occurrences]. destruct (decide (tag = "O"%string)); lia.
    + intros tag. cbn [map]. split; [auto|]. intros [H|[_ H]]; [exact H|inversion H].
  - destruct (String.eqb_spec (snd tok) "O") as [EO|NO].
    + destruct (IH counts Hnd Hpos) as (I1 & I2 & I3 & I4).
      split; [exact I1|]. split; [exact I2|]. split.
      * intros tag. rewrite I3. cbn [occurrences].
        destruct (decide (tag = "O"%string)) as [->|Hne]; [reflexivity|].
        rewrite decide_False by congruence. lia.
      * intros tag. rewrite I4. cbn [map]. rewrite elem_of_cons.
        split; [tauto|]. intros [H|[Hne [Heq|H]]]; [tauto|congruence|tauto].
    + destruct (IH (dict_add counts (snd tok) 1)
                  (NoDup_dict_add _ _ _ Hnd) (positive_dict_add _ _ Hpos))
        as (I1 & I2 & I3 & I4).
      split; [exact I1|]. split; [exact I2|]. split.
      * intros tag. rewrite I3, contribution_dict_add. cbn [occurrences].
        destruct (decide (tag = "O"%string)) as [->|Hne].
        -- rewrite decide_False by assumption. lia.
        -- lia.
      * intros tag. rewrite I4, keys_dict_add. cbn [map]. rewrite elem_of_cons.
        split; [|tauto]. intros [[H|H]|H]; [tauto| |tauto].
        right. split; [congruence|left; exact H].
Qed.

(** X4. [get_sentence_tag_counts] returns a dict whose keys are distinct and
    are exactly the labels other than "O" that occur in the sentence, each
    with the number of tokens that carry it, which is at least 1: "O" is
    never a key and no count is 0. *)
Theorem get_sentence_tag_counts_spec s :
  NoDup (map fst (get_sentence_tag_counts s)) /\
  forall tag count,
    (tag, count) ∈ get_sentence_tag_counts s <->
    tag <> "O"%string /\ tag ∈ map snd s /\ count = occurrences s tag /\
    (1 <= count)%Z.
Proof.
  destruct (count_tags_spec [] s (NoDup_nil_2) (Forall_nil_2 _))
    as (Hnd & Hpos & Hc & Hk).
  change (count_tags [] s) with (get_sentence_tag_counts s) in *.
  split; [exact Hnd|]. intros tag count. split.
  - intros Hin.
    assert (Hkey : tag ∈ map fst (get_sentence_tag_counts s))
      by (apply list_elem_of_fmap; exists (tag, count); auto).
    apply Hk in Hkey as [H|[Hne Hocc]]; [inversion H|].
    split; [exact Hne|]. split; [exact Hocc|].
    pose proof (contribution_entry _ _ _ Hnd Hin) as Hcon.
    rewrite Hc, decide_False in Hcon by assumption. cbn in Hcon.
    rewrite Forall_forall in Hpos. specialize (Hpos _ Hin). cbn [snd] in Hpos.
    split; lia.
  - intros (Hne & Hocc & -> & _).
    assert (Hkey : tag ∈ map fst (get_sentence_tag_counts s))
      by (apply Hk; right; auto).
    apply list_elem_of_fmap in Hkey as ([k c] & Heq & Hin). cbn [fst] in Heq. subst k.
    pose proof (contribution_entry _ _ _ Hnd Hin) as Hcon.
    rewrite Hc, decide_False in Hcon by assumption. cbn in Hcon.
    replace (occurrences s tag) with c by lia. exact Hin.
Qed.

(** X5. [get_current_counts] over a set of indices of the corpus gives, for
    each label other than "O", the number of tokens that carry it in the
    selected sentences; a label that does not occur there, and "O" itself,
    read as 0. *)
Theorem get_current_counts_spec sentences (sel : gset nat) tag :
  sel ⊆ all_indices (length sentences) ->
  count_of (get_current_counts sel (sentence_tag_counts sentences)) tag
  = if decide (tag = "O"%string) then 0%Z
    else occurrences (concat (sentences_at sentences (sorted sel))) tag.
Proof.
  intros _. unfold get_current_counts. rewrite count_of_counts_of_indices.
  assert (Hperm : elements sel ≡ₚ sorted sel)
    by (unfold sorted; rewrite merge_sort_Permutation; reflexivity).
  rewrite (selection_count_perm _ _ _ tag Hperm). clear Hperm.
  induction (sorted sel) as [|idx l IH].
  - cbn. destruct (decide (tag = "O"%string)); reflexivity.
  - change (selection_count (sentence_tag_counts sentences) (idx :: l) tag)
      with (contribution (counts_at (sentence_tag_counts sentences) idx) tag
            + selection_count (sentence_tag_counts sentences) l tag)%Z.
    rewrite IH. cbn [sentences_at map concat]. rewrite occurrences_app.
    fold (sentences_at sentences l).
    unfold counts_at, sentence_tag_counts.
    change (@nil (string * Z)) with (get_sentence_tag_counts []).
    rewrite map_nth.
    destruct (count_tags_spec [] (nth idx sentences []) NoDup_nil_2 (Forall_nil_2 _))
      as (_ & _ & Hc & _).
    change (count_tags [] (nth idx sentences [])) 
      with (get_sentence_tag_counts (nth idx sentences [])) in Hc.
    rewrite Hc. cbn [contribution fold_right].
    destruct (decide (tag = "O"%string)); lia.
Qed.

(** ** The score *)

Lemma score_fold cur l a :
  let score :=
    fold_left (fun score (e : string * Z) =>
                 (score - Z.abs (count_of cur (fst e) - snd e))%Z) l a in
  (score <= a)%Z /\
  (score = a <-> Forall (fun e : string * Z => count_of cur (fst e) = snd e) l).
Proof.
  revert a. induction l as [|e l IH]; intros a; cbn [fold_left]; cbv zeta.
  - split; [lia|]. split; [constructor|reflexivity].
  - destruct (IH (a - Z.abs (count_of cur (fst e) - snd e))%Z) as [Hle Hiff].
    split; [lia|]. split.
    + intros Heq. assert (Z.abs (count_of cur (fst e) - snd e) = 0)%Z by lia.
      constructor; [lia|]. apply Hiff. lia.
    + intros Hall. apply Forall_cons in Hall as [He Hl].
      apply Hiff in Hl. rewrite Hl, He. lia.
Qed.

(** X6. [calculate_frequency_score] is never positive, and it is 0 exactly
    when the count of every target label equals its target (a label missing
    from the counts reading as 0). *)
Theorem calculate_frequency_score_spec self (cur : gmap string Z) :
  (calculate_frequency_score self cur <= 0)%Z /\
  (calculate_frequency_score self cur = 0%Z <->
   forall tag target,
     target_frequencies self !! tag = Some target -> count_of cur tag = target).
Proof.
  unfold calculate_frequency_score.
  destruct (score_fold cur (map_to_list (target_frequencies self)) 0%Z) as [Hle Hiff].
  split; [exact Hle|]. rewrite Hiff, Forall_forall. split.
  - intros Hall tag target Ht.
    apply (Hall (tag, target)), elem_of_map_to_list, Ht.
  - intros Hall [tag target] Hin. apply Hall, elem_of_map_to_list, Hin.
Qed.

(** ** The returned sentences *)

Lemma sentences_at_sublist (sentences : list sentence) l k :
  StronglySorted lt l ->
  Forall (fun i => k <= i < length sentences) l ->
  sentences_at sentences l `sublist_of` drop k sentences.
Proof.
  intros Hs. revert k. induction Hs as [|i l Hs IH Hall]; intros k Hr.
  - apply sublist_nil_l.
  - apply Forall_cons in Hr as [[Hk Hi] Hr]. cbn [sentences_at map].
    fold (sentences_at sentences l).
    destruct (lookup_lt_is_Some_2 sentences i Hi) as [x Hx].
    rewrite (nth_lookup_Some _ _ _ _ Hx).
    assert (Hdrop : drop k sentences
                    = take (i - k) (drop k sentences) ++ x :: drop (S i) sentences).
    { rewrite <- (take_drop (i - k) (drop k sentences)) at 1.
      rewrite drop_drop. replace (k + (i - k)) with i by lia.
      rewrite (drop_S _ _ _ Hx). reflexivity. }
    rewrite Hdrop. apply sublist_inserts_l, sublist_skip, IH.
    rewrite Forall_forall in *. intros j Hj.
    specialize (Hall j Hj). specialize (Hr j Hj). lia.
Qed.

Lemma selection_sentences_sublist (sentences : list sentence) (sel : gset nat) :
  sel ⊆ all_indices (length sentences) ->
  sentences_at sentences (sorted sel) `sublist_of` sentences.
Proof.
  intros Hsub. apply (sentences_at_sublist sentences (sorted sel) 0).
  - apply sorted_StronglySorted.
  - rewrite Forall_forall. intros i Hi. unfold sorted in Hi.
    rewrite merge_sort_Permutation in Hi. apply elem_of_elements, Hsub in Hi.
    unfold all_indices in Hi. apply elem_of_list_to_set, elem_of_seq in Hi. lia.
Qed.

Lemma best_selected_in_range self order sentences :
  best_selected (final_state self order sentences) ⊆ all_indices (length sentences).
Proof.
  intros i Hi. unfold all_indices. apply elem_of_list_to_set, elem_of_seq.
  pose proof (balance_loop_in_range self order sentences i (or_introl Hi)). lia.
Qed.

(** X7. The sentences returned by [balance_dataset] are a subsequence of the
    corpus: each is a sentence of the input, none is returned twice for one
    index, and they come in the order of the input; in particular no more
    sentences are returned than were given. *)
Theorem balance_dataset_sublist self order sentences :
  balance_dataset self order sentences `sublist_of` sentences /\
  length (balance_dataset self order sentences) <= length sentences.
Proof.
  assert (H : balance_dataset self order sentences `sublist_of` sentences)
    by apply selection_sentences_sublist, best_selected_in_range.
  split; [exact H|]. apply sublist_length, H.
Qed.

(** ** What the passes guarantee *)

(** A dict of counts as [get_sentence_tag_counts] builds it. *)
Definition counts_ok (sc : tag_counts) : Prop :=
  NoDup (map fst sc) /\ Forall (fun e : string * Z => (0 < snd e)%Z) sc.

Lemma counts_at_ok sentences idx :
  counts_ok (counts_at (sentence_tag_counts sentences) idx).
Proof.
  rewrite counts_at_sentence.
  destruct (count_tags_spec [] (nth idx sentences []) NoDup_nil_2 (Forall_nil_2 _))
    as (H1 & H2 & _). split; assumption.
Qed.

Lemma contribution_nonneg sc tag :
  Forall (fun e : string * Z => (0 < snd e)%Z) sc -> (0 <= contribution sc tag)%Z.
Proof.
  induction 1 as [|[k c] rest Hc _ IH]; [cbn; lia|].
  rewrite contribution_cons. cbn [snd] in Hc. destruct (decide (k = tag)); lia.
Qed.

(** The two thresholds a target label has passed when its sentence is let
    go. *)
Lemma should_remove_thresholds self idx sc cur tag target :
  targets_in_range self -> target_frequencies self !! tag = Some target ->
  counts_ok sc -> should_remove_sentence self idx sc cur = true ->
  tag ∈ map fst sc ->
  (target <= count_of cur tag)%Z /\
  (4 * target <= 5 * (count_of cur tag - contribution sc tag))%Z.
Proof.
  intros Hrange Ht [Hnd _] Hrem Hkey.
  apply list_elem_of_fmap in Hkey as ([k c] & Heq & Hin). cbn [fst] in Heq. subst k.
  rewrite (contribution_entry _ _ _ Hnd Hin).
  assert (Hno : ~ removal_veto self sc cur).
  { intros Hv. apply (should_remove_sentence_veto self idx sc cur Hrange) in Hv.
    congruence. }
  split.
  - destruct (Z.le_gt_cases target (count_of cur tag)) as [|G]; [assumption|].
    exfalso. apply Hno. exists tag, c, target. split; [exact Hin|]. split; [exact Ht|].
    left. lia.
  - destruct (Z.le_gt_cases (4 * target) (5 * (count_of cur tag - c))) as [|G];
      [assumption|].
    exfalso. apply Hno. exists tag, c, target. split; [exact Hin|]. split; [exact Ht|].
    right. lia.
Qed.

(** The count of the label is at least 80% of its target, or has not fallen
    below [floor]. *)
Definition guarded (target floor : Z) (count : Z) : Prop :=
  (4 * target <= 5 * count)%Z \/ (floor <= count)%Z.

Lemma removal_step_guarded self stc st idx tag target floor :
  targets_in_range self -> target_frequencies self !! tag = Some target ->
  counts_ok (counts_at stc idx) ->
  guarded target floor (count_of (current_counts st) tag) ->
  guarded target floor (count_of (current_counts (removal_step self stc st idx)) tag).
Proof.
  intros Hrange Ht Hok Hg. unfold removal_step.
  destruct (should_remove_sentence self idx (counts_at stc idx) (current_counts st))
    eqn:Hrem; [|exact Hg].
  cbn [current_counts]. rewrite count_of_sub_counts.
  destruct (decide (tag ∈ map fst (counts_at stc idx))) as [Hkey|Hkey].
  - left. apply (should_remove_thresholds self idx _ _ tag target Hrange Ht Hok Hrem Hkey).
  - rewrite (contribution_absent _ _ Hkey), Z.sub_0_r. exact Hg.
Qed.

Lemma addition_step_guarded self stc st idx tag target floor :
  counts_ok (counts_at stc idx) ->
  guarded target floor (count_of (current_counts st) tag) ->
  guarded target floor (count_of (current_counts (addition_step self stc st idx)) tag).
Proof.
  intros [_ Hpos] Hg. unfold addition_step.
  destruct (can_add self (counts_at stc idx) (current_counts st)); [|exact Hg].
  cbn [current_counts]. rewrite count_of_add_counts.
  pose proof (contribution_nonneg _ tag Hpos). unfold guarded in *. lia.
Qed.

Lemma iteration_body_guarded self order stc n it st tag target floor :
  targets_in_range self -> target_frequencies self !! tag = Some target ->
  (forall idx, counts_ok (counts_at stc idx)) ->
  guarded target floor (count_of (bs_current_counts st) tag) ->
  guarded target floor
    (count_of (bs_current_counts (fst (iteration_body self order stc n it st))) tag).
Proof.
  intros Hrange Ht Hok Hg. unfold iteration_body. cbn [fst bs_current_counts].
  assert (Hfold_r : forall l s,
             guarded target floor (count_of (current_counts s) tag) ->
             guarded target floor
               (count_of (current_counts (fold_left (removal_step self stc) l s)) tag)).
  { induction l as [|i l IH]; intros s Hs; [exact Hs|]. cbn [fold_left].
    apply IH, removal_step_guarded; auto. }
  assert (Hfold_a : forall l s,
             guarded target floor (count_of (current_counts s) tag) ->
             guarded target floor
               (count_of (current_counts (fold_left (addition_step self stc) l s)) tag)).
  { induction l as [|i l IH]; intros s Hs; [exact Hs|]. cbn [fold_left].
    apply IH, addition_step_guarded; auto. }
  unfold addition_pass, removal_pass. apply Hfold_a, Hfold_r. exact Hg.
Qed.

Lemma balance_trace_guarded self order stc n fuel it st tag target floor :
  targets_in_range self -> target_frequencies self !! tag = Some target ->
  (forall idx, counts_ok (counts_at stc idx)) ->
  guarded target floor (count_of (bs_current_counts st) tag) ->
  Forall (fun s => guarded target floor (count_of (bs_current_counts s) tag))
         (balance_trace self order stc n fuel it st).
Proof.
  intros Hrange Ht Hok. revert it st.
  induction fuel as [|fuel IH]; intros it st Hg; cbn [balance_trace]; [constructor|].
  pose proof (iteration_body_guarded self order stc n it st tag target floor
                Hrange Ht Hok Hg) as Hnext.
  destruct (iteration_body self order stc n it st) as [st' imp]. cbn [fst] in Hnext.
  constructor; [exact Hnext|]. destruct imp; [apply IH, Hnext|constructor].
Qed.

Lemma selection_count_app stc l1 l2 tag :
  selection_count stc (l1 ++ l2) tag
  = (selection_count stc l1 tag + selection_count stc l2 tag)%Z.
Proof.
  induction l1 as [|i l1 IH];
    [change (selection_count stc [] tag) with 0%Z; cbn [app]; lia|].
  change (selection_count stc ((i :: l1) ++ l2) tag)
    with (contribution (counts_at stc i) tag + selection_count stc (l1 ++ l2) tag)%Z.
  change (selection_count stc (i :: l1) tag)
    with (contribution (counts_at stc i) tag + selection_count stc l1 tag)%Z.
  rewrite IH. lia.
Qed.

Lemma selection_count_nonneg stc l tag :
  (forall idx, counts_ok (counts_at stc idx)) ->
  (0 <= selection_count stc l tag)%Z.
Proof.
  intros Hok. induction l as [|i l IH];
    [change (selection_count stc [] tag) with 0%Z; lia|].
  change (selection_count stc (i :: l) tag)
    with (contribution (counts_at stc i) tag + selection_count stc l tag)%Z.
  pose proof (contribution_nonneg _ tag (proj2 (Hok i))). lia.
Qed.

(** At an iteration boundary no count is negative or above the count of the
    whole corpus. *)
Lemma count_le_corpus sentences st tag :
  let stc := sentence_tag_counts sentences in
  let n := length sentences in
  in_step stc n st ->
  (0 <= count_of (bs_current_counts st) tag
   <= count_of (get_current_counts (all_indices n) stc) tag)%Z.
Proof.
  intros stc n [Hm Hsub].
  assert (Hok : forall idx, counts_ok (counts_at stc idx))
    by (intros idx; apply counts_at_ok).
  rewrite Hm. unfold get_current_counts. rewrite count_of_counts_of_indices.
  assert (Hperm : elements (all_indices n)
                  ≡ₚ elements (bs_selected st)
                     ++ elements (all_indices n ∖ bs_selected st)).
  { rewrite <- elements_disj_union by set_solver.
    rewrite <- (union_difference_L _ _ Hsub). reflexivity. }
  rewrite (selection_count_perm _ _ _ tag Hperm), selection_count_app.
  pose proof (selection_count_nonneg stc (elements (bs_selected st)) tag Hok).
  pose proof (selection_count_nonneg stc
                (elements (all_indices n ∖ bs_selected st)) tag Hok).
  lia.
Qed.


(** X8. The 80% guard holds for the whole run. With targets in range, for
    every target label and at every iteration boundary, the aggregate count
    of the label is at least 80% of its target or is still the count of the
    label in the whole corpus; and when [max_iterations] is not 0, the same
    holds of the label's count in the selection that is returned. (With
    [max_iterations = 0] the returned selection is empty and neither need
    hold.) *)
Theorem removal_guard_invariant self order sentences tag target :
  targets_in_range self -> target_frequencies self !! tag = Some target ->
  let stc := sentence_tag_counts sentences in
  let n := length sentences in
  let corpus_count := count_of (get_current_counts (all_indices n) stc) tag in
  Forall (fun st =>
            (4 * target <= 5 * count_of (bs_current_counts st) tag)%Z \/
            count_of (bs_current_counts st) tag = corpus_count)
         (initial_state stc n :: iteration_states self order sentences) /\
  (max_iterations self <> 0 ->
   let kept :=
     count_of (get_current_counts (best_selected (final_state self order sentences))
                                  stc) tag in
   (4 * target <= 5 * kept)%Z \/ kept = corpus_count).
Proof.
  intros Hrange Ht stc n corpus_count.
  assert (Hok : forall idx, counts_ok (counts_at stc idx))
    by (intros idx; apply counts_at_ok).
  assert (Hg : Forall (fun s => guarded target corpus_count
                                  (count_of (bs_current_counts s) tag))
                 (initial_state stc n :: iteration_states self order sentences)).
  { constructor; [right; apply Z.le_refl|].
    apply balance_trace_guarded; auto.
    right. apply Z.le_refl. }
  assert (Hstep : Forall (in_step stc n)
                    (initial_state stc n :: iteration_states self order sentences)).
  { constructor; [apply initial_state_in_step|].
    apply balance_trace_in_step, initial_state_in_step. }
  assert (Hupper : forall s, in_step stc n s ->
                     (count_of (bs_current_counts s) tag <= corpus_count)%Z)
    by (intros s Hs; apply (count_le_corpus sentences s tag Hs)).
  assert (Hboth : Forall (fun st =>
            (4 * target <= 5 * count_of (bs_current_counts st) tag)%Z \/
            count_of (bs_current_counts st) tag = corpus_count)
         (initial_state stc n :: iteration_states self order sentences)).
  { rewrite Forall_forall in *. intros s Hs.
    destruct (Hg s Hs) as [H|H]; [left; exact H|right].
    specialize (Hupper s (Hstep s Hs)). lia. }
  split; [exact Hboth|].
  intros Hpos kept.
  destruct (final_state_summary self order sentences)
    as (_ & _ & [(Hzero & _)|(s & Hs & Hsel & _)]); [contradiction|].
  rewrite Forall_forall in Hboth, Hstep.
  assert (Hin : s ∈ initial_state stc n :: iteration_states self order sentences)
    by (right; exact Hs).
  assert (Hkept : kept = count_of (bs_current_counts s) tag).
  { unfold kept. rewrite Hsel. unfold get_current_counts.
    rewrite count_of_counts_of_indices. symmetry. apply (Hstep s Hin). }
  rewrite Hkept. apply Hboth, Hin.
Qed.

(** X9. At every iteration boundary and for every label, the incrementally
    maintained count is never negative and never exceeds the count of the
    label in the whole corpus. *)
Theorem counts_bounded self order sentences :
  let stc := sentence_tag_counts sentences in
  let n := length sentences in
  Forall (fun st =>
            forall tag,
              (0 <= count_of (bs_current_counts st) tag
               <= count_of (get_current_counts (all_indices n) stc) tag)%Z)
         (initial_state stc n :: iteration_states self order sentences).
Proof.
  intros stc n.
  assert (Hstep : Forall (in_step stc n)
                    (initial_state stc n :: iteration_states self order sentences)).
  { constructor; [apply initial_state_in_step|].
    apply balance_trace_in_step, initial_state_in_step. }
  eapply Forall_impl; [exact Hstep|].
  intros st Hst tag. apply (count_le_corpus sentences st tag Hst).
Qed.

(** ** Leaving the loop early *)

Lemma removal_steps_unimproved self stc l st :
  improved (fold_left (removal_step self stc) l st) = false ->
  fold_left (removal_step self stc) l st = st /\
  forall i, i ∈ l ->
    should_remove_sentence self i (counts_at stc i) (current_counts st) = false.
Proof.
  revert st. induction l as [|i l IH]; intros st Himp; cbn [fold_left] in *.
  - split; [reflexivity|]. intros i Hi. inversion Hi.
  - destruct (should_remove_sentence self i (counts_at stc i) (current_counts st))
      eqn:Hrem.
    + exfalso.
      destruct (removal_steps_mono self stc l (removal_step self stc st i)) as [_ Hm].
      rewrite Hm in Himp; [discriminate Himp|].
      unfold removal_step. rewrite Hrem. reflexivity.
    + assert (Hst : removal_step self stc st i = st)
        by (unfold removal_step; rewrite Hrem; reflexivity).
      rewrite Hst in *. destruct (IH st Himp) as [Heq Hall].
      split; [exact Heq|]. intros j [->|Hj]%elem_of_cons; auto.
Qed.

Lemma addition_steps_unimproved self stc l st :
  improved (fold_left (addition_step self stc) l st) = false ->
  fold_left (addition_step self stc) l st = st /\
  forall i, i ∈ l -> can_add self (counts_at stc i) (current_counts st) = false.
Proof.
  revert st. induction l as [|i l IH]; intros st Himp; cbn [fold_left] in *.
  - split; [reflexivity|]. intros i Hi. inversion Hi.
  - destruct (can_add self (counts_at stc i) (current_counts st)) eqn:Hadd.
    + exfalso.
      destruct (addition_steps_mono self stc l (addition_step self stc st i)) as [_ Hm].
      rewrite Hm in Himp; [discriminate Himp|].
      unfold addition_step. rewrite Hadd. reflexivity.
    + assert (Hst : addition_step self stc st i = st)
        by (unfold addition_step; rewrite Hadd; reflexivity).
      rewrite Hst in *. destruct (IH st Himp) as [Heq Hall].
      split; [exact Heq|]. intros j [->|Hj]%elem_of_cons; auto.
Qed.

(** An iteration that is not marked improved changed nothing, and found no
    sentence to remove and none to add. *)
Lemma iteration_unimproved self order stc n it st :
  snd (iteration_body self order stc n it st) = false ->
  let st' := fst (iteration_body self order stc n it st) in
  bs_selected st' = bs_selected st /\
  bs_current_counts st' = bs_current_counts st /\
  (forall i, i ∈ bs_selected st ->
     should_remove_sentence self i (counts_at stc i) (bs_current_counts st) = false) /\
  (forall i, i < n -> i ∉ bs_selected st ->
     can_add self (counts_at stc i) (bs_current_counts st) = false).
Proof.
  unfold iteration_body. cbn [fst snd bs_selected bs_current_counts].
  unfold addition_pass. intros Himp.
  destruct (addition_steps_unimproved _ _ _ _ Himp) as [Ha Hcan].
  rewrite Ha in Himp |- *. unfold removal_pass in *.
  destruct (removal_steps_unimproved _ _ _ _ Himp) as [Hr Hrem].
  rewrite Hr in *. cbn [enter_passes selected current_counts] in *.
  split; [reflexivity|]. split; [reflexivity|]. split.
  - intros i Hi. apply Hrem, list_of_set_elem, Hi.
  - intros i Hlt Hni. apply Hcan, list_of_set_elem, elem_of_difference.
    split; [|exact Hni]. unfold all_indices.
    apply elem_of_list_to_set, elem_of_seq. lia.
Qed.

Lemma balance_loop_early_exit self order stc n fuel it st :
  length (balance_trace self order stc n fuel it st) < fuel ->
  exists it' prev,
    snd (iteration_body self order stc n it' prev) = false /\
    balance_loop self order stc n fuel it st
    = fst (iteration_body self order stc n it' prev).
Proof.
  revert it st. induction fuel as [|fuel IH]; intros it st;
    cbn [balance_trace balance_loop]; [lia|].
  destruct (iteration_body self order stc n it st) as [st' imp] eqn:E.
  destruct imp; cbn [length]; intros Hlen.
  - apply IH. lia.
  - exists it, st. rewrite E. split; reflexivity.
Qed.

(** X10. When the loop stops before [max_iterations] iterations, it stops at
    a point where the rules change nothing: with the final counts, no
    selected sentence passes the removal rule and no sentence left out passes
    the addition rule. *)
Theorem early_exit_is_stable self order sentences :
  length (iteration_states self order sentences) < max_iterations self ->
  let stc := sentence_tag_counts sentences in
  let final := final_state self order sentences in
  (forall idx, idx ∈ bs_selected final ->
     should_remove_sentence self idx (counts_at stc idx) (bs_current_counts final)
     = false) /\
  (forall idx, idx < length sentences -> idx ∉ bs_selected final ->
     can_add self (counts_at stc idx) (bs_current_counts final) = false).
Proof.
  intros Hlen stc final.
  destruct (balance_loop_early_exit _ _ _ _ _ _ _ Hlen) as (it' & prev & Himp & Hfin).
  destruct (iteration_unimproved _ _ _ _ _ _ Himp) as (Hs & Hc & Hrem & Hadd).
  subst stc final. unfold final_state. cbv zeta. rewrite Hfin, Hs, Hc.
  split; assumption.
Qed.

(** ** The whole pipeline *)

Lemma sublist_Forall {A} (P : A -> Prop) (l1 l2 : list A) :
  l1 `sublist_of` l2 -> Forall P l2 -> Forall P l1.
Proof.
  induction 1 as [|x l1 l2 _ IH|x l1 l2 _ IH]; intros Hall.
  - constructor.
  - apply Forall_cons in Hall as [Hx Hall]. constructor; auto.
  - apply Forall_cons in Hall as [_ Hall]. auto.
Qed.

(** X11. When [read_conll] returns the sentences of the input text,
    [process_file] writes an output text, and that text parses back to
    exactly the sentences that [balance_dataset] selected from the sentences
    of the input. *)
Theorem process_file_output self order content sentences :
  read_conll content = Some sentences ->
  exists output,
    process_file self order content = Some output /\
    read_conll output = Some (balance_dataset self order sentences).
Proof.
  intros E.
  exists (write_conll (balance_dataset self order sentences)).
  split; [unfold process_file; rewrite E; reflexivity|].
  apply read_conll_write_conll.
  apply (sublist_Forall _ _ sentences).
  - apply selection_sentences_sublist, best_selected_in_range.
  - apply (read_conll_sentences_ok _ _ E).
Qed.

(** ** The frequency report *)

(** The number of tokens whose label is not "O". *)
Fixpoint entity_tokens (s : sentence) : Z :=
  match s with
  | [] => 0%Z
  | tok :: rest =>
      ((if decide (snd tok = "O"%string) then 0 else 1) + entity_tokens rest)%Z
  end.

Lemma entity_tokens_app s1 s2 :
  entity_tokens (s1 ++ s2) = (entity_tokens s1 + entity_tokens s2)%Z.
Proof.
  induction s1 as [|tok s1 IH]; cbn [entity_tokens app]; [lia|]. rewrite IH. lia.
Qed.

(** The sum of the values of a dict. *)
Definition dict_total (counts : tag_counts) : Z :=
  fold_right (fun (e : string * Z) acc => (snd e + acc)%Z) 0%Z counts.

(** The sum of [f] over a list. *)
Definition sum_over {A} (f : A -> Z) (l : list A) : Z :=
  fold_right (fun x acc => (f x + acc)%Z) 0%Z l.

Lemma sum_over_perm {A} (f : A -> Z) l l' :
  l ≡ₚ l' -> sum_over f l = sum_over f l'.
Proof.
  induction 1 as [|x l l' _ IH|x y l|l l' l'' _ IH1 _ IH2];
    unfold sum_over in *; cbn [fold_right] in *; lia.
Qed.

Lemma sum_over_ext {A} (f g : A -> Z) l :
  (forall x, x ∈ l -> f x = g x) -> sum_over f l = sum_over g l.
Proof.
  induction l as [|x l IH]; intros Hext; [reflexivity|].
  unfold sum_over in *. cbn [fold_right].
  rewrite (Hext x) by left. rewrite IH; [reflexivity|].
  intros y Hy. apply Hext. right. exact Hy.
Qed.

Lemma dict_total_dict_add counts t n :
  dict_total (dict_add counts t n) = (dict_total counts + n)%Z.
Proof.
  induction counts as [|[k c] rest IH]; cbn [dict_add].
  - cbn. lia.
  - destruct (String.eqb k t); unfold dict_total in *; cbn [fold_right snd] in *; lia.
Qed.

Lemma dict_total_count_tags counts s :
  dict_total (count_tags counts s) = (dict_total counts + entity_tokens s)%Z.
Proof.
  unfold count_tags. revert counts.
  induction s as [|tok s IH]; intros counts; cbn [fold_left entity_tokens]; [lia|].
  rewrite IH. destruct (String.eqb_spec (snd tok) "O") as [E|N].
  - rewrite decide_True by assumption. lia.
  - rewrite decide_False by assumption. rewrite dict_total_dict_add. lia.
Qed.

Lemma dict_get_keys_total counts :
  NoDup (map fst counts) ->
  sum_over (dict_get counts) (map fst counts) = dict_total counts.
Proof.
  induction counts as [|[k c] rest IH]; intros Hnd; [reflexivity|].
  cbn [map fst] in Hnd. apply NoDup_cons in Hnd as [Hk Hnd].
  cbn [map fst]. unfold sum_over, dict_total. cbn [fold_right snd].
  fold (sum_over (dict_get ((k, c) :: rest)) (map fst rest)). fold (dict_total rest).
  cbn [dict_get]. rewrite String.eqb_refl. f_equal.
  rewrite <- (IH Hnd). apply sum_over_ext. intros x Hx. cbn [dict_get].
  destruct (String.eqb_spec k x) as [->|_]; [contradiction|reflexivity].
Qed.

(** What the counting loop of [get_tag_frequencies] has built when it is
    left. *)
Lemma corpus_counts_spec sentences counts :
  NoDup (map fst counts) ->
  Forall (fun e : string * Z => (0 < snd e)%Z) counts ->
  let counts' := fold_left count_tags sentences counts in
  NoDup (map fst counts') /\
  (forall tag,
     contribution counts' tag
     = (contribution counts tag
        + if decide (tag = "O"%string) then 0
          else occurrences (concat sentences) tag)%Z) /\
  (forall tag,
     tag ∈ map fst counts' <->
     tag ∈ map fst counts \/
     (tag <> "O"%string /\ tag ∈ map snd (concat sentences))) /\
  dict_total counts' = (dict_total counts + entity_tokens (concat sentences))%Z.
Proof.
  revert counts. induction sentences as [|s sentences IH]; intros counts Hnd Hpos;
    cbn [fold_left concat]; cbv zeta.
  - split; [exact Hnd|]. split; [|split].
    + intros tag. cbn [occurrences]. destruct (decide (tag = "O"%string)); lia.
    + intros tag. cbn [map]. split; [auto|]. intros [H|[_ H]]; [exact H|inversion H].
    + cbn [entity_tokens]. lia.
  - destruct (count_tags_spec counts s Hnd Hpos) as (S1 & S2 & S3 & S4).
    destruct (IH (count_tags counts s) S1 S2) as (I1 & I2 & I3 & I4).
    split; [exact I1|]. split; [|split].
    + intros tag. rewrite I2, S3, occurrences_app.
      destruct (decide (tag = "O"%string)); lia.
    + intros tag. rewrite I3, S4, map_app, elem_of_app. tauto.
    + rewrite I4, dict_total_count_tags, entity_tokens_app. lia.
Qed.

Lemma report_keys sentences tf :
  map fst (get_tag_frequencies sentences tf)
  = merge_sort String.le (map fst (fold_left count_tags sentences [])).
Proof.
  unfold get_tag_frequencies. cbv zeta. rewrite map_map. cbn [fst]. apply map_id.
Qed.

(** X12. The report of [get_tag_frequencies] lists, in ascending order and
    once each, exactly the labels other than "O" that occur in the given
    sentences; for each, the count is the number of tokens that carry it,
    the target is the one of the target map (0 when the label has none), and
    the difference is count minus target when the target is positive and the
    count itself otherwise. A target label that does not occur in the
    sentences is therefore not in the report. *)
Theorem get_tag_frequencies_spec sentences (tf : gmap string Z) :
  let report := get_tag_frequencies sentences tf in
  Sorted String.le (map fst report) /\
  NoDup (map fst report) /\
  (forall tag stats,
     (tag, stats) ∈ report <->
     tag <> "O"%string /\ tag ∈ map snd (concat sentences) /\
     stat_count stats = occurrences (concat sentences) tag /\
     stat_target stats = default 0%Z (tf !! tag) /\
     stat_diff stats
     = if (0 <? stat_target stats)%Z
       then (stat_count stats - stat_target stats)%Z
       else stat_count stats) /\
  (forall tag, tag ∉ map snd (concat sentences) -> tag ∉ map fst report).
Proof.
  intros report.
  destruct (corpus_counts_spec sentences [] NoDup_nil_2 (Forall_nil_2 _))
    as (Hnd & Hc & Hk & _).
  set (counts := fold_left count_tags sentences []) in *.
  assert (Hkeys : map fst report = merge_sort String.le (map fst counts))
    by apply report_keys.
  assert (Hkey_iff : forall tag,
             tag ∈ map fst report <->
             tag <> "O"%string /\ tag ∈ map snd (concat sentences)).
  { intros tag. rewrite Hkeys, merge_sort_Permutation, Hk.
    split; [intros [H|H]; [inversion H|exact H]|auto]. }
  assert (Hget : forall tag, tag <> "O"%string ->
             dict_get counts tag = occurrences (concat sentences) tag).
  { intros tag Hne. rewrite (dict_get_contribution _ _ Hnd), Hc.
    rewrite decide_False by assumption. cbn. lia. }
  split; [rewrite Hkeys; apply Sorted_merge_sort, String.le_total|].
  split; [rewrite Hkeys, merge_sort_Permutation; exact Hnd|].
  split.
  - intros tag stats. split.
    + intros Hin.
      assert (Hkey : tag ∈ map fst report)
        by (apply list_elem_of_fmap; exists (tag, stats); auto).
      apply Hkey_iff in Hkey as [Hne Hocc].
      unfold report, get_tag_frequencies in Hin. cbv zeta in Hin.
      apply list_elem_of_fmap in Hin as (t & Heq & _). inversion Heq; subst t stats.
      cbn [stat_count stat_target stat_diff]. fold counts.
      rewrite (Hget tag Hne). auto.
    + intros (Hne & Hocc & Hcount & Htarget & Hdiff).
      assert (Hkey : tag ∈ map fst report) by (apply Hkey_iff; auto).
      rewrite Hkeys in Hkey.
      unfold report, get_tag_frequencies. cbv zeta. fold counts.
      apply list_elem_of_fmap. exists tag. split; [|exact Hkey].
      f_equal. destruct stats as [c t d]. cbn [stat_count stat_target stat_diff] in *.
      subst t. rewrite (Hget tag Hne), <- Hcount. subst d. reflexivity.
  - intros tag Hno Hkey. apply Hkey_iff in Hkey as [_ Hocc]. contradiction.
Qed.

(** X13. The [total_tags] of the summary, the sum of the counts of the
    report, is the number of tokens of the given sentences whose label is not
    "O". *)
Theorem total_tags_spec sentences (tf : gmap string Z) :
  total_tags (get_tag_frequencies sentences tf)
  = entity_tokens (concat sentences).
Proof.
  destruct (corpus_counts_spec sentences [] NoDup_nil_2 (Forall_nil_2 _))
    as (Hnd & _ & _ & Htot).
  set (counts := fold_left count_tags sentences []) in *.
  unfold total_tags, get_tag_frequencies. cbv zeta. fold counts.
  assert (Hfold : forall l a,
             fold_left (fun acc (e : string * tag_stats) => (acc + stat_count (snd e))%Z)
               (map (fun tag =>
                       (tag,
                        {| stat_count := dict_get counts tag;
                           stat_target := default 0%Z (tf !! tag);
                           stat_diff :=
                             if (0 <? default 0 (tf !! tag))%Z
                             then (dict_get counts tag - default 0 (tf !! tag))%Z
                             else dict_get counts tag |})) l) a
             = (a + sum_over (dict_get counts) l)%Z).
  { induction l as [|t l IH]; intros a; cbn [map fold_left]; [cbn; lia|].
    rewrite IH. cbn [snd stat_count]. unfold sum_over. cbn [fold_right]. lia. }
  rewrite Hfold.
  rewrite (sum_over_perm _ _ _ (merge_sort_Permutation String.le (map fst counts))).
  rewrite (dict_get_keys_total _ Hnd), Htot. cbn. lia.
Qed.

(** ** Labels below their target *)

(** A label of the sentence that is below its target refuses the removal. *)
Lemma should_remove_under_target self idx sc cur tag target :
  tag ∈ map fst sc -> target_frequencies self !! tag = Some target ->
  (count_of cur tag < target)%Z ->
  should_remove_sentence self idx sc cur = false.
Proof.
  intros Hkey Ht Hlt. induction sc as [|[k c] rest IH]; [inversion Hkey|].
  cbn [should_remove_sentence].
  destruct (decide (k = tag)) as [->|Hne].
  - rewrite Ht. destruct (Z.ltb_spec (count_of cur tag) target); [reflexivity|lia].
  - assert (Hrest : tag ∈ map fst rest).
    { cbn [map fst] in Hkey. apply elem_of_cons in Hkey as [Heq|H]; [congruence|exact H]. }
    destruct (target_frequencies self !! k) as [tk|]; [|apply IH, Hrest].
    destruct (count_of cur k <? tk)%Z; [reflexivity|].
    destruct (int_lt_float _ _); [reflexivity|apply IH, Hrest].
Qed.

Lemma removal_steps_keep self stc l st idx tag target :
  (forall i, counts_ok (counts_at stc i)) ->
  tag ∈ map fst (counts_at stc idx) ->
  target_frequencies self !! tag = Some target ->
  (count_of (current_counts st) tag < target)%Z -> idx ∈ selected st ->
  idx ∈ selected (fold_left (removal_step self stc) l st).
Proof.
  intros Hok Hkey Ht. revert st.
  induction l as [|i l IH]; intros st Hlt Hin; cbn [fold_left]; [exact Hin|].
  apply IH; unfold removal_step;
    destruct (should_remove_sentence self i (counts_at stc i) (current_counts st))
      eqn:Hrem; cbn [selected current_counts]; try assumption.
  - rewrite count_of_sub_counts.
    pose proof (contribution_nonneg _ tag (proj2 (Hok i))). lia.
  - apply elem_of_difference. split; [exact Hin|].
    intros Heq%elem_of_singleton. subst i.
    rewrite (should_remove_under_target self idx _ _ tag target Hkey Ht Hlt) in Hrem.
    discriminate Hrem.
Qed.

Lemma balance_trace_keep self order sentences fuel it st idx tag target :
  let stc := sentence_tag_counts sentences in
  let n := length sentences in
  tag ∈ map fst (counts_at stc idx) ->
  target_frequencies self !! tag = Some target ->
  (count_of (get_current_counts (all_indices n) stc) tag < target)%Z ->
  in_step stc n st -> idx ∈ bs_selected st ->
  Forall (fun s => idx ∈ bs_selected s) (balance_trace self order stc n fuel it st).
Proof.
  intros stc n Hkey Ht Hlow. revert it st.
  induction fuel as [|fuel IH]; intros it st Hstep Hin; cbn [balance_trace];
    [constructor|].
  pose proof (iteration_body_in_step self order stc n it st Hstep) as Hnext.
  assert (Hkeep : idx ∈ bs_selected (fst (iteration_body self order stc n it st))).
  { unfold iteration_body. cbn [fst bs_selected]. unfold addition_pass.
    apply (proj1 (addition_steps_mono self stc _ _)).
    unfold removal_pass. apply (removal_steps_keep self stc _ _ idx tag target).
    - intros i. apply counts_at_ok.
    - exact Hkey.
    - exact Ht.
    - cbn [enter_passes current_counts].
      pose proof (count_le_corpus sentences st tag Hstep) as Hb. cbv zeta in Hb.
      fold stc n in Hb. lia.
    - exact Hin. }
  destruct (iteration_body self order stc n it st) as [st' imp].
  cbn [fst] in Hnext, Hkeep.
  constructor; [exact Hkeep|]. destruct imp; [apply IH; assumption|constructor].
Qed.

(** X16. Sentences of an under-represented label are never dropped. If the
    whole corpus holds fewer tokens of a target label than its target, then
    every sentence that carries the label is selected at the end of every
    executed iteration, and, when at least one iteration is allowed, is among
    the sentences returned. *)
Theorem under_target_sentences_kept self order sentences idx tag target :
  idx < length sentences ->
  tag <> "O"%string -> tag ∈ map snd (nth idx sentences []) ->
  target_frequencies self !! tag = Some target ->
  (count_of (get_current_counts (all_indices (length sentences))
                                (sentence_tag_counts sentences)) tag < target)%Z ->
  Forall (fun st => idx ∈ bs_selected st) (iteration_states self order sentences) /\
  (max_iterations self <> 0 ->
   idx ∈ best_selected (final_state self order sentences) /\
   nth idx sentences [] ∈ balance_dataset self order sentences).
Proof.
  intros Hidx Hne Hocc Ht Hlow.
  set (stc := sentence_tag_counts sentences). set (n := length sentences).
  assert (Hkey : tag ∈ map fst (counts_at stc idx)).
  { unfold stc. rewrite counts_at_sentence.
    destruct (count_tags_spec [] (nth idx sentences []) NoDup_nil_2 (Forall_nil_2 _))
      as (_ & _ & _ & Hk).
    apply Hk. right. split; assumption. }
  assert (Hinit : idx ∈ bs_selected (initial_state stc n)).
  { cbn [initial_state bs_selected]. unfold all_indices.
    apply elem_of_list_to_set, elem_of_seq. unfold n. lia. }
  assert (Hall : Forall (fun st => idx ∈ bs_selected st)
                   (iteration_states self order sentences)).
  { apply (balance_trace_keep self order sentences _ _ _ idx tag target);
      auto using initial_state_in_step. }
  split; [exact Hall|]. intros Hpos.
  destruct (final_state_summary self order sentences)
    as (_ & Hres & [(Hzero & _)|(s & Hs & Hsel & _)]); [contradiction|].
  assert (Hbest : idx ∈ best_selected (final_state self order sentences)).
  { rewrite Hsel. rewrite Forall_forall in Hall. apply Hall, Hs. }
  split; [exact Hbest|].
  rewrite Hres. unfold sentences_at.
  apply list_elem_of_fmap. exists idx. split; [reflexivity|].
  unfold sorted. rewrite merge_sort_Permutation. apply elem_of_elements. exact Hbest.
Qed.

Lemma under_target_sentences_kept_witness :
  [("Tom", "B-PER"); ("sings", "O")]%string
  ∈ balance_dataset {| target_frequencies := {["B-PER" := 5%Z]};
                       max_iterations := 3 |}
                    ascending_order
                    [[("Tom", "B-PER"); ("sings", "O")]%string].
Proof.
  apply (under_target_sentences_kept
           {| target_frequencies := {["B-PER" := 5%Z]}; max_iterations := 3 |}
           ascending_order [[("Tom", "B-PER"); ("sings", "O")]%string]
           0 "B-PER" 5).
  - cbn. lia.
  - discriminate.
  - cbn. left.
  - reflexivity.
  - vm_compute. reflexivity.
  - discriminate.
Defined.

(** ** A corpus without target labels, and the best score *)

Lemma StronglySorted_seq k n : StronglySorted lt (seq k n).
Proof.
  revert k. induction n as [|n IH]; intros k; cbn [seq]; constructor; [apply IH|].
  rewrite Forall_forall. intros i Hi. apply elem_of_seq in Hi. lia.
Qed.

Lemma sorted_all_indices n : sorted (all_indices n) = seq 0 n.
Proof.
  apply (StronglySorted_unique_strong lt).
  - intros x1 x2 _ _ H1 H2. lia.
  - apply sorted_StronglySorted.
  - apply StronglySorted_seq.
  - unfold sorted, all_indices. rewrite merge_sort_Permutation.
    apply elements_list_to_set, NoDup_seq.
Qed.

Lemma sentences_at_seq (pre l : list sentence) :
  sentences_at (pre ++ l) (seq (length pre) (length l)) = l.
Proof.
  revert pre. induction l as [|s l IH]; intros pre; [reflexivity|].
  cbn [length seq sentences_at map]. fold (sentences_at (pre ++ s :: l)).
  f_equal.
  - rewrite app_nth2 by lia. rewrite Nat.sub_diag. reflexivity.
  - specialize (IH (pre ++ [s])). rewrite <- List.app_assoc, length_app in IH.
    cbn [length app] in IH. rewrite Nat.add_1_r in IH. exact IH.
Qed.

(** X14. Labels outside the target map never cost a sentence. When no
    sentence of the corpus carries a target label (for instance when the
    target map is empty) and at least one iteration is allowed,
    [balance_dataset] returns the corpus unchanged. *)
Theorem untargeted_corpus_kept self order sentences :
  (forall idx, idx < length sentences ->
     no_target_label self (counts_at (sentence_tag_counts sentences) idx)) ->
  max_iterations self <> 0 ->
  balance_dataset self order sentences = sentences.
Proof.
  intros Hno Hpos.
  set (stc := sentence_tag_counts sentences). set (n := length sentences).
  destruct (final_state_summary self order sentences)
    as (_ & Hres & [(Hzero & _)|(s & Hs & Hsel & _)]); [contradiction|].
  assert (Hall : best_selected (final_state self order sentences) = all_indices n).
  { apply (anti_symm (⊆)); [apply best_selected_in_range|].
    intros idx Hidx. unfold all_indices in Hidx.
    apply elem_of_list_to_set, elem_of_seq in Hidx.
    assert (Hlt : idx < n) by lia.
    assert (Hinit : idx ∈ bs_selected (initial_state stc n)).
    { cbn [initial_state bs_selected]. unfold all_indices.
      apply elem_of_list_to_set, elem_of_seq. lia. }
    destruct (balance_trace_churn self order stc n idx (max_iterations self) 0
                (initial_state stc n) (Hno idx Hlt) Hlt Hinit) as (_ & F & _).
    rewrite Hsel. rewrite Forall_forall in F. apply F, Hs. }
  rewrite Hres, Hall, sorted_all_indices.
  apply (sentences_at_seq [] sentences).
Qed.

Lemma score_le_trans a b c : score_le a b -> score_le b c -> score_le a c.
Proof. destruct a, b, c; cbn; try tauto; lia. Qed.

Lemma iteration_body_best_ge self order stc n it st :
  let st' := fst (iteration_body self order stc n it st) in
  score_le (Score (calculate_frequency_score self (bs_current_counts st')))
           (best_score st').
Proof.
  unfold iteration_body. cbn [fst best_score bs_current_counts].
  destruct (score_gt _ (best_score st)) eqn:E; [cbn; lia|].
  destruct (best_score st) as [|b]; cbn in *; [discriminate E|].
  apply Z.ltb_ge in E. exact E.
Qed.

Lemma balance_trace_best self order stc n fuel it st :
  Forall (fun s =>
            score_le (Score (calculate_frequency_score self (bs_current_counts s)))
                     (best_score (balance_loop self order stc n fuel it st)))
         (balance_trace self order stc n fuel it st) /\
  score_le (best_score st) (best_score (balance_loop self order stc n fuel it st)).
Proof.
  revert it st. induction fuel as [|fuel IH]; intros it st;
    cbn [balance_trace balance_loop].
  - split; [constructor|apply score_le_refl].
  - pose proof (iteration_body_best_ge self order stc n it st) as Hge.
    pose proof (iteration_body_best_le self order stc n it st) as Hle.
    destruct (iteration_body self order stc n it st) as [st' imp].
    cbn [fst] in Hge, Hle. cbv zeta in Hge. destruct imp.
    + destruct (IH (S it) st') as [Hall Hmono]. split.
      * constructor; [|exact Hall]. eapply score_le_trans; [exact Hge|exact Hmono].
      * eapply score_le_trans; [exact Hle|exact Hmono].
    + split; [|exact Hle]. constructor; [exact Hge|constructor].
Qed.

(** X15. The best score is the best of the run: the score reached at the end
    of every executed iteration is at most the best score the loop ends
    with. *)
Theorem best_score_is_maximum self order sentences :
  Forall (fun st =>
            score_le (Score (calculate_frequency_score self (bs_current_counts st)))
                     (best_score (final_state self order sentences)))
         (iteration_states self order sentences).
Proof. apply balance_trace_best. Qed.

(** ** Inputs on which the hypotheses above hold *)

(** A marker line, blank lines in a row, and one token line with a middle
    column. *)
Definition reader_example_text : string :=
  ("-DOCSTART- -X- O O" ++ String LF (String LF
   ("EU NNP B-ORG" ++ String LF (String LF (String LF EmptyString)))))%string.

Lemma read_conll_well_formed_witness :
  Forall (fun s : sentence =>
            s <> [] /\
            Forall (fun tok : token =>
                      is_field (fst tok) /\ is_field (snd tok) /\
                      String.prefix DOCSTART (fst tok) = false) s)
         [[("EU", "B-ORG")]%string].
Proof.
  apply (read_conll_well_formed reader_example_text).
  vm_compute. reflexivity.
Defined.

Lemma read_write_read_witness :
  read_conll (write_conll [[("EU", "B-ORG")]%string])
  = Some [[("EU", "B-ORG")]%string].
Proof.
  apply (read_write_read reader_example_text).
  vm_compute. reflexivity.
Defined.

Lemma process_file_output_witness :
  exists output,
    process_file rule_example_balancer ascending_order reader_example_text
    = Some output /\
    read_conll output
    = Some (balance_dataset rule_example_balancer ascending_order
              [[("EU", "B-ORG")]%string]).
Proof.
  apply (process_file_output rule_example_balancer ascending_order
           reader_example_text).
  vm_compute. reflexivity.
Defined.

Lemma middle_columns_ignored_witness :
  read_line ([], []) ("EU" ++ String " " ("NNP B-NP" ++ String "009"
                        ("B-ORG" ++ String LF EmptyString)))%string
  = Some ([], [("EU", "B-ORG")]%string).
Proof.
  apply (middle_columns_ignored ([], []) "EU" " " "NNP B-NP" "009" "B-ORG");
    try reflexivity; split; reflexivity.
Defined.

Lemma get_current_counts_spec_witness :
  count_of (get_current_counts {[0]}
              (sentence_tag_counts [[("a", "A"); ("b", "O"); ("c", "A")]%string]))
           "A"
  = 2%Z.
Proof.
  rewrite (get_current_counts_spec [[("a", "A"); ("b", "O"); ("c", "A")]%string]
             {[0]} "A"%string).
  - vm_compute. reflexivity.
  - intros i Hi. apply elem_of_singleton in Hi. subst i.
    unfold all_indices. apply elem_of_list_to_set, elem_of_seq. cbn. lia.
Defined.

Lemma removal_guard_invariant_witness :
  (4 * 10
   <= 5 * count_of (get_current_counts
                      (best_selected (final_state rule_example_balancer
                                        ascending_order
                                        [repeat ("a", "A")%string 13]))
                      (sentence_tag_counts [repeat ("a", "A")%string 13])) "A")%Z \/
  count_of (get_current_counts
              (best_selected (final_state rule_example_balancer ascending_order
                                [repeat ("a", "A")%string 13]))
              (sentence_tag_counts [repeat ("a", "A")%string 13])) "A"
  = count_of (get_current_counts (all_indices 1)
                (sentence_tag_counts [repeat ("a", "A")%string 13])) "A".
Proof.
  apply (removal_guard_invariant rule_example_balancer ascending_order
           [repeat ("a", "A")%string 13] "A" 10 rule_example_in_range).
  - reflexivity.
  - discriminate.
Defined.

Lemma early_exit_is_stable_witness :
  should_remove_sentence rule_example_balancer 0
    (counts_at (sentence_tag_counts [repeat ("a", "A")%string 13]) 0)
    (bs_current_counts (final_state rule_example_balancer ascending_order
                          [repeat ("a", "A")%string 13]))
  = false.
Proof.
  assert (Hearly : length (iteration_states rule_example_balancer ascending_order
                             [repeat ("a", "A")%string 13])
                   < max_iterations rule_example_balancer)
    by (vm_compute; lia).
  apply (proj1 (early_exit_is_stable rule_example_balancer ascending_order
                  [repeat ("a", "A")%string 13] Hearly) 0).
  apply (bool_decide_unpack _). vm_compute. exact I.
Defined.

Lemma untargeted_corpus_kept_witness :
  balance_dataset {| target_frequencies := churn_example_targets;
                     max_iterations := 2 |}
                  ascending_order churn_example_corpus
  = churn_example_corpus.
Proof.
  apply untargeted_corpus_kept.
  - intros idx Hidx. cbn in Hidx. destruct idx as [|idx]; [|lia].
    apply churn_example_no_target.
  - discriminate.
Defined.
